(** * Scoped virtual file system and host tools of sequential-runner

    A shallow embedding of [src/taskcode/vfs.js] (class [TaskVFS]) and
    [src/taskcode/host-tools.js] (class [HostTools]), in the canonical
    (second, validated) version of each file, together with the properties
    the specification states about them.

    Conventions.
    - A JavaScript string is a [string] (a sequence of bytes); the text
      encoding of file contents is the identity on such strings.
    - A thrown [Error] is its message; [Throw msg] is a rejected promise or a
      raised exception, [Ok v] a normal return.
    - The Node built-ins the code calls ([path.join], [path.dirname],
      [fs.*]) are modelled after their documented POSIX behaviour in the
      modules [JS], [Path] and [Disk]; the file system is a finite map from
      canonical segment lists to nodes, without symbolic links, permissions
      or time stamps.  Platform error texts are shortened to their codes.
    - Diagnostic output ([_log]) has no effect on the state and is left
      out. *)

From Stdlib Require Import Ascii.
From stdpp Require Import gmap strings list fin_maps.

(** ** JavaScript strings *)

Module JS.

(** [s.startsWith(p)] *)
Fixpoint startsWith (s p : string) : bool :=
  match p, s with
  | EmptyString, _ => true
  | String _ _, EmptyString => false
  | String a p', String b s' =>
      if decide (a = b) then startsWith s' p' else false
  end.

(** [s.slice(1)] *)
Definition slice1 (s : string) : string :=
  match s with
  | EmptyString => EmptyString
  | String _ rest => rest
  end.

(** [s.endsWith("/")] *)
Fixpoint endsWithSlash (s : string) : bool :=
  match s with
  | EmptyString => false
  | String c EmptyString => if decide (c = "/"%char) then true else false
  | String _ rest => endsWithSlash rest
  end.

Fixpoint trimStart (s : string) : string :=
  match s with
  | EmptyString => EmptyString
  | String c rest => if Ascii.is_space c then trimStart rest else s
  end.

Definition trimEnd (s : string) : string :=
  String.rev (trimStart (String.rev s)).

(** [s.trim()], on the ASCII white space characters *)
Definition trim (s : string) : string := trimEnd (trimStart s).

(** [s.split("/")] *)
Fixpoint split (s : string) : list string :=
  match s with
  | EmptyString => [EmptyString]
  | String c rest =>
      if decide (c = "/"%char) then EmptyString :: split rest
      else match split rest with
           | x :: xs => String c x :: xs
           | [] => [String c EmptyString]
           end
  end.

(** [l.join(sep)] *)
Fixpoint join (sep : string) (l : list string) : string :=
  match l with
  | [] => EmptyString
  | [x] => x
  | x :: xs => x +:+ sep +:+ join sep xs
  end.

End JS.

(** ** Node's [path] module (POSIX flavour) *)

Module Path.

(** One step of [normalizeString]: the segments kept so far are held
    last-first.  Empty and ["."] segments are dropped; [".."] removes the
    last kept segment, unless there is none or it is itself [".."], in
    which case it is kept only when the path may climb above its start. *)
Definition step (allowAboveRoot : bool) (kept : list string) (seg : string)
    : list string :=
  if decide (seg = "" ∨ seg = ".") then kept
  else if decide (seg = "..") then
    match kept with
    | top :: below =>
        if decide (top = "..")
        then (if allowAboveRoot then ".." :: kept else kept)
        else below
    | [] => if allowAboveRoot then [".."] else []
    end
  else seg :: kept.

Definition normalizeSegments (allowAboveRoot : bool) (segs : list string)
    : list string :=
  rev (fold_left (step allowAboveRoot) segs []).

(** [path.normalize] *)
Definition normalize (p : string) : string :=
  if decide (p = "") then "."
  else
    let isAbsolute := JS.startsWith p "/" in
    let trailingSeparator := JS.endsWithSlash p in
    let res := JS.join "/" (normalizeSegments (negb isAbsolute) (JS.split p)) in
    if decide (res = "") then
      (if isAbsolute then "/" else if trailingSeparator then "./" else ".")
    else
      (if isAbsolute then "/" else "") +:+ res
        +:+ (if trailingSeparator then "/" else "").

(** [path.join(...args)]: empty arguments are skipped, the rest is glued
    with ["/"] and normalised. *)
Definition join (args : list string) : string :=
  match filter (λ a, a ≠ "") args with
  | [] => "."
  | parts => normalize (JS.join "/" parts)
  end.

Fixpoint dropSlashes (s : string) : string :=
  match s with
  | String c rest => if decide (c = "/"%char) then dropSlashes rest else s
  | EmptyString => EmptyString
  end.

Fixpoint afterSlash (s : string) : option string :=
  match s with
  | EmptyString => None
  | String c rest => if decide (c = "/"%char) then Some rest else afterSlash rest
  end.

(** [path.dirname]: scanning backwards from the end (never looking at the
    first character), trailing separators are skipped, then everything up
    to the next separator is cut off. *)
Definition dirname (p : string) : string :=
  match p with
  | EmptyString => "."
  | String c0 body =>
      let hasRoot := bool_decide (c0 = "/"%char) in
      match afterSlash (dropSlashes (String.rev body)) with
      | None => if hasRoot then "/" else "."
      | Some before =>
          if hasRoot && bool_decide (before = "") then "//"
          else String c0 (String.rev before)
      end
  end.

End Path.

(** ** Values, results and effects *)

(** The values a tool parameter can hold.  A plain object (anything that is
    neither a string nor a [Buffer]) is represented by the text
    [JSON.stringify(o, null, 2)] produces for it, which is all the code
    ever asks of it.  Numbers are left out. *)
Inductive jsval :=
  | JUndefined
  | JNull
  | JBool (b : bool)
  | JStr (s : string)
  | JBuf (bytes : string)
  | JObj (json : string).

Global Instance jsval_eq_dec : EqDecision jsval.
Proof. solve_decision. Defined.

(** [`${v}`] *)
Definition toString (v : jsval) : string :=
  match v with
  | JUndefined => "undefined"
  | JNull => "null"
  | JBool true => "true"
  | JBool false => "false"
  | JStr s => s
  | JBuf bytes => bytes
  | JObj _ => "[object Object]"
  end.

(** [!v] *)
Definition falsy (v : jsval) : bool :=
  match v with
  | JUndefined | JNull | JBool false | JStr EmptyString => true
  | _ => false
  end.

Inductive result (A : Type) :=
  | Ok (a : A)
  | Throw (message : string).
Global Arguments Ok {A} a.
Global Arguments Throw {A} message.

Inductive node :=
  | File (data : string)
  | Dir.

Global Instance node_eq_dec : EqDecision node.
Proof. solve_decision. Defined.

(** An event published with [this.emit(name, event)] (the time stamp is
    left out). *)
Record emitted_event := {
  ev_name : string;
  ev_path : jsval;
  ev_scope : jsval;
  ev_fullPath : string;
  ev_size : option nat
}.

(** The world the code runs in: the process working directory, the size
    [stat] reports for a directory, the file system and the events
    published so far. *)
Record state := {
  cwd : list string;
  dirSize : nat;
  nodes : gmap (list string) node;
  emitted : list emitted_event
}.

Definition with_nodes (f : gmap (list string) node → gmap (list string) node)
    (st : state) : state :=
  {| cwd := cwd st; dirSize := dirSize st; nodes := f (nodes st);
     emitted := emitted st |}.

Definition emit (e : emitted_event) (st : state) : state :=
  {| cwd := cwd st; dirSize := dirSize st; nodes := nodes st;
     emitted := emitted st ++ [e] |}.

(** Effectful code: a state transformer that may throw.  Effects made
    before a throw persist. *)
Definition M (A : Type) : Type := state → result A * state.

Definition ret {A} (a : A) : M A := λ st, (Ok a, st).
Definition throw {A} (message : string) : M A := λ st, (Throw message, st).
Definition bind {A B} (m : M A) (k : A → M B) : M B :=
  λ st, match m st with
        | (Ok a, st') => k a st'
        | (Throw e, st') => (Throw e, st')
        end.
Definition try_catch {A} (m : M A) (handler : string → M A) : M A :=
  λ st, match m st with
        | (Ok a, st') => (Ok a, st')
        | (Throw e, st') => handler e st'
        end.
Definition lift {A} (r : result A) : M A := λ st, (r, st).
Definition get {A} (f : state → A) : M A := λ st, (Ok (f st), st).
Definition modify (f : state → state) : M unit := λ st, (Ok tt, f st).

Declare Scope vfs_scope.
Delimit Scope vfs_scope with vfs.
Notation "'let*' x ':=' m 'in' k" := (bind m (λ x, k))
  (at level 10, x pattern, m at level 100, k at level 200) : vfs_scope.
Notation "m ';;' k" := (bind m (λ _, k))
  (at level 100, k at level 200, right associativity) : vfs_scope.
Local Open Scope vfs_scope.

(** ** Node's [fs] module *)

Module Disk.

(** Where a path string leads: relative paths start at the working
    directory, [".."] at the root stays at the root. *)
Definition locate (st : state) (p : string) : list string :=
  Path.normalizeSegments false
    ((if JS.startsWith p "/" then [] else cwd st) ++ JS.split p).

(** A path with a trailing separator only names a directory. *)
Definition lookup (st : state) (p : string) : option node :=
  match nodes st !! locate st p with
  | Some (File data) => if JS.endsWithSlash p then None else Some (File data)
  | found => found
  end.

Definition existsSync (p : string) : M bool :=
  get (λ st, bool_decide (is_Some (lookup st p))).

Definition is_file (n : option node) : bool :=
  match n with Some (File _) => true | _ => false end.

(** [] , [a], [a; b], ... up to the whole list *)
Fixpoint ancestors (k : list string) : list (list string) :=
  match k with
  | [] => [[]]
  | x :: k' => [] :: map (cons x) (ancestors k')
  end.

(** [mkdir(p, {recursive: true})]: creates every missing directory on the
    way; fails when a regular file is in the way. *)
Definition mkdir_recursive (p : string) : M unit := λ st,
  let k := locate st p in
  if is_file (nodes st !! k) then (Throw "EEXIST", st)
  else if existsb (λ q, is_file (nodes st !! q)) (ancestors k)
  then (Throw "ENOTDIR", st)
  else (Ok tt,
        with_nodes (λ m, foldr (λ q, <[q := Dir]>) m (ancestors k)) st).

Definition parent (k : list string) : list string := removelast k.

(** [writeFile(p, data)]: creates or replaces a regular file in an
    existing directory. *)
Definition writeFile (p : string) (data : string) : M unit := λ st,
  let k := locate st p in
  if JS.endsWithSlash p then (Throw "EISDIR", st)
  else match k, nodes st !! k with
       | [], _ | _, Some Dir => (Throw "EISDIR", st)
       | _, _ =>
           match nodes st !! parent k with
           | Some Dir => (Ok tt, with_nodes <[k := File data]> st)
           | Some (File _) => (Throw "ENOTDIR", st)
           | None => (Throw "ENOENT", st)
           end
       end.

Definition readFile (p : string) : M string := λ st,
  match lookup st p with
  | Some (File data) => (Ok data, st)
  | Some Dir => (Throw "EISDIR", st)
  | None => (Throw "ENOENT", st)
  end.

Record stats := { isDirectory : bool; size : nat }.

Definition stat (p : string) : M stats := λ st,
  match lookup st p with
  | Some (File data) =>
      (Ok {| isDirectory := false; size := String.length data |}, st)
  | Some Dir => (Ok {| isDirectory := true; size := dirSize st |}, st)
  | None => (Throw "ENOENT", st)
  end.

Record dirent := { name : string; entryIsDirectory : bool }.

Definition child_of (k : list string) (kn : list string * node)
    : option dirent :=
  match kn.1 with
  | [] => None
  | _ :: _ =>
      if decide (removelast kn.1 = k) then
        Some {| name := List.last kn.1 "";
                entryIsDirectory := bool_decide (kn.2 = Dir) |}
      else None
  end.

(** [readdir(p, {withFileTypes: true})]; the order of the entries is the
    platform's. *)
Definition readdir (p : string) : M (list dirent) := λ st,
  match lookup st p with
  | Some Dir => (Ok (omap (child_of (locate st p)) (map_to_list (nodes st))), st)
  | Some (File _) => (Throw "ENOTDIR", st)
  | None => (Throw "ENOENT", st)
  end.

(** [rm(p, {recursive: true, force: true})] *)
Definition rm_recursive (p : string) : M unit := λ st,
  let k := locate st p in
  (Ok tt, with_nodes (filter (λ kn, ¬ k `prefix_of` kn.1)) st).

Definition unlink (p : string) : M unit := λ st,
  match lookup st p with
  | Some (File _) => (Ok tt, with_nodes (delete (locate st p)) st)
  | Some Dir => (Throw "EISDIR", st)
  | None => (Throw "ENOENT", st)
  end.

(** [copyFile(src, dest)]: the destination is created or replaced. *)
Definition copyFile (src dest : string) : M unit := λ st,
  match lookup st src with
  | Some (File data) => writeFile dest data st
  | Some Dir => (Throw "EISDIR", st)
  | None => (Throw "ENOENT", st)
  end.

End Disk.

(** A parameter declared [name = dflt] *)
Definition or_default (dflt : jsval) (v : jsval) : jsval :=
  match v with JUndefined => dflt | _ => v end.

Definition ERR_INVALID_ARG_TYPE : string := "ERR_INVALID_ARG_TYPE".

(** ** [TaskVFS] (src/taskcode/vfs.js) *)

Module VFS.

Record TaskVFS := {
ecosystemPath : string;
taskId : string;
runId : string
}.

(** What [this.scopes[key]] finds: one of the three roots, a member
  inherited from [Object.prototype] (truthy, but not a string), or
  nothing. *)
Inductive slot :=
| Own (root : string)
| Inherited
| Missing.

Definition object_prototype_keys : list string :=
["constructor"; "__proto__"; "hasOwnProperty"; "isPrototypeOf";
 "propertyIsEnumerable"; "toLocaleString"; "toString"; "valueOf";
 "__defineGetter__"; "__defineSetter__"; "__lookupGetter__";
 "__lookupSetter__"].

Definition scopes (v : TaskVFS) (key : string) : slot :=
if decide (key = "run") then
  Own (Path.join [ecosystemPath v; "tasks"; taskId v; "runs"; runId v; "fs"])
else if decide (key = "task") then
  Own (Path.join [ecosystemPath v; "tasks"; taskId v; "fs"])
else if decide (key = "global") then
  Own (Path.join [ecosystemPath v; "vfs"; "global"])
else if decide (key ∈ object_prototype_keys) then Inherited
else Missing.

(** [Object.values(this.scopes)] *)
Definition scope_roots (v : TaskVFS) : list string :=
  omap (λ key, match scopes v key with Own root => Some root | _ => None end)
    ["run"; "task"; "global"].

(** The constructor makes sure the three scope roots exist. *)
Definition _ensureDirectories (v : TaskVFS) : M unit :=
  foldr (λ dir rest,
           (let* found := Disk.existsSync dir in
            if found then ret tt else Disk.mkdir_recursive dir) ;;
           rest)
    (ret tt) (scope_roots v).

Definition invalid_scope (scope : jsval) : string :=
"Invalid scope: " +:+ toString scope +:+ ". Valid scopes: run, task, global".
Definition empty_path : string := "Filepath cannot be empty".
Definition path_traversal (filepath : string) : string :=
"Path traversal detected: " +:+ filepath.
Definition file_not_found (filepath : jsval) : string :=
"File not found: " +:+ toString filepath.

Definition _resolvePath (v : TaskVFS) (filepath scope : jsval) : result string :=
let scope := or_default (JStr "run") scope in
match scopes v (toString scope) with
| Missing => Throw (invalid_scope scope)
| found =>
    if falsy filepath then Throw empty_path
    else match filepath with
         | JStr p =>
             if decide (JS.trim p = "") then Throw empty_path
             else
               let normalized := if JS.startsWith p "/" then JS.slice1 p else p in
               match found with
               | Own root =>
                   let resolved := Path.join [root; normalized] in
                   if negb (JS.startsWith resolved root)
                   then Throw (path_traversal p)
                   else Ok resolved
               | _ => Throw ERR_INVALID_ARG_TYPE
               end
         | _ => Throw "filepath.trim is not a function"
         end
end.

Record write_result := {
wr_path : jsval;
wr_scope : jsval;
wr_size : nat;
wr_fullPath : string
}.

(** [typeof content === 'object' && !Buffer.isBuffer(content)] *)
Definition is_plain_object (content : jsval) : bool :=
match content with JNull | JObj _ => true | _ => false end.

(** [JSON.stringify(content, null, 2)] *)
Definition stringify (content : jsval) : string :=
match content with
| JObj json => json
| JNull => "null"
| other => toString other
end.

(** What [fs.promises.writeFile] accepts as data *)
Definition file_data (content : jsval) : result string :=
match content with
| JStr s => Ok s
| JBuf bytes => Ok bytes
| _ => Throw ERR_INVALID_ARG_TYPE
end.

Definition writeFile (v : TaskVFS) (filepath content scope : jsval)
  (append : bool) : M write_result :=
let scope := or_default (JStr "run") scope in
try_catch
  (let* fullPath := lift (_resolvePath v filepath scope) in
   let dir := Path.dirname fullPath in
   let* dirExists := Disk.existsSync dir in
   (if dirExists then ret tt else Disk.mkdir_recursive dir) ;;
   let content :=
     if is_plain_object content then JStr (stringify content) else content in
   let* targetExists := Disk.existsSync fullPath in
   let* content :=
     (if append && targetExists
      then let* existing := Disk.readFile fullPath in
           ret (JStr (existing +:+ toString content))
      else ret content) in
   let* data := lift (file_data content) in
   Disk.writeFile fullPath data ;;
   let* stat := Disk.stat fullPath in
   modify (emit {| ev_name := "file:write"; ev_path := filepath;
                   ev_scope := scope; ev_fullPath := fullPath;
                   ev_size := Some (Disk.size stat) |}) ;;
   ret {| wr_path := filepath; wr_scope := scope;
          wr_size := Disk.size stat; wr_fullPath := fullPath |})
  (λ error, throw ("Failed to write file " +:+ toString filepath
                     +:+ ": " +:+ error)).

Record read_result := {
rd_content : string;
rd_path : jsval;
rd_scope : jsval;
rd_size : nat;
rd_fullPath : string
}.

(** One turn of the loop of [readFile] either returns or goes on with the
  next scope. *)
Inductive turn (A : Type) :=
| Return (a : A)
| Continue (errors : list string).
Global Arguments Return {A} a.
Global Arguments Continue {A} errors.

Definition readFile_try (v : TaskVFS) (filepath s : jsval)
  (errors : list string) : M (turn read_result) :=
let* fullPath := lift (_resolvePath v filepath s) in
let* found := Disk.existsSync fullPath in
if negb found
then ret (Continue (errors ++ ["Not found in " +:+ toString s +:+ " scope"]))
else
  let* content := Disk.readFile fullPath in
  let* stat := Disk.stat fullPath in
  modify (emit {| ev_name := "file:read"; ev_path := filepath;
                  ev_scope := s; ev_fullPath := fullPath;
                  ev_size := Some (Disk.size stat) |}) ;;
  ret (Return {| rd_content := content; rd_path := filepath; rd_scope := s;
                 rd_size := Disk.size stat; rd_fullPath := fullPath |}).

Fixpoint readFile_loop (v : TaskVFS) (filepath scope : jsval)
  (searchScopes : list jsval) (errors : list string) : M read_result :=
match searchScopes with
| [] => throw (file_not_found filepath +:+ ". Searched: "
                 +:+ JS.join ", " errors)
| s :: rest =>
    let* t :=
      try_catch (readFile_try v filepath s errors)
        (λ e,
           let errors := errors ++ [toString s +:+ ": " +:+ e] in
           if decide (scope ≠ JStr "auto")
           then throw ("Failed to read file " +:+ toString filepath
                         +:+ ": " +:+ e)
           else ret (Continue errors)) in
    match t with
    | Return r => ret r
    | Continue errors => readFile_loop v filepath scope rest errors
    end
end.

Definition readFile (v : TaskVFS) (filepath scope : jsval) : M read_result :=
let scope := or_default (JStr "run") scope in
let searchScopes :=
  if decide (scope = JStr "auto")
  then [JStr "run"; JStr "task"; JStr "global"] else [scope] in
readFile_loop v filepath scope searchScopes [].

Record entry := {
e_name : string;
e_path : string;
e_scope : jsval;
e_size : nat;
e_fullPath : string
}.

Record listing := {
l_path : jsval;
l_scope : jsval;
files : list entry;
directories : list entry;
total : nat
}.

(** The body of the loop over the directory entries; the two arrays grow
  at their ends.  (Time stamps and the extension are left out of an
  item.) *)
Fixpoint listFiles_entries (dirpath fullPath : string) (scope : jsval)
  (entries : list Disk.dirent) (files directories : list entry)
  : M (list entry * list entry) :=
match entries with
| [] => ret (files, directories)
| dirent :: rest =>
    let entryPath := Path.join [dirpath; Disk.name dirent] in
    let entryFullPath := Path.join [fullPath; Disk.name dirent] in
    let* stat := Disk.stat entryFullPath in
    let item := {| e_name := Disk.name dirent; e_path := entryPath;
                   e_scope := scope; e_size := Disk.size stat;
                   e_fullPath := entryFullPath |} in
    if Disk.entryIsDirectory dirent
    then listFiles_entries dirpath fullPath scope rest files (directories ++ [item])
    else listFiles_entries dirpath fullPath scope rest (files ++ [item]) directories
end.

Definition listFiles (v : TaskVFS) (dirpath scope : jsval) : M listing :=
let dirpath := or_default (JStr "/") dirpath in
let scope := or_default (JStr "run") scope in
try_catch
  (let* fullPath := lift (_resolvePath v dirpath scope) in
   let* found := Disk.existsSync fullPath in
   if negb found
   then ret {| l_path := dirpath; l_scope := scope; files := [];
               directories := []; total := 0 |}
   else
     let* entries := Disk.readdir fullPath in
     let* found :=
       listFiles_entries (toString dirpath) fullPath scope entries [] [] in
     ret {| l_path := dirpath; l_scope := scope; files := found.1;
            directories := found.2;
            total := length found.1 + length found.2 |})
  (λ error, throw ("Failed to list files in " +:+ toString dirpath
                     +:+ ": " +:+ error)).

Record delete_result := { dl_path : jsval; dl_scope : jsval }.

Definition deleteFile (v : TaskVFS) (filepath scope : jsval) : M delete_result :=
let scope := or_default (JStr "run") scope in
try_catch
  (let* fullPath := lift (_resolvePath v filepath scope) in
   let* found := Disk.existsSync fullPath in
   (if negb found then throw (file_not_found filepath) else ret tt) ;;
   let* stat := Disk.stat fullPath in
   (if Disk.isDirectory stat
    then Disk.rm_recursive fullPath
    else Disk.unlink fullPath) ;;
   modify (emit {| ev_name := "file:delete"; ev_path := filepath;
                   ev_scope := scope; ev_fullPath := fullPath;
                   ev_size := None |}) ;;
   ret {| dl_path := filepath; dl_scope := scope |})
  (λ error, throw ("Failed to delete " +:+ toString filepath
                     +:+ ": " +:+ error)).

Definition exists_ (v : TaskVFS) (filepath scope : jsval) : M bool :=
let scope := or_default (JStr "run") scope in
try_catch
  (let* fullPath := lift (_resolvePath v filepath scope) in
   Disk.existsSync fullPath)
  (λ _, ret false).

Record stat_result := {
sr_path : jsval;
sr_scope : jsval;
sr_size : nat;
sr_isDirectory : bool;
sr_isFile : bool;
sr_fullPath : string
}.

Definition stat (v : TaskVFS) (filepath scope : jsval) : M stat_result :=
let scope := or_default (JStr "run") scope in
try_catch
  (let* fullPath := lift (_resolvePath v filepath scope) in
   let* found := Disk.existsSync fullPath in
   (if negb found then throw (file_not_found filepath) else ret tt) ;;
   let* stat := Disk.stat fullPath in
   ret {| sr_path := filepath; sr_scope := scope; sr_size := Disk.size stat;
          sr_isDirectory := Disk.isDirectory stat;
          sr_isFile := negb (Disk.isDirectory stat);
          sr_fullPath := fullPath |})
  (λ error, throw ("Failed to stat " +:+ toString filepath
                     +:+ ": " +:+ error)).

Record mkdir_result := {
mk_path : jsval;
mk_scope : jsval;
mk_fullPath : string
}.

Definition mkdir (v : TaskVFS) (dirpath scope : jsval) : M mkdir_result :=
let scope := or_default (JStr "run") scope in
try_catch
  (let* fullPath := lift (_resolvePath v dirpath scope) in
   Disk.mkdir_recursive fullPath ;;
   ret {| mk_path := dirpath; mk_scope := scope; mk_fullPath := fullPath |})
  (λ error, throw ("Failed to create directory " +:+ toString dirpath
                     +:+ ": " +:+ error)).

(** What the callback of [watch] receives (without the time stamp) *)
Record watch_event := {
we_event : string;
we_filename : string;
we_path : jsval;
we_scope : jsval
}.

(** An armed [fs.watch] watcher together with the [{close}] handle on it:
  the listener acts on the state [A] of whoever registered it, and is
  silent once the watcher is closed. *)
Record watcher (A : Type) := {
target : string;
listener : string → string → A → A;
closed : bool
}.
Global Arguments target {A} _.
Global Arguments listener {A} _.
Global Arguments closed {A} _.

Definition close {A} (w : watcher A) : watcher A :=
{| target := target w; listener := listener w; closed := true |}.

(** The platform reports one change, [(eventType, filename)]. *)
Definition notify {A} (w : watcher A) (change : string * string) (a : A) : A :=
if closed w then a else listener w change.1 change.2 a.

Definition watch {A} (v : TaskVFS) (filepath scope : jsval)
  (callback : watch_event → A → A) : M (watcher A) :=
let scope := or_default (JStr "run") scope in
try_catch
  (let* fullPath := lift (_resolvePath v filepath scope) in
   let* found := Disk.existsSync fullPath in
   (if negb found
    then throw ("Cannot watch non-existent path: " +:+ toString filepath)
    else ret tt) ;;
   ret {| target := fullPath;
          listener := λ eventType filename,
            callback {| we_event := eventType; we_filename := filename;
                        we_path := filepath; we_scope := scope |};
          closed := false |})
  (λ error, throw ("Failed to watch " +:+ toString filepath
                     +:+ ": " +:+ error)).

(** [Object.entries(this.scopes)] *)
Definition scope_entries (v : TaskVFS) : list (string * string) :=
  omap (λ key, match scopes v key with
               | Own root => Some (key, root)
               | _ => None
               end)
    ["run"; "task"; "global"].

(** The loop of [_getDirectorySize] over the items of a directory; [self]
    is the recursive call, [None] means its bound was hit. *)
Fixpoint sum_items (self : string → M (option nat)) (dirPath : string)
    (items : list Disk.dirent) (size : nat) : M (option nat) :=
  match items with
  | [] => ret (Some size)
  | item :: rest =>
      let itemPath := Path.join [dirPath; Disk.name item] in
      if Disk.entryIsDirectory item then
        let* sub := self itemPath in
        match sub with
        | None => ret None
        | Some n => sum_items self dirPath rest (size + n)
        end
      else
        let* stat := Disk.stat itemPath in
        sum_items self dirPath rest (size + Disk.size stat)
  end.

(** The recursion is bounded by [fuel]. *)
Fixpoint _getDirectorySize (fuel : nat) (dirPath : string) : M (option nat) :=
  match fuel with
  | 0 => ret None
  | S fuel' =>
      let* found := Disk.existsSync dirPath in
      if negb found then ret (Some 0)
      else
        let* items := Disk.readdir dirPath in
        sum_items (_getDirectorySize fuel') dirPath items 0
  end.

Record tree_entry := {
  t_scope : string;
  t_path : string;
  t_exists : bool;
  t_size : nat
}.

Fixpoint getVFSTree_entries (fuel : nat) (entries : list (string * string))
    (tree : list tree_entry) : M (option (list tree_entry)) :=
  match entries with
  | [] => ret (Some tree)
  | (scopeName, scopePath) :: rest =>
      let* found := Disk.existsSync scopePath in
      let* size := _getDirectorySize fuel scopePath in
      match size with
      | None => ret None
      | Some n =>
          getVFSTree_entries fuel rest
            (tree ++ [{| t_scope := scopeName; t_path := scopePath;
                         t_exists := found; t_size := n |}])
      end
  end.

Definition getVFSTree (fuel : nat) (v : TaskVFS) : M (option (list tree_entry)) :=
  getVFSTree_entries fuel (scope_entries v) [].

(** The loop of [_copyDirectory] over the entries of the source *)
Fixpoint copy_entries (self : string → string → M (option unit))
    (src dest : string) (entries : list Disk.dirent) : M (option unit) :=
  match entries with
  | [] => ret (Some tt)
  | dirent :: rest =>
      let srcPath := Path.join [src; Disk.name dirent] in
      let destPath := Path.join [dest; Disk.name dirent] in
      let* copied :=
        (if Disk.entryIsDirectory dirent then self srcPath destPath
         else Disk.copyFile srcPath destPath ;; ret (Some tt)) in
      match copied with
      | None => ret None
      | Some _ => copy_entries self src dest rest
      end
  end.

(** The recursion is bounded by [fuel]. *)
Fixpoint _copyDirectory (fuel : nat) (src dest : string) : M (option unit) :=
  match fuel with
  | 0 => ret None
  | S fuel' =>
      let* found := Disk.existsSync dest in
      (if found then ret tt else Disk.mkdir_recursive dest) ;;
      let* entries := Disk.readdir src in
      copy_entries (_copyDirectory fuel') src dest entries
  end.

Fixpoint export_scopes (fuel : nat) (exportPath : string)
    (entries : list (string * string)) : M (option unit) :=
  match entries with
  | [] => ret (Some tt)
  | (scopeName, scopePath) :: rest =>
      let targetPath := Path.join [exportPath; scopeName] in
      let* found := Disk.existsSync scopePath in
      let* copied :=
        (if found then _copyDirectory fuel scopePath targetPath
         else ret (Some tt)) in
      match copied with
      | None => ret None
      | Some _ => export_scopes fuel exportPath rest
      end
  end.

(** [exportToOSjs] resolves to [{success: true, exportPath}]. *)
Definition exportToOSjs (fuel : nat) (v : TaskVFS) (osJsVFSPath : string)
    : M (option string) :=
  try_catch
    (let exportPath := Path.join [osJsVFSPath; "tasks"; taskId v] in
     let* found := Disk.existsSync exportPath in
     (if found then ret tt else Disk.mkdir_recursive exportPath) ;;
     let* exported := export_scopes fuel exportPath (scope_entries v) in
     ret (match exported with Some _ => Some exportPath | None => None end))
    (λ error, throw ("Failed to export to OS.js: " +:+ error)).

End VFS.

Import (notations) VFS.
Abbreviation TaskVFS := VFS.TaskVFS.

(** ** [HostTools] (src/taskcode/host-tools.js) *)

(** The parameter object of a tool call *)
Abbreviation params := (gmap string jsval).

(** [params.key], [undefined] when absent *)
Definition param (ps : params) (key : string) : jsval :=
  default JUndefined (ps !! key).

Definition missing_parameters (missing : list string) : string :=
  "Missing required parameters: " +:+ JS.join ", " missing.

Definition _validateParams (ps : params) (required : list string) : result unit :=
  let missing := filter (λ key, ps !! key = None) required in
  if decide (0 < length missing) then Throw (missing_parameters missing)
  else Ok tt.

(** The failure envelope [{success: false, error, tool, params: {path, scope}}] *)
Record failure := {
  f_error : string;
  f_tool : string;
  f_path : jsval;
  f_scope : jsval
}.

(** What a tool call resolves to: the result of the operation (which
    carries [success: true] where the operation sets it), or the failure
    envelope. *)
Inductive envelope (A : Type) :=
  | Success (a : A)
  | Failure (f : failure).
Global Arguments Success {A} a.
Global Arguments Failure {A} f.

Module HostTools.

(** [try { return await op } catch (error) { return {success: false, ...} }] *)
Definition guarded {A} (tool : string) (path scope : jsval) (op : M A)
    : M (envelope A) :=
  try_catch (let* r := op in ret (Success r))
    (λ error, ret (Failure {| f_error := error; f_tool := tool;
                              f_path := path; f_scope := scope |})).

Definition writeFile (v : TaskVFS) (ps : params) : M (envelope VFS.write_result) :=
  lift (_validateParams ps ["path"; "content"]) ;;
  let path := param ps "path" in
  let content := param ps "content" in
  let scope := or_default (JStr "run") (param ps "scope") in
  let append := or_default (JBool false) (param ps "append") in
  guarded "writeFile" path scope
    (VFS.writeFile v path content scope (negb (falsy append))).

Definition readFile (v : TaskVFS) (ps : params) : M (envelope VFS.read_result) :=
  lift (_validateParams ps ["path"]) ;;
  let path := param ps "path" in
  let scope := or_default (JStr "auto") (param ps "scope") in
  guarded "readFile" path scope (VFS.readFile v path scope).

(** [result.files.push(...sub.files); result.directories.push(...sub.directories)] *)
Definition push_all (result sub : VFS.listing) : VFS.listing :=
  {| VFS.l_path := VFS.l_path result; VFS.l_scope := VFS.l_scope result;
     VFS.files := VFS.files result ++ VFS.files sub;
     VFS.directories := VFS.directories result ++ VFS.directories sub;
     VFS.total := VFS.total result |}.

Definition sub_params (dir : VFS.entry) (scope : jsval) : params :=
  <["path" := JStr (VFS.e_path dir)]>
    (<["scope" := scope]> (<["recursive" := JBool true]> ∅)).

(** The loop [for (const dir of result.directories)] of [listFiles]: it
    walks the array by position while the body appends to it, so it also
    reaches the directories appended on the way.  [self] is the recursive
    call [this.listFiles]; [None] means the bound [steps] was hit. *)
Fixpoint walk (self : params → M (option (envelope VFS.listing)))
    (scope : jsval) (steps i : nat) (result : VFS.listing)
    : M (option VFS.listing) :=
  match steps with
  | 0 => ret None
  | S steps' =>
      match VFS.directories result !! i with
      | None => ret (Some result)
      | Some dir =>
          let* subResult := self (sub_params dir scope) in
          match subResult with
          | None => ret None
          | Some (Success sub) =>
              walk self scope steps' (S i) (push_all result sub)
          | Some (Failure _) => walk self scope steps' (S i) result
          end
      end
  end.

(** [listFiles] calls itself on the directories it finds; the recursion
    and the loop are bounded by [fuel]. *)
Fixpoint listFiles (fuel : nat) (v : TaskVFS) (ps : params)
    : M (option (envelope VFS.listing)) :=
  match fuel with
  | 0 => ret None
  | S fuel' =>
      let path := or_default (JStr "/") (param ps "path") in
      let scope := or_default (JStr "run") (param ps "scope") in
      let recursive := or_default (JBool false) (param ps "recursive") in
      try_catch
        (let* result := VFS.listFiles v path scope in
         let* walked :=
           (if negb (falsy recursive)
               && bool_decide (0 < length (VFS.directories result))
            then walk (listFiles fuel' v) scope fuel' 0 result
            else ret (Some result)) in
         ret (Success <$> walked))
        (λ error, ret (Some (Failure {| f_error := error; f_tool := "listFiles";
                                        f_path := path; f_scope := scope |})))
  end.

Definition deleteFile (v : TaskVFS) (ps : params) : M (envelope VFS.delete_result) :=
  lift (_validateParams ps ["path"]) ;;
  let path := param ps "path" in
  let scope := or_default (JStr "run") (param ps "scope") in
  guarded "deleteFile" path scope (VFS.deleteFile v path scope).

Record exists_result := {
  ex_exists : bool;
  ex_path : jsval;
  ex_scope : jsval
}.

Definition fileExists (v : TaskVFS) (ps : params) : M (envelope exists_result) :=
  lift (_validateParams ps ["path"]) ;;
  let path := param ps "path" in
  let scope := or_default (JStr "run") (param ps "scope") in
  guarded "fileExists" path scope
    (let* found := VFS.exists_ v path scope in
     ret {| ex_exists := found; ex_path := path; ex_scope := scope |}).

Definition fileStat (v : TaskVFS) (ps : params) : M (envelope VFS.stat_result) :=
  lift (_validateParams ps ["path"]) ;;
  let path := param ps "path" in
  let scope := or_default (JStr "run") (param ps "scope") in
  guarded "fileStat" path scope (VFS.stat v path scope).

Definition mkdir (v : TaskVFS) (ps : params) : M (envelope VFS.mkdir_result) :=
  lift (_validateParams ps ["path"]) ;;
  let path := param ps "path" in
  let scope := or_default (JStr "run") (param ps "scope") in
  guarded "mkdir" path scope (VFS.mkdir v path scope).

(** A promise that has not settled yet, or was resolved with a value;
    resolving it again changes nothing. *)
Inductive promise (A : Type) :=
  | Pending
  | Fulfilled (a : A).
Global Arguments Pending {A}.
Global Arguments Fulfilled {A} a.

Definition resolve {A} (a : A) (p : promise A) : promise A :=
  match p with
  | Pending => Fulfilled a
  | Fulfilled _ => p
  end.

Record watch_result := {
  wt_event : VFS.watch_event;
  wt_path : jsval;
  wt_scope : jsval
}.

(** A call of [watchFile] either returns at once (the executor of the
    promise threw, and the envelope is returned), or stays suspended at
    its [await] on a pending promise that only the listener of the armed
    watcher can resolve.  The handle [watch] returned is dropped. *)
Inductive suspended (A : Type) :=
  | Returned (a : envelope A)
  | Awaiting (w : VFS.watcher (promise (envelope A))).
Global Arguments Returned {A} a.
Global Arguments Awaiting {A} w.

Definition watchFile (v : TaskVFS) (ps : params) : M (suspended watch_result) :=
  lift (_validateParams ps ["path"]) ;;
  let path := param ps "path" in
  let scope := or_default (JStr "run") (param ps "scope") in
  try_catch
    (let* w := VFS.watch v path scope
                 (λ event, resolve (Success {| wt_event := event;
                                               wt_path := path;
                                               wt_scope := scope |})) in
     ret (Awaiting w))
    (λ error, ret (Returned (Failure {| f_error := error; f_tool := "watchFile";
                                        f_path := path; f_scope := scope |}))).

(** The promise the call awaits, after the platform has reported the
    changes [changes] in turn *)
Definition settle {A} (w : VFS.watcher (promise A)) (changes : list (string * string))
    : promise A :=
  fold_left (λ p change, VFS.notify w change p) changes Pending.

(** The tools that declare required parameters, as registered in
    [this.tools] *)
Inductive tool :=
  | WriteFile
  | ReadFile
  | DeleteFile
  | FileExists
  | FileStat
  | Mkdir
  | WatchFile.

Definition tool_name (t : tool) : string :=
  match t with
  | WriteFile => "writeFile"
  | ReadFile => "readFile"
  | DeleteFile => "deleteFile"
  | FileExists => "fileExists"
  | FileStat => "fileStat"
  | Mkdir => "mkdir"
  | WatchFile => "watchFile"
  end.

Inductive tool_value :=
  | WriteValue (r : envelope VFS.write_result)
  | ReadValue (r : envelope VFS.read_result)
  | DeleteValue (r : envelope VFS.delete_result)
  | ExistsValue (r : envelope exists_result)
  | StatValue (r : envelope VFS.stat_result)
  | MkdirValue (r : envelope VFS.mkdir_result)
  | WatchValue (r : suspended watch_result).

(** [this.tools[name](params)] *)
Definition call (t : tool) (v : TaskVFS) (ps : params) : M tool_value :=
  match t with
  | WriteFile => let* r := writeFile v ps in ret (WriteValue r)
  | ReadFile => let* r := readFile v ps in ret (ReadValue r)
  | DeleteFile => let* r := deleteFile v ps in ret (DeleteValue r)
  | FileExists => let* r := fileExists v ps in ret (ExistsValue r)
  | FileStat => let* r := fileStat v ps in ret (StatValue r)
  | Mkdir => let* r := mkdir v ps in ret (MkdirValue r)
  | WatchFile => let* r := watchFile v ps in ret (WatchValue r)
  end.

(** What [vfsTree] returns: [{success: true, tree}] or
    [{success: false, error, tool: "vfsTree"}] *)
Inductive tree_value :=
  | TreeSuccess (tree : list VFS.tree_entry)
  | TreeFailure (error tool : string).

Definition vfsTree (fuel : nat) (v : TaskVFS) : M (option tree_value) :=
  try_catch
    (let* tree := VFS.getVFSTree fuel v in
     ret (TreeSuccess <$> tree))
    (λ error, ret (Some (TreeFailure error "vfsTree"))).

(** [Object.keys(this.tools)] *)
Definition tool_names : list string :=
  ["writeFile"; "readFile"; "listFiles"; "deleteFile"; "fileExists";
   "fileStat"; "mkdir"; "watchFile"; "vfsTree"].

(** What [this.tools[toolName]] is when it is truthy: the function
    registered under the name, or a member inherited from
    [Object.prototype]. *)
Inductive tool_handle :=
  | Registered (name : string)
  | InheritedMember (name : string).

Definition getTool (toolName : string) : result tool_handle :=
  if decide (toolName ∈ tool_names) then Ok (Registered toolName)
  else if decide (toolName ∈ VFS.object_prototype_keys)
  then Ok (InheritedMember toolName)
  else Throw ("Unknown host tool: " +:+ toolName +:+ ". Available: "
                +:+ JS.join ", " tool_names).

Definition descriptions : list (string * string) :=
  [("writeFile", "Write content to a file (params: path, content, scope?, encoding?, append?)");
   ("readFile", "Read content from a file (params: path, scope?, encoding?)");
   ("listFiles", "List files in a directory (params: path?, scope?, recursive?)");
   ("deleteFile", "Delete a file or directory (params: path, scope?)");
   ("fileExists", "Check if a file exists (params: path, scope?)");
   ("fileStat", "Get file metadata (params: path, scope?)");
   ("mkdir", "Create a directory (params: path, scope?)");
   ("watchFile", "Watch a file for changes (params: path, scope?)");
   ("vfsTree", "Get VFS directory tree (no params)")].

(** [descriptions[name] || 'No description available']: a text, or a member
    inherited from [Object.prototype] *)
Inductive description :=
  | Text (text : string)
  | InheritedDescription (name : string).

Definition _getToolDescription (name : string) : description :=
  match list_find (λ entry, entry.1 = name) descriptions with
  | Some (_, entry) => Text entry.2
  | None =>
      if decide (name ∈ VFS.object_prototype_keys) then InheritedDescription name
      else Text "No description available"
  end.

Definition getAvailableTools : list (string * description) :=
  map (λ name, (name, _getToolDescription name)) tool_names.

End HostTools.

(** ** Notions the properties are stated with *)

(** The three concrete scopes *)
Definition concrete_scopes : list string := ["run"; "task"; "global"].

(** The required keys a parameter object lacks *)
Definition absent (ps : params) (required : list string) : list string :=
  filter (λ key, ps !! key = None) required.

(** The required parameters of each tool, as the table of the tool call
    contract lists them *)
Definition required (t : HostTools.tool) : list string :=
  match t with
  | HostTools.WriteFile => ["path"; "content"]
  | _ => ["path"]
  end.

(** The failure envelope a tool value is, if it is one *)
Definition failure_of (val : HostTools.tool_value) : option failure :=
  let of_envelope {A} (e : envelope A) :=
    match e with Failure f => Some f | Success _ => None end in
  match val with
  | HostTools.WriteValue r => of_envelope r
  | HostTools.ReadValue r => of_envelope r
  | HostTools.DeleteValue r => of_envelope r
  | HostTools.ExistsValue r => of_envelope r
  | HostTools.StatValue r => of_envelope r
  | HostTools.MkdirValue r => of_envelope r
  | HostTools.WatchValue (HostTools.Returned r) => of_envelope r
  | HostTools.WatchValue (HostTools.Awaiting _) => None
  end.

(** The value a call of tool [t] resolves to when it fails with [f] *)
Definition failure_value (t : HostTools.tool) (f : failure) : HostTools.tool_value :=
  match t with
  | HostTools.WriteFile => HostTools.WriteValue (Failure f)
  | HostTools.ReadFile => HostTools.ReadValue (Failure f)
  | HostTools.DeleteFile => HostTools.DeleteValue (Failure f)
  | HostTools.FileExists => HostTools.ExistsValue (Failure f)
  | HostTools.FileStat => HostTools.StatValue (Failure f)
  | HostTools.Mkdir => HostTools.MkdirValue (Failure f)
  | HostTools.WatchFile => HostTools.WatchValue (HostTools.Returned (Failure f))
  end.

(** The bytes a write of [content] stores: the content itself for a string
    or a buffer, its serialisation for a structured value *)
Definition written (content : jsval) : result string :=
  VFS.file_data
    (if VFS.is_plain_object content then JStr (VFS.stringify content) else content).

(** An effectful computation that leaves the state as it found it *)
Definition read_only {A} (m : M A) : Prop := ∀ st, (m st).2 = st.

(** The directory [dir] has been listed by [self], and what the listing
    found is part of [res]. *)
Definition covered (self : params → M (option (envelope VFS.listing)))
    (scope : jsval) (st : state) (res : VFS.listing) (dir : VFS.entry) : Prop :=
  ∃ sub, self (HostTools.sub_params dir scope) st = (Ok (Some sub), st)
    ∧ ∀ found, sub = Success found →
        VFS.files found ⊆ VFS.files res
        ∧ VFS.directories found ⊆ VFS.directories res.

(** A segment: a string without separator *)
Definition plain (s : string) : Prop := JS.split s = [s].

(** The segments kept by normalisation (last first) are settled: they are
    segments, none is empty or ["."], and normalising them again keeps them
    as they are. *)
Definition settled (allowAboveRoot : bool) (kept : list string) : Prop :=
  Forall plain kept
  ∧ Forall (λ s, s ≠ "" ∧ s ≠ ".") kept
  ∧ fold_left (Path.step allowAboveRoot) (rev kept) [] = kept.

(** The path string [path.normalize] assembles from the segments it kept *)
Definition render (isAbsolute trailingSeparator : bool) (kept : list string)
    : string :=
  let res := JS.join "/" (rev kept) in
  if decide (res = "") then
    (if isAbsolute then "/" else if trailingSeparator then "./" else ".")
  else
    (if isAbsolute then "/" else "") +:+ res
      +:+ (if trailingSeparator then "/" else "").

(** A string made of dots and separators only *)
Fixpoint dotty (s : string) : bool :=
  match s with
  | EmptyString => true
  | String c rest =>
      (bool_decide (c = "."%char) || bool_decide (c = "/"%char)) && dotty rest
  end.

(** A computation that keeps the aspect [f] of the state *)
Definition preserves {A B} (f : state → B) (m : M A) : Prop :=
  ∀ st, f (m st).2 = f st.

(** A computation that publishes the event [ev a] when it returns [a], and
    nothing when it throws *)
Definition publishes {A} (ev : A → emitted_event) (m : M A) : Prop :=
  ∀ st, match m st with
        | (Ok a, st') => emitted st' = emitted st ++ [ev a]
        | (Throw _, st') => emitted st' = emitted st
        end.

Definition write_event (r : VFS.write_result) : emitted_event :=
  {| ev_name := "file:write"; ev_path := VFS.wr_path r;
     ev_scope := VFS.wr_scope r; ev_fullPath := VFS.wr_fullPath r;
     ev_size := Some (VFS.wr_size r) |}.

Definition read_event (r : VFS.read_result) : emitted_event :=
  {| ev_name := "file:read"; ev_path := VFS.rd_path r;
     ev_scope := VFS.rd_scope r; ev_fullPath := VFS.rd_fullPath r;
     ev_size := Some (VFS.rd_size r) |}.

(** What an append adds to a file: the text of the content, after a
    structured value has been serialised *)
Definition appended (content : jsval) : string :=
  toString (if VFS.is_plain_object content then JStr (VFS.stringify content)
            else content).

(** A computation that maintains the property [P] of the state, whether it
    returns or throws *)
Definition maintains {A} (P : state → Prop) (m : M A) : Prop :=
  ∀ st, P st → P (m st).2.

(** The entry [n] at [k] is in place, and the working directory is where
    it was in [st0]. *)
Definition in_place (st0 : state) (k : list string) (n : node) (st : state)
    : Prop :=
  cwd st = cwd st0 ∧ nodes st !! k = Some n.

(** The loop of [_ensureDirectories], over any list of directories *)
Definition ensure (dirs : list string) : M unit :=
  foldr (λ dir rest,
           (let* found := Disk.existsSync dir in
            if found then ret tt else Disk.mkdir_recursive dir) ;;
           rest)
    (ret tt) dirs.

(** A proper name: a segment that is neither empty nor ["."] nor [".."] *)
Definition proper (s : string) : Prop :=
  plain s ∧ s ≠ "" ∧ s ≠ "." ∧ s ≠ "..".

(** A path as normalisation leaves it, without trailing separator and
    not ending in [".."] *)
Definition canonical (p : string) : Prop :=
  ∃ abs x rest,
    p = render abs false (x :: rest)
    ∧ settled (negb abs) (x :: rest)
    ∧ x ≠ "..".

(** Every entry of the disk sits at a list of proper names. *)
Definition well_formed (st : state) : Prop :=
  ∀ k n, nodes st !! k = Some n → Forall proper k.

(** Every entry but the root sits in a directory. *)
Definition tree_shaped (st : state) : Prop :=
  ∀ k n, nodes st !! k = Some n → k ≠ [] → nodes st !! Disk.parent k = Some Dir.

(** The entries [readdir] reports for the directory at [k] *)
Definition children (st : state) (k : list string) : list Disk.dirent :=
  omap (Disk.child_of k) (map_to_list (nodes st)).

(** The size [stat] reports for a node *)
Definition size_of (st : state) (n : node) : nat :=
  match n with File data => String.length data | Dir => dirSize st end.

(** The item [listFiles] builds for a directory entry *)
Definition listed (dirpath fullPath : string) (scope : jsval) (st : state)
    (d : Disk.dirent) : VFS.entry :=
  {| VFS.e_name := Disk.name d;
     VFS.e_path := Path.join [dirpath; Disk.name d];
     VFS.e_scope := scope;
     VFS.e_size :=
       match nodes st !! (Disk.locate st fullPath ++ [Disk.name d]) with
       | Some n => size_of st n
       | None => 0
       end;
     VFS.e_fullPath := Path.join [fullPath; Disk.name d] |}.

Global Instance proper_dec s : Decision (proper s).
Proof. unfold proper, plain. apply _. Defined.

(** The disk is a tree of properly named entries, and the working
    directory is a list of segments. *)
Definition sound (st : state) : Prop :=
  Forall plain (cwd st) ∧ well_formed st ∧ tree_shaped st.

(** What an entry adds to the bytes at or below [k] *)
Definition bytes_at (k : list string) (kn : list string * node) : nat :=
  match kn.2 with
  | File data => if decide (k `prefix_of` kn.1) then String.length data else 0
  | Dir => 0
  end.

(** The bytes of the regular files at or below [k] *)
Definition bytes_below (st : state) (k : list string) : nat :=
  sum_list_with (bytes_at k) (map_to_list (nodes st)).

(** The length of the longest path on the disk *)
Definition depth (st : state) : nat :=
  max_list_with (λ kn : list string * node, length kn.1) (map_to_list (nodes st)).

(** The entry of the tree for one scope *)
Definition tree_entry_of (st : state) (scope : string * string) : VFS.tree_entry :=
  {| VFS.t_scope := scope.1; VFS.t_path := scope.2;
     VFS.t_exists := bool_decide (is_Some (Disk.lookup st scope.2));
     VFS.t_size := bytes_below st (Disk.locate st scope.2) |}.

(** The state is sound, and the entry [n] at [k] is in place. *)
Definition untouched (st0 : state) (k : list string) (n : node) (st : state)
    : Prop :=
  sound st ∧ in_place st0 k n st.

(** A destination at or below the directory [e] *)
Definition below (st0 : state) (e : list string) (dest : string) : Prop :=
  dest ≠ "" ∧ e `prefix_of` Disk.locate st0 dest.

(** The directory [exportToOSjs] exports to *)
Definition export_path (v : TaskVFS) (osJsVFSPath : string) : string :=
  Path.join [osJsVFSPath; "tasks"; VFS.taskId v].

(** Neither path leads into the other. *)
Definition unrelated (a b : list string) : Prop :=
  ¬ a `prefix_of` b ∧ ¬ b `prefix_of` a.

(** [st'] is [st] with the tree at [ks] copied to [kd]. *)
Definition copied (st st' : state) (ks kd : list string) : Prop :=
  cwd st' = cwd st
  ∧ (∀ rel, nodes st' !! (kd ++ rel) = nodes st !! (ks ++ rel))
  ∧ (∀ k, ¬ kd `prefix_of` k → nodes st' !! k = nodes st !! k).

(** In [st'] the directory at [kd] holds copies of the children of [ks]
    named in [names], with all that is below them, and nothing else. *)
Definition copying (st st' : state) (ks kd : list string) (names : list string)
    : Prop :=
  cwd st' = cwd st
  ∧ nodes st' !! kd = Some Dir
  ∧ (∀ name rel,
       nodes st' !! (kd ++ name :: rel)
       = if decide (name ∈ names) then nodes st !! (ks ++ name :: rel) else None)
  ∧ (∀ k, ¬ kd `prefix_of` k → nodes st' !! k = nodes st !! k).

(** What a call [_copyDirectory(src, dest)] needs in order to go through
    within [fuel] nested calls: the source is a directory, source and
    destination do not overlap, nothing is at the destination yet, and the
    directory the destination is to sit in exists. *)
Definition ready (fuel : nat) (src dest : string) (st : state) : Prop :=
  sound st ∧ src ≠ "" ∧ dest ≠ ""
  ∧ nodes st !! Disk.locate st src = Some Dir
  ∧ unrelated (Disk.locate st src) (Disk.locate st dest)
  ∧ (∀ k, Disk.locate st dest `prefix_of` k → nodes st !! k = None)
  ∧ (∀ q, q `prefix_of` Disk.locate st dest → q ≠ Disk.locate st dest →
          nodes st !! q = Some Dir)
  ∧ (∀ k n, nodes st !! k = Some n → Disk.locate st src `prefix_of` k →
            length k < fuel + length (Disk.locate st src)).

(** In [st] the scopes in [done] have been copied below the export
    directory [e] of [st1], and nothing else has changed. *)
Definition exporting (st1 st : state) (e : list string)
    (done : list (string * string)) : Prop :=
  cwd st = cwd st1
  ∧ (∀ sc rel, sc ∈ done →
       nodes st !! (e ++ sc.1 :: rel) = nodes st1 !! (Disk.locate st1 sc.2 ++ rel))
  ∧ (∀ k, (∀ sc, sc ∈ done → ¬ e ++ [sc.1] `prefix_of` k) →
          nodes st !! k = nodes st1 !! k).

(** The segments of a path that count: neither empty nor ["."] *)
Definition path_steps (p : string) : list string :=
  filter (λ seg, ¬ (seg = "" ∨ seg = ".")) (JS.split p).

(** What is at [k] is what was there in [st0] (an entry or nothing). *)
Definition kept_at (st0 : state) (k : list string) (st : state) : Prop :=
  cwd st = cwd st0 ∧ nodes st !! k = nodes st0 !! k.

(** The names that lead from the ecosystem directory to the root of a
    scope *)
Definition scope_names (v : TaskVFS) (s : string) : list string :=
  if decide (s = "run") then ["tasks"; VFS.taskId v; "runs"; VFS.runId v; "fs"]
  else if decide (s = "task") then ["tasks"; VFS.taskId v; "fs"]
  else ["vfs"; "global"].

(** The directory item [d] can be listed in turn: its logical path has no
    [..] segment and resolves to its resolved path, where a directory is. *)
Definition listable (v : TaskVFS) (scope : jsval) (st : state) (d : VFS.entry)
    : Prop :=
  (".." ∉ JS.split (VFS.e_path d))
  ∧ VFS._resolvePath v (JStr (VFS.e_path d)) scope = Ok (VFS.e_fullPath d)
  ∧ nodes st !! Disk.locate st (VFS.e_fullPath d) = Some Dir.

(** A directory item at or below [K], deeper than level [L], that can be
    listed in turn *)
Definition below_level (v : TaskVFS) (scope : jsval) (st : state)
    (K : list string) (L : nat) (d : VFS.entry) : Prop :=
  listable v scope st d
  ∧ K `prefix_of` Disk.locate st (VFS.e_fullPath d)
  ∧ L < length (Disk.locate st (VFS.e_fullPath d)).

(** [result] with [fs] and [ds] pushed to its two arrays *)
Definition extended (result : VFS.listing) (fs ds : list VFS.entry) : VFS.listing :=
  {| VFS.l_path := VFS.l_path result; VFS.l_scope := VFS.l_scope result;
     VFS.files := VFS.files result ++ fs;
     VFS.directories := VFS.directories result ++ ds;
     VFS.total := VFS.total result |}.

(** [needle] occurs in [text] *)
Definition mentions (text needle : string) : Prop :=
  ∃ before after, text = before +:+ needle +:+ after.

(** What probing one scope for a logical path comes to: a regular file
    that can be read, nothing there, or a failure (the path does not
    resolve in the scope, or what is there cannot be read as a file). *)
Inductive probe_result :=
  | Hit (fullPath data : string)
  | Miss
  | Failed (e : string).

Definition probe (v : TaskVFS) (st : state) (filepath s : jsval) : probe_result :=
  match VFS._resolvePath v filepath s with
  | Throw e => Failed e
  | Ok fullPath =>
      match Disk.lookup st fullPath with
      | Some (File data) => Hit fullPath data
      | Some Dir => Failed "EISDIR"
      | None => Miss
      end
  end.

(** The reason recorded for a scope that did not yield the file *)
Definition reason (s : jsval) (r : probe_result) : string :=
  match r with
  | Failed e => toString s +:+ ": " +:+ e
  | _ => "Not found in " +:+ toString s +:+ " scope"
  end.

(** A successful read of [data] found at [fullPath] in scope [s] *)
Definition read_hit (filepath s : jsval) (fullPath data : string) (st : state)
    : result VFS.read_result * state :=
  (Ok {| VFS.rd_content := data; VFS.rd_path := filepath; VFS.rd_scope := s;
         VFS.rd_size := String.length data; VFS.rd_fullPath := fullPath |},
   emit {| ev_name := "file:read"; ev_path := filepath; ev_scope := s;
           ev_fullPath := fullPath; ev_size := Some (String.length data) |} st).

(** The first scope of [ss] in which the path is a readable file, or the
    reasons why there is none *)
Fixpoint first_readable (v : TaskVFS) (st : state) (filepath : jsval)
    (ss : list jsval) (reasons : list string) : result VFS.read_result * state :=
  match ss with
  | [] => (Throw ("File not found: " +:+ toString filepath +:+ ". Searched: "
                    +:+ JS.join ", " reasons), st)
  | s :: rest =>
      match probe v st filepath s with
      | Hit fullPath data => read_hit filepath s fullPath data st
      | r => first_readable v st filepath rest (reasons ++ [reason s r])
      end
  end.

(** The scope a tool call works in: the [scope] parameter, or the default
    of the tool *)
Definition scope_of (t : HostTools.tool) (ps : params) : jsval :=
  or_default (match t with HostTools.ReadFile => JStr "auto" | _ => JStr "run" end)
    (param ps "scope").

(** The scope of the call is one the tool recognises. *)
Definition scope_accepted (t : HostTools.tool) (ps : params) : Prop :=
  (t = HostTools.ReadFile ∧ scope_of t ps = JStr "auto")
  ∨ toString (scope_of t ps) ∈ concrete_scopes.

(** The error of the failure envelope for a blank path *)
Definition blank_path_error (t : HostTools.tool) (path : string) (scope : jsval)
    : string :=
  match t with
  | HostTools.WriteFile => "Failed to write file " +:+ path +:+ ": " +:+ VFS.empty_path
  | HostTools.ReadFile =>
      if decide (scope = JStr "auto") then
        "File not found: " +:+ path +:+ ". Searched: run: " +:+ VFS.empty_path
          +:+ ", task: " +:+ VFS.empty_path +:+ ", global: " +:+ VFS.empty_path
      else "Failed to read file " +:+ path +:+ ": " +:+ VFS.empty_path
  | HostTools.DeleteFile => "Failed to delete " +:+ path +:+ ": " +:+ VFS.empty_path
  | HostTools.FileExists => ""
  | HostTools.FileStat => "Failed to stat " +:+ path +:+ ": " +:+ VFS.empty_path
  | HostTools.Mkdir =>
      "Failed to create directory " +:+ path +:+ ": " +:+ VFS.empty_path
  | HostTools.WatchFile => "Failed to watch " +:+ path +:+ ": " +:+ VFS.empty_path
  end.

(** A string of white space only (the empty string included) *)
Fixpoint all_space (s : string) : bool :=
  match s with
  | EmptyString => true
  | String c rest => Ascii.is_space c && all_space rest
  end.

(** A small world to run the code in: ecosystem [/eco], task [t1], run
    [r1], with the three scope roots in place. *)
Module Fixture.

Definition vfs : TaskVFS :=
  {| VFS.ecosystemPath := "/eco"; VFS.taskId := "t1"; VFS.runId := "r1" |}.

Definition run_root : list string := ["eco"; "tasks"; "t1"; "runs"; "r1"; "fs"].
Definition task_root : list string := ["eco"; "tasks"; "t1"; "fs"].
Definition global_root : list string := ["eco"; "vfs"; "global"].

Definition make_dirs (ks : list (list string)) (m : gmap (list string) node)
    : gmap (list string) node :=
  foldr (λ k, <[k := Dir]>) m (ks ≫= Disk.ancestors).

(** A disk with nothing on it but the root directory *)
Definition blank : state :=
  {| cwd := ["home"]; dirSize := 4096; nodes := {[ [] := Dir ]}; emitted := [] |}.

(** The state right after [new TaskVFS("/eco", "t1", "r1")] on the blank
    disk *)
Definition fresh : state :=
  {| cwd := ["home"]; dirSize := 4096;
     nodes := make_dirs [run_root; task_root; global_root] ∅;
     emitted := [] |}.

Definition object (fields : list (string * jsval)) : params :=
  list_to_map fields.

Definition with_node (k : list string) (n : node) (st : state) : state :=
  with_nodes <[k := n]> st.

(** The run scope holds one directory, [sub], with one file in it. *)
Definition nested : state :=
  with_node (run_root ++ ["sub"; "f.txt"]) (File "hello")
    (with_node (run_root ++ ["sub"]) Dir fresh).

(** The run scope holds [sub], which holds [deep], which holds one file. *)
Definition two_levels : state :=
  with_node (run_root ++ ["sub"; "deep"; "g.txt"]) (File "deep")
    (with_node (run_root ++ ["sub"; "deep"]) Dir
       (with_node (run_root ++ ["sub"]) Dir fresh)).

(** [{path: "/", scope: "run", recursive: true}] *)
Definition list_all : params :=
  object [("path", JStr "/"); ("scope", JStr "run"); ("recursive", JBool true)].

Definition nested_file : VFS.entry :=
  {| VFS.e_name := "f.txt"; VFS.e_path := "/sub/f.txt";
     VFS.e_scope := JStr "run"; VFS.e_size := 5;
     VFS.e_fullPath := "/eco/tasks/t1/runs/r1/fs/sub/f.txt" |}.

Definition nested_directory : VFS.entry :=
  {| VFS.e_name := "sub"; VFS.e_path := "/sub";
     VFS.e_scope := JStr "run"; VFS.e_size := 4096;
     VFS.e_fullPath := "/eco/tasks/t1/runs/r1/fs/sub" |}.

(** The logical path [x] is a directory in the run scope and a file in
    the global scope. *)
Definition shadowed : state :=
  with_node (run_root ++ ["x"]) Dir
    (with_node (global_root ++ ["x"]) (File "g") fresh).

End Fixture.

(** * Properties *)

Example fresh_constructed :
  VFS._ensureDirectories Fixture.vfs Fixture.blank = (Ok tt, Fixture.fresh).
Proof. reflexivity. Qed.

Example nested_written :
  nodes (VFS.writeFile Fixture.vfs (JStr "sub/f.txt") (JStr "hello") (JStr "run")
           false Fixture.fresh).2 = nodes Fixture.nested.
Proof. apply map_to_list_inj. vm_compute. reflexivity. Qed.

Example join_ex1 : Path.join ["/eco"; "tasks"; "t1"; "fs"] = "/eco/tasks/t1/fs".
Proof. vm_compute. reflexivity. Qed.
Example join_ex2 : Path.join ["/eco/fs"; "a/../b/./c//d/"] = "/eco/fs/b/c/d/".
Proof. vm_compute. reflexivity. Qed.
Example join_ex3 : Path.join ["eco/fs"; "../../../x"] = "../x".
Proof. vm_compute. reflexivity. Qed.
Example join_ex4 : Path.join ["/eco/fs"; "../../../x"] = "/x".
Proof. vm_compute. reflexivity. Qed.
Example join_ex5 : Path.join ["/eco/fs"; ""] = "/eco/fs".
Proof. vm_compute. reflexivity. Qed.
Example trim_ex : JS.trim "  a b  " = "a b".
Proof. vm_compute. reflexivity. Qed.
Example dirname_ex1 : Path.dirname "/a/b" = "/a". Proof. vm_compute. reflexivity. Qed.
Example dirname_ex2 : Path.dirname "/a" = "/". Proof. vm_compute. reflexivity. Qed.
Example dirname_ex3 : Path.dirname "a/b/" = "a". Proof. vm_compute. reflexivity. Qed.
Example dirname_ex4 : Path.dirname "a" = ".". Proof. vm_compute. reflexivity. Qed.
Example dirname_ex5 : Path.dirname "a//b" = "a/". Proof. vm_compute. reflexivity. Qed.

(** ** Reasoning about the monad *)

Lemma concrete_scopes_iff s :
  s ∈ concrete_scopes ↔ s = "run" ∨ s = "task" ∨ s = "global".
Proof. unfold concrete_scopes. rewrite !elem_of_cons, elem_of_nil. tauto. Qed.

Ltac not_concrete H :=
  apply concrete_scopes_iff in H; destruct H as [H|[H|H]]; discriminate H.

Lemma bind_ok {A B} (m : M A) (k : A → M B) st a st' :
  m st = (Ok a, st') → bind m k st = k a st'.
Proof. intros H. unfold bind. by rewrite H. Qed.

Lemma bind_throw {A B} (m : M A) (k : A → M B) st e st' :
  m st = (Throw e, st') → bind m k st = (Throw e, st').
Proof. intros H. unfold bind. by rewrite H. Qed.

Lemma try_catch_ok {A} (m : M A) h st a st' :
  m st = (Ok a, st') → try_catch m h st = (Ok a, st').
Proof. intros H. unfold try_catch. by rewrite H. Qed.

Lemma try_catch_throw {A} (m : M A) h st e st' :
  m st = (Throw e, st') → try_catch m h st = h e st'.
Proof. intros H. unfold try_catch. by rewrite H. Qed.

(** ** Parameter validation *)

Lemma elem_of_absent ps required key :
  key ∈ absent ps required ↔ key ∈ required ∧ ps !! key = None.
Proof. unfold absent. rewrite list_elem_of_filter. tauto. Qed.

Lemma validate_missing ps required :
  absent ps required ≠ [] →
  _validateParams ps required = Throw (missing_parameters (absent ps required)).
Proof.
  intros Hne. unfold _validateParams. fold (absent ps required).
  destruct (absent ps required) as [|k ks]; [done|].
  case_decide as Hlen; [done|]. simpl in Hlen. lia.
Qed.

Lemma validate_present ps required :
  absent ps required = [] → _validateParams ps required = Ok tt.
Proof.
  intros He. unfold _validateParams. fold (absent ps required). rewrite He.
  case_decide as Hlen; [simpl in Hlen; lia|done].
Qed.

Lemma absent_path_present ps :
  is_Some (ps !! "path") → absent ps ["path"] = [].
Proof.
  intros [x Hx]. unfold absent. rewrite filter_cons, filter_nil.
  case_decide as H; [congruence|done].
Qed.

Lemma call_validation_fails t v ps st :
  absent ps (required t) ≠ [] →
  HostTools.call t v ps st
  = (Throw (missing_parameters (absent ps (required t))), st).
Proof.
  intros Hne. apply validate_missing in Hne.
  destruct t; simpl in *;
    unfold HostTools.writeFile, HostTools.readFile, HostTools.deleteFile,
      HostTools.fileExists, HostTools.fileStat, HostTools.mkdir,
      HostTools.watchFile;
    unfold bind at 1; unfold bind at 1; unfold lift; by rewrite Hne.
Qed.

(** C3, as stated, fails: [writeFile({content: "x"})] does not resolve to a
    failure envelope, the call rejects with the validation error. *)
Lemma writeFile_without_path_rejects :
  (HostTools.writeFile Fixture.vfs (Fixture.object [("content", JStr "x")])
     Fixture.fresh).1 = Throw "Missing required parameters: path"
  ∧ ¬ ∃ f, (HostTools.writeFile Fixture.vfs
              (Fixture.object [("content", JStr "x")]) Fixture.fresh).1
           = Ok (Failure f).
Proof.
  assert ((HostTools.writeFile Fixture.vfs
             (Fixture.object [("content", JStr "x")]) Fixture.fresh).1
          = Throw "Missing required parameters: path") as E
    by (vm_compute; reflexivity).
  split; [exact E|]. intros [f Hf]. rewrite E in Hf. discriminate.
Qed.

(** C3 (amended): a call of a tool that lacks one or more of its required
    parameters is rejected, before anything is done, with the error
    "Missing required parameters: " followed by every absent key, in the
    order of declaration and separated by ", "; the error is thrown to the
    caller, it is not wrapped in a failure envelope. *)
Theorem missing_parameters_thrown t v ps st :
  absent ps (required t) ≠ [] →
  HostTools.call t v ps st
  = (Throw ("Missing required parameters: "
              +:+ JS.join ", " (absent ps (required t))), st)
  ∧ (∀ key, key ∈ absent ps (required t)
            ↔ key ∈ required t ∧ ps !! key = None)
  ∧ ∀ val, (HostTools.call t v ps st).1 ≠ Ok val.
Proof.
  intros Hne. pose proof (call_validation_fails t v ps st Hne) as E.
  split; [exact E|]. split; [intros key; apply elem_of_absent|].
  intros val. rewrite E. discriminate.
Qed.

Lemma missing_parameters_thrown_witness :
  HostTools.call HostTools.WriteFile Fixture.vfs (Fixture.object []) Fixture.fresh
  = (Throw "Missing required parameters: path, content", Fixture.fresh).
Proof.
  pose proof (missing_parameters_thrown HostTools.WriteFile Fixture.vfs
                (Fixture.object []) Fixture.fresh) as H.
  destruct H as [H _]; [vm_compute; discriminate|].
  rewrite H. vm_compute. reflexivity.
Defined.

(** ** [exists] and [fileExists] *)

Lemma or_default_idemp d s : or_default d (or_default d s) = or_default d s.
Proof. by destruct s, d. Qed.

Lemma resolvePath_default v filepath scope :
  VFS._resolvePath v filepath (or_default (JStr "run") scope)
  = VFS._resolvePath v filepath scope.
Proof. unfold VFS._resolvePath. by rewrite or_default_idemp. Qed.

Lemma exists_spec v filepath scope st :
  VFS.exists_ v filepath scope st
  = (Ok match VFS._resolvePath v filepath scope with
        | Ok fullPath => bool_decide (is_Some (Disk.lookup st fullPath))
        | Throw _ => false
        end, st).
Proof.
  unfold VFS.exists_, try_catch, bind, lift. rewrite resolvePath_default.
  by destruct (VFS._resolvePath v filepath scope).
Qed.

(** C5, as stated, fails: without a [path] parameter [fileExists] does not
    return [{success: true, ...}], the call rejects. *)
Lemma fileExists_without_path_rejects :
  (HostTools.fileExists Fixture.vfs (Fixture.object []) Fixture.fresh).1
  = Throw "Missing required parameters: path"
  ∧ ¬ ∃ r, (HostTools.fileExists Fixture.vfs (Fixture.object [])
              Fixture.fresh).1 = Ok (Success r).
Proof.
  assert ((HostTools.fileExists Fixture.vfs (Fixture.object [])
             Fixture.fresh).1 = Throw "Missing required parameters: path") as E
    by (vm_compute; reflexivity).
  split; [exact E|]. intros [r Hr]. rewrite E in Hr. discriminate.
Qed.

(** C5 (amended): [exists] returns a boolean and never throws, whatever the
    path and the scope are: when the path does not resolve (invalid scope,
    traversal, empty path, a path that is no string) the answer is [false].
    The [fileExists] tool, called with a [path] parameter, never fails
    either and returns [{success: true, exists, path, scope}] without
    touching the state; called without one it rejects (see C3). *)
Theorem exists_never_throws v ps st :
  is_Some (ps !! "path") →
  (∀ filepath scope, ∃ b : bool,
      VFS.exists_ v filepath scope st = (Ok b, st)
      ∧ (∀ e, VFS._resolvePath v filepath scope = Throw e → b = false))
  ∧ ∃ found : bool,
      VFS.exists_ v (param ps "path") (param ps "scope") st = (Ok found, st)
      ∧ HostTools.fileExists v ps st
        = (Ok (Success {| HostTools.ex_exists := found;
                          HostTools.ex_path := param ps "path";
                          HostTools.ex_scope :=
                            or_default (JStr "run") (param ps "scope") |}), st).
Proof.
  intros Hpath. split.
  - intros filepath scope. eexists. split; [apply exists_spec|].
    intros e He. by rewrite He.
  - pose proof (exists_spec v (param ps "path") (param ps "scope") st) as E.
    eexists. split; [exact E|].
    unfold HostTools.fileExists.
    rewrite (bind_ok _ _ st tt st)
      by (unfold lift; by rewrite validate_present by by apply absent_path_present).
    unfold HostTools.guarded.
    pose proof (exists_spec v (param ps "path")
                  (or_default (JStr "run") (param ps "scope")) st) as E'.
    rewrite resolvePath_default in E'.
    erewrite try_catch_ok; [reflexivity|].
    erewrite bind_ok; [reflexivity|].
    erewrite bind_ok; [reflexivity|exact E'].
Qed.

Lemma exists_never_throws_witness :
  HostTools.fileExists Fixture.vfs
    (Fixture.object [("path", JStr "../../escape"); ("scope", JStr "task")])
    Fixture.fresh
  = (Ok (Success {| HostTools.ex_exists := false;
                    HostTools.ex_path := JStr "../../escape";
                    HostTools.ex_scope := JStr "task" |}), Fixture.fresh).
Proof.
  destruct (exists_never_throws Fixture.vfs
              (Fixture.object [("path", JStr "../../escape");
                               ("scope", JStr "task")]) Fixture.fresh
              (mk_is_Some _ _ eq_refl))
    as (_ & found & Hfound & Htool).
  rewrite Htool. f_equal. f_equal. f_equal.
  assert (Ok found = Ok false) as [= ->]; [|reflexivity].
  transitivity ((VFS.exists_ Fixture.vfs (JStr "../../escape") (JStr "task")
                   Fixture.fresh).1).
  - change (param _ "path") with (JStr "../../escape") in Hfound.
    change (param _ "scope") with (JStr "task") in Hfound.
    by rewrite Hfound.
  - vm_compute. reflexivity.
Defined.

(** ** [readFile] *)

Lemma existsSync_spec p st :
  Disk.existsSync p st = (Ok (bool_decide (is_Some (Disk.lookup st p))), st).
Proof. reflexivity. Qed.

Lemma readFile_try_spec v filepath s errors st :
  VFS.readFile_try v filepath s errors st
  = match probe v st filepath s with
    | Hit fullPath data =>
        let r := read_hit filepath s fullPath data st in
        (match r.1 with Ok x => Ok (VFS.Return x) | Throw e => Throw e end, r.2)
    | Miss => (Ok (VFS.Continue (errors ++ [reason s Miss])), st)
    | Failed e => (Throw e, st)
    end.
Proof.
  unfold VFS.readFile_try, probe, bind, lift.
  destruct (VFS._resolvePath v filepath s) as [fullPath|e]; [|done].
  rewrite existsSync_spec. unfold Disk.readFile, Disk.stat, modify, ret.
  destruct (Disk.lookup st fullPath) as [[data|]|] eqn:E; simpl;
    rewrite ?E; simpl; rewrite ?E; done.
Qed.

Lemma readFile_loop_auto v filepath st ss reasons :
  VFS.readFile_loop v filepath (JStr "auto") ss reasons st
  = first_readable v st filepath ss reasons.
Proof.
  revert reasons. induction ss as [|s rest IH]; intros reasons; [done|].
  simpl. unfold bind at 1, try_catch. rewrite readFile_try_spec.
  destruct (probe v st filepath s) as [fullPath data| |e]; simpl; done.
Qed.

Lemma readFile_concrete v filepath scope st :
  or_default (JStr "run") scope ≠ JStr "auto" →
  VFS.readFile v filepath scope st
  = let s := or_default (JStr "run") scope in
    match probe v st filepath s with
    | Hit fullPath data => read_hit filepath s fullPath data st
    | Miss => (Throw ("File not found: " +:+ toString filepath
                        +:+ ". Searched: " +:+ reason s Miss), st)
    | Failed e => (Throw ("Failed to read file " +:+ toString filepath
                            +:+ ": " +:+ e), st)
    end.
Proof.
  intros Hs. unfold VFS.readFile. rewrite decide_False by done. simpl.
  unfold bind at 1, try_catch. rewrite readFile_try_spec.
  destruct (probe v st filepath _) as [fullPath data| |e]; simpl; try done.
  by rewrite decide_True.
Qed.

(** C2, as stated, fails: the logical path [x] exists in the run scope (as a
    directory) and in the global scope (as a file), and the automatic read
    returns the global copy. *)
Lemma readFile_auto_skips_directory :
  (VFS.exists_ Fixture.vfs (JStr "x") (JStr "run") Fixture.shadowed).1 = Ok true
  ∧ (VFS.exists_ Fixture.vfs (JStr "x") (JStr "global") Fixture.shadowed).1 = Ok true
  ∧ (VFS.readFile Fixture.vfs (JStr "x") (JStr "auto") Fixture.shadowed).1
    = Ok {| VFS.rd_content := "g"; VFS.rd_path := JStr "x";
            VFS.rd_scope := JStr "global"; VFS.rd_size := 1;
            VFS.rd_fullPath := "/eco/vfs/global/x" |}.
Proof. repeat split; vm_compute; reflexivity. Qed.

Lemma readFile_auto v filepath st :
  VFS.readFile v filepath (JStr "auto") st
  = match probe v st filepath (JStr "run"),
          probe v st filepath (JStr "task"),
          probe v st filepath (JStr "global") with
    | Hit fullPath data, _, _ => read_hit filepath (JStr "run") fullPath data st
    | _, Hit fullPath data, _ => read_hit filepath (JStr "task") fullPath data st
    | _, _, Hit fullPath data => read_hit filepath (JStr "global") fullPath data st
    | r1, r2, r3 =>
        (Throw ("File not found: " +:+ toString filepath +:+ ". Searched: "
                  +:+ reason (JStr "run") r1 +:+ ", "
                  +:+ reason (JStr "task") r2 +:+ ", "
                  +:+ reason (JStr "global") r3), st)
    end.
Proof.
  unfold VFS.readFile. cbn [or_default]. rewrite decide_True by done.
  rewrite readFile_loop_auto. simpl.
  destruct (probe v st filepath (JStr "run")) as [f1 d1| |e1];
    destruct (probe v st filepath (JStr "task")) as [f2 d2| |e2];
    destruct (probe v st filepath (JStr "global")) as [f3 d3| |e3];
    reflexivity.
Qed.

(** C2 (amended): a read with scope [auto] probes the scopes run, task and
    global in that order and returns the content of the first one in which
    the path resolves to a regular file that can be read; a scope in which
    the path is absent, does not resolve, or is a directory, is not an error
    but is passed over with its reason recorded; when none of the three
    yields the file, the read fails with "File not found" followed by the
    three reasons.  With a concrete scope, a path absent from that scope
    fails at once with "File not found", no other scope being tried. *)
Theorem readFile_auto_first_readable v filepath st :
  VFS.readFile v filepath (JStr "auto") st
  = match probe v st filepath (JStr "run"),
          probe v st filepath (JStr "task"),
          probe v st filepath (JStr "global") with
    | Hit fullPath data, _, _ => read_hit filepath (JStr "run") fullPath data st
    | _, Hit fullPath data, _ => read_hit filepath (JStr "task") fullPath data st
    | _, _, Hit fullPath data => read_hit filepath (JStr "global") fullPath data st
    | r1, r2, r3 =>
        (Throw ("File not found: " +:+ toString filepath +:+ ". Searched: "
                  +:+ reason (JStr "run") r1 +:+ ", "
                  +:+ reason (JStr "task") r2 +:+ ", "
                  +:+ reason (JStr "global") r3), st)
    end
  ∧ ∀ s, s ∈ concrete_scopes →
      probe v st filepath (JStr s) = Miss →
      VFS.readFile v filepath (JStr s) st
      = (Throw ("File not found: " +:+ toString filepath
                  +:+ ". Searched: Not found in " +:+ s +:+ " scope"), st).
Proof.
  split; [apply readFile_auto|].
  intros s Hs Hmiss. rewrite readFile_concrete; simpl.
  - by rewrite Hmiss.
  - intros [= ->]. not_concrete Hs.
Qed.

(** The scenario of the specification: a file written to the task scope is
    found there by an automatic read. *)
Example readFile_auto_finds_task_copy :
  ∃ st',
    (VFS.writeFile Fixture.vfs (JStr "notes/a.txt") (JStr "hello") (JStr "task")
       false Fixture.fresh).2 = st'
    ∧ (HostTools.readFile Fixture.vfs
         (Fixture.object [("path", JStr "notes/a.txt"); ("scope", JStr "auto")])
         st').1
      = Ok (Success {| VFS.rd_content := "hello"; VFS.rd_path := JStr "notes/a.txt";
                       VFS.rd_scope := JStr "task"; VFS.rd_size := 5;
                       VFS.rd_fullPath := "/eco/tasks/t1/fs/notes/a.txt" |}).
Proof. eexists. split; [reflexivity|]. vm_compute. reflexivity. Qed.

Lemma readFile_auto_first_readable_witness :
  VFS.readFile Fixture.vfs (JStr "notes.txt") (JStr "task") Fixture.fresh
  = (Throw "File not found: notes.txt. Searched: Not found in task scope",
     Fixture.fresh).
Proof.
  destruct (readFile_auto_first_readable Fixture.vfs (JStr "notes.txt")
              Fixture.fresh) as [_ H].
  rewrite (H "task"); [reflexivity| |vm_compute; reflexivity].
  unfold concrete_scopes. set_solver.
Defined.

(** ** Strings *)

Lemma append_cons x (a b : string) : String x a +:+ b = String x (a +:+ b).
Proof. reflexivity. Qed.

Lemma append_nil_l (a : string) : "" +:+ a = a.
Proof. reflexivity. Qed.

Lemma append_assoc (a b c : string) : (a +:+ b) +:+ c = a +:+ (b +:+ c).
Proof.
  induction a as [|x a IH]; [done|]. rewrite !append_cons. by rewrite IH.
Qed.

Lemma append_nil_r (a : string) : a +:+ "" = a.
Proof. induction a as [|x a IH]; [done|]. rewrite append_cons. by rewrite IH. Qed.

Lemma trimStart_all_space s : all_space s = true → JS.trimStart s = "".
Proof.
  induction s as [|c s IH]; [done|]. simpl.
  destruct (Ascii.is_space c); [|done]. simpl. exact IH.
Qed.

Lemma trim_all_space s : all_space s = true → JS.trim s = "".
Proof. intros H. unfold JS.trim. by rewrite trimStart_all_space. Qed.

(** ** A path that does not resolve *)

Lemma scopes_concrete v key :
  key ∈ concrete_scopes → ∃ root, VFS.scopes v key = VFS.Own root.
Proof.
  unfold concrete_scopes. rewrite !elem_of_cons, elem_of_nil.
  intros [->|[->|[->|[]]]]; eexists; reflexivity.
Qed.

Lemma resolvePath_blank v p scope :
  all_space p = true →
  toString (or_default (JStr "run") scope) ∈ concrete_scopes →
  VFS._resolvePath v (JStr p) scope = Throw VFS.empty_path.
Proof.
  intros Hp Hs. unfold VFS._resolvePath.
  destruct (scopes_concrete v _ Hs) as [root ->].
  destruct p as [|c p]; [done|]. cbn [falsy].
  by rewrite decide_True by by apply trim_all_space.
Qed.

Section resolution_fails.
Context (v : TaskVFS) (filepath scope : jsval) (e : string) (st : state).
Hypothesis Hfail : VFS._resolvePath v filepath scope = Throw e.

Lemma writeFile_unresolved content append :
  VFS.writeFile v filepath content scope append st
  = (Throw ("Failed to write file " +:+ toString filepath +:+ ": " +:+ e), st).
Proof.
  unfold VFS.writeFile, try_catch, bind at 1, lift.
  by rewrite resolvePath_default, Hfail.
Qed.

Lemma deleteFile_unresolved :
  VFS.deleteFile v filepath scope st
  = (Throw ("Failed to delete " +:+ toString filepath +:+ ": " +:+ e), st).
Proof.
  unfold VFS.deleteFile, try_catch, bind at 1, lift.
  by rewrite resolvePath_default, Hfail.
Qed.

Lemma stat_unresolved :
  VFS.stat v filepath scope st
  = (Throw ("Failed to stat " +:+ toString filepath +:+ ": " +:+ e), st).
Proof.
  unfold VFS.stat, try_catch, bind at 1, lift.
  by rewrite resolvePath_default, Hfail.
Qed.

Lemma mkdir_unresolved :
  VFS.mkdir v filepath scope st
  = (Throw ("Failed to create directory " +:+ toString filepath
              +:+ ": " +:+ e), st).
Proof.
  unfold VFS.mkdir, try_catch, bind at 1, lift.
  by rewrite resolvePath_default, Hfail.
Qed.

Lemma watch_unresolved {A} (callback : VFS.watch_event → A → A) :
  VFS.watch v filepath scope callback st
  = (Throw ("Failed to watch " +:+ toString filepath +:+ ": " +:+ e), st).
Proof.
  unfold VFS.watch, try_catch, bind at 1, lift.
  by rewrite resolvePath_default, Hfail.
Qed.

End resolution_fails.

(** ** A blank path *)

Lemma mentions_intro before needle after :
  mentions (before +:+ needle +:+ after) needle.
Proof. by exists before, after. Qed.

Lemma mentions_suffix before needle : mentions (before +:+ needle) needle.
Proof. exists before, "". by rewrite append_nil_r. Qed.

Lemma blank_path_error_mentions t p scope :
  t ≠ HostTools.FileExists →
  mentions (blank_path_error t p scope) "Filepath cannot be empty".
Proof.
  intros Ht. change "Filepath cannot be empty" with VFS.empty_path.
  destruct t; simpl; try done;
    try (rewrite <- (append_assoc _ ": "), <- (append_assoc _ (p +:+ ": "));
         apply mentions_suffix).
  case_decide.
  - rewrite <- (append_assoc _ ". Searched: run: "),
      <- (append_assoc _ (p +:+ ". Searched: run: ")).
    apply mentions_intro.
  - rewrite <- (append_assoc _ ": "), <- (append_assoc _ (p +:+ ": ")).
    apply mentions_suffix.
Qed.

Lemma scope_accepted_resolves t v ps p :
  all_space p = true →
  toString (scope_of t ps) ∈ concrete_scopes →
  VFS._resolvePath v (JStr p) (scope_of t ps) = Throw VFS.empty_path.
Proof.
  intros Hp Hs. apply resolvePath_blank; [done|].
  destruct (scope_of t ps); try done; simpl in Hs; not_concrete Hs.
Qed.

Lemma probe_blank v st p s :
  all_space p = true → s ∈ concrete_scopes →
  probe v st (JStr p) (JStr s) = Failed VFS.empty_path.
Proof.
  intros Hp Hs. unfold probe. by rewrite resolvePath_blank.
Qed.

Lemma readFile_blank v st p scope :
  all_space p = true →
  scope = JStr "auto" ∨ toString scope ∈ concrete_scopes →
  VFS.readFile v (JStr p) scope st
  = (Throw (blank_path_error HostTools.ReadFile p scope), st).
Proof.
  intros Hp [->|Hs].
  - rewrite readFile_auto.
    rewrite !probe_blank by (done || (unfold concrete_scopes; set_solver)).
    reflexivity.
  - assert (or_default (JStr "run") scope = scope) as Hd.
    { destruct scope; try done; simpl in Hs; not_concrete Hs. }
    assert (scope ≠ JStr "auto") as Hna.
    { intros ->. simpl in Hs. not_concrete Hs. }
    rewrite readFile_concrete by by rewrite Hd. cbn zeta. rewrite Hd.
    unfold probe. rewrite resolvePath_blank by by rewrite ?Hd.
    simpl. by rewrite decide_False.
Qed.

Lemma guarded_throw {A} tool path scope (op : M A) st e st' :
  op st = (Throw e, st') →
  HostTools.guarded tool path scope op st
  = (Ok (Failure {| f_error := e; f_tool := tool; f_path := path;
                    f_scope := scope |}), st').
Proof.
  intros H. unfold HostTools.guarded.
  erewrite try_catch_throw; [reflexivity|]. by erewrite bind_throw.
Qed.

Lemma guarded_ok {A} tool path scope (op : M A) st a st' :
  op st = (Ok a, st') →
  HostTools.guarded tool path scope op st = (Ok (Success a), st').
Proof.
  intros H. unfold HostTools.guarded.
  erewrite try_catch_ok; [reflexivity|]. by erewrite bind_ok.
Qed.

Lemma validated {A} ps required (k : M A) st :
  absent ps required = [] →
  (lift (_validateParams ps required) ;; k)%vfs st = k st.
Proof.
  intros H. erewrite bind_ok; [reflexivity|].
  unfold lift. by rewrite validate_present.
Qed.




(** ** [deleteFile] *)

Lemma lookup_locate st st' p :
  cwd st' = cwd st → nodes st' !! Disk.locate st p = None →
  Disk.lookup st' p = None.
Proof.
  intros Hcwd Hnone. unfold Disk.lookup, Disk.locate in *.
  rewrite Hcwd. by rewrite Hnone.
Qed.

Lemma deleteFile_missing v filepath scope st fullPath :
  VFS._resolvePath v filepath scope = Ok fullPath →
  Disk.lookup st fullPath = None →
  VFS.deleteFile v filepath scope st
  = (Throw ("Failed to delete " +:+ toString filepath +:+ ": File not found: "
              +:+ toString filepath), st).
Proof.
  intros Hres Hnone.
  unfold VFS.deleteFile, try_catch, bind, lift.
  rewrite resolvePath_default, Hres, existsSync_spec, Hnone. reflexivity.
Qed.

Lemma deleteFile_directory v filepath scope st fullPath :
  VFS._resolvePath v filepath scope = Ok fullPath →
  Disk.lookup st fullPath = Some Dir →
  VFS.deleteFile v filepath scope st
  = (Ok {| VFS.dl_path := filepath;
           VFS.dl_scope := or_default (JStr "run") scope |},
     emit {| ev_name := "file:delete"; ev_path := filepath;
             ev_scope := or_default (JStr "run") scope;
             ev_fullPath := fullPath; ev_size := None |}
       (with_nodes (filter (λ kn, ¬ Disk.locate st fullPath `prefix_of` kn.1)) st)).
Proof.
  intros Hres Hdir.
  unfold VFS.deleteFile, try_catch, bind, lift.
  rewrite resolvePath_default, Hres, existsSync_spec, Hdir. simpl.
  unfold Disk.stat. rewrite Hdir. reflexivity.
Qed.

Lemma deleteFile_file v filepath scope st fullPath data :
  VFS._resolvePath v filepath scope = Ok fullPath →
  Disk.lookup st fullPath = Some (File data) →
  VFS.deleteFile v filepath scope st
  = (Ok {| VFS.dl_path := filepath;
           VFS.dl_scope := or_default (JStr "run") scope |},
     emit {| ev_name := "file:delete"; ev_path := filepath;
             ev_scope := or_default (JStr "run") scope;
             ev_fullPath := fullPath; ev_size := None |}
       (with_nodes (delete (Disk.locate st fullPath)) st)).
Proof.
  intros Hres Hfile.
  unfold VFS.deleteFile, try_catch, bind, lift.
  rewrite resolvePath_default, Hres, existsSync_spec, Hfile. simpl.
  unfold Disk.stat. rewrite Hfile. simpl.
  unfold Disk.unlink. rewrite Hfile. reflexivity.
Qed.

(** C6: for a path that resolves, [deleteFile] fails with the not-found
    error when nothing is there; when a directory is there it removes the
    directory and everything below it and leaves the rest alone, so that
    [exists] answers [false] for every path that leads into the removed
    directory; when a file is there it removes just that file. *)
Theorem deleteFile_removes v filepath scope st fullPath :
  VFS._resolvePath v filepath scope = Ok fullPath →
  match Disk.lookup st fullPath with
  | None =>
      VFS.deleteFile v filepath scope st
      = (Throw ("Failed to delete " +:+ toString filepath
                  +:+ ": File not found: " +:+ toString filepath), st)
  | Some Dir =>
      ∃ st',
        VFS.deleteFile v filepath scope st
        = (Ok {| VFS.dl_path := filepath;
                 VFS.dl_scope := or_default (JStr "run") scope |}, st')
        ∧ (∀ k, nodes st' !! k
                = if decide (Disk.locate st fullPath `prefix_of` k)
                  then None else nodes st !! k)
        ∧ (∀ child s childPath,
             VFS._resolvePath v child s = Ok childPath →
             Disk.locate st fullPath `prefix_of` Disk.locate st childPath →
             VFS.exists_ v child s st' = (Ok false, st'))
  | Some (File _) =>
      ∃ st',
        VFS.deleteFile v filepath scope st
        = (Ok {| VFS.dl_path := filepath;
                 VFS.dl_scope := or_default (JStr "run") scope |}, st')
        ∧ nodes st' = delete (Disk.locate st fullPath) (nodes st)
  end.
Proof.
  intros Hres. destruct (Disk.lookup st fullPath) as [[data|]|] eqn:E.
  - eexists. split; [by eapply deleteFile_file|]. reflexivity.
  - eexists. split; [by eapply deleteFile_directory|].
    assert (∀ k, filter (λ kn : list string * node,
                           ¬ Disk.locate st fullPath `prefix_of` kn.1)
                   (nodes st) !! k
                 = if decide (Disk.locate st fullPath `prefix_of` k)
                   then None else nodes st !! k) as Hgone.
    { intros k. case_decide as Hk.
      - apply map_lookup_filter_None. right. intros n _ Hn. by apply Hn.
      - destruct (nodes st !! k) as [n|] eqn:En.
        + by apply map_lookup_filter_Some.
        + apply map_lookup_filter_None. by left. }
    split; [exact Hgone|].
    intros child s childPath Hchild Hbelow. rewrite exists_spec, Hchild.
    erewrite lookup_locate; [reflexivity|reflexivity|].
    simpl. rewrite Hgone. by rewrite decide_True.
  - by eapply deleteFile_missing.
Qed.

Lemma deleteFile_removes_witness :
  VFS.exists_ Fixture.vfs (JStr "sub/f.txt") (JStr "run") Fixture.nested
  = (Ok true, Fixture.nested)
  ∧ ∃ st',
      (VFS.deleteFile Fixture.vfs (JStr "sub") (JStr "run") Fixture.nested).2 = st'
      ∧ VFS.exists_ Fixture.vfs (JStr "sub/f.txt") (JStr "run") st'
        = (Ok false, st').
Proof.
  split; [reflexivity|].
  pose proof (deleteFile_removes Fixture.vfs (JStr "sub") (JStr "run")
                Fixture.nested "/eco/tasks/t1/runs/r1/fs/sub" eq_refl) as H.
  change (Disk.lookup Fixture.nested "/eco/tasks/t1/runs/r1/fs/sub")
    with (Some Dir) in H.
  destruct H as (st' & Hdel & _ & Hchild).
  exists st'. split; [by rewrite Hdel|].
  apply (Hchild (JStr "sub/f.txt") (JStr "run")
           "/eco/tasks/t1/runs/r1/fs/sub/f.txt" eq_refl).
  by exists ["f.txt"].
Defined.

(** ** [mkdir] *)

Lemma ancestors_self k : k ∈ Disk.ancestors k.
Proof.
  induction k as [|x k IH]; simpl; [apply list_elem_of_here|].
  apply list_elem_of_further, list_elem_of_fmap. eauto.
Qed.

Lemma lookup_make_dirs (qs : list (list string)) (m : gmap (list string) node) k :
  foldr (λ q, <[q := Dir]>) m qs !! k
  = if decide (k ∈ qs) then Some Dir else m !! k.
Proof.
  induction qs as [|q qs IH].
  - case_decide as H; [by apply elem_of_nil in H|done].
  - cbn [foldr]. destruct (decide (q = k)) as [->|Hne].
    + rewrite lookup_insert_eq. by rewrite decide_True by apply list_elem_of_here.
    + rewrite lookup_insert_ne by done. rewrite IH.
      destruct (decide (k ∈ qs)) as [Hin|Hout].
      * by rewrite decide_True by by apply list_elem_of_further.
      * rewrite decide_False; [done|].
        intros [?|?]%elem_of_cons; [congruence|done].
Qed.

Lemma existsb_false {A} (f : A → bool) (l : list A) :
  (∀ x, x ∈ l → f x = false) → existsb f l = false.
Proof.
  induction l as [|x l IH]; intros H; simpl; [done|].
  rewrite (H x) by apply list_elem_of_here. simpl.
  apply IH. intros y Hy. apply H. by apply list_elem_of_further.
Qed.

Lemma mkdir_recursive_clear p st :
  (∀ q, q ∈ Disk.ancestors (Disk.locate st p) → Disk.is_file (nodes st !! q) = false) →
  Disk.mkdir_recursive p st
  = (Ok tt, with_nodes (λ m, foldr (λ q, <[q := Dir]>) m
                               (Disk.ancestors (Disk.locate st p))) st).
Proof.
  intros Hclear. unfold Disk.mkdir_recursive.
  rewrite (Hclear _ (ancestors_self _)).
  by rewrite existsb_false.
Qed.

Lemma make_dirs_again (qs : list (list string)) (m : gmap (list string) node) :
  foldr (λ q, <[q := Dir]>) (foldr (λ q, <[q := Dir]>) m qs) qs
  = foldr (λ q, <[q := Dir]>) m qs.
Proof.
  apply map_eq. intros k. rewrite !lookup_make_dirs. by case_decide.
Qed.

(** C8: for a path that resolves and has no regular file in its way,
    [mkdir] succeeds, and calling it again succeeds with the same result and
    changes nothing: the directory is there, once, after either call. *)
Theorem mkdir_idempotent v dirpath scope st fullPath :
  VFS._resolvePath v dirpath scope = Ok fullPath →
  (∀ q, q ∈ Disk.ancestors (Disk.locate st fullPath) →
        Disk.is_file (nodes st !! q) = false) →
  ∃ st',
    let done :=
      {| VFS.mk_path := dirpath; VFS.mk_scope := or_default (JStr "run") scope;
         VFS.mk_fullPath := fullPath |} in
    VFS.mkdir v dirpath scope st = (Ok done, st')
    ∧ VFS.mkdir v dirpath scope st' = (Ok done, st')
    ∧ Disk.lookup st' fullPath = Some Dir
    ∧ ∀ k, k ∉ Disk.ancestors (Disk.locate st fullPath) →
           nodes st' !! k = nodes st !! k.
Proof.
  intros Hres Hclear.
  set (st' := with_nodes (λ m, foldr (λ q, <[q := Dir]>) m
                                 (Disk.ancestors (Disk.locate st fullPath))) st).
  assert (∀ q, q ∈ Disk.ancestors (Disk.locate st' fullPath) →
               Disk.is_file (nodes st' !! q) = false) as Hclear'.
  { intros q Hq. simpl. rewrite lookup_make_dirs. by rewrite decide_True. }
  exists st'. cbn zeta. repeat split.
  - unfold VFS.mkdir, try_catch, bind, lift.
    rewrite resolvePath_default, Hres. by rewrite mkdir_recursive_clear.
  - unfold VFS.mkdir, try_catch, bind, lift.
    rewrite resolvePath_default, Hres. rewrite mkdir_recursive_clear by done.
    f_equal. subst st'. unfold with_nodes, Disk.locate. simpl. f_equal.
    apply make_dirs_again.
  - unfold Disk.lookup. change (Disk.locate st' fullPath) with (Disk.locate st fullPath).
    simpl. rewrite lookup_make_dirs. by rewrite decide_True by apply ancestors_self.
  - intros k Hk. simpl. rewrite lookup_make_dirs. by rewrite decide_False.
Qed.

Lemma mkdir_idempotent_witness :
  ∃ st',
    (VFS.mkdir Fixture.vfs (JStr "a/b") (JStr "task") Fixture.fresh).2 = st'
    ∧ (VFS.mkdir Fixture.vfs (JStr "a/b") (JStr "task") st').2 = st'
    ∧ Disk.lookup st' "/eco/tasks/t1/fs/a/b" = Some Dir.
Proof.
  destruct (mkdir_idempotent Fixture.vfs (JStr "a/b") (JStr "task")
              Fixture.fresh "/eco/tasks/t1/fs/a/b" eq_refl)
    as (st' & H1 & H2 & H3 & _).
  - intros q Hq. vm_compute in Hq.
    repeat (apply elem_of_cons in Hq as [->|Hq]; [vm_compute; reflexivity|]).
    by apply elem_of_nil in Hq.
  - exists st'. split; [by rewrite H1|]. split; [by rewrite H2|exact H3].
Defined.

(** ** [watchFile] *)

Lemma watch_armed {A} v filepath scope (callback : VFS.watch_event → A → A)
    st fullPath :
  VFS._resolvePath v filepath scope = Ok fullPath →
  is_Some (Disk.lookup st fullPath) →
  VFS.watch v filepath scope callback st
  = (Ok {| VFS.target := fullPath;
           VFS.listener := λ eventType filename,
             callback {| VFS.we_event := eventType;
                         VFS.we_filename := filename;
                         VFS.we_path := filepath;
                         VFS.we_scope := or_default (JStr "run") scope |};
           VFS.closed := false |}, st).
Proof.
  intros Hres Hsome. unfold VFS.watch, try_catch, bind, lift.
  rewrite resolvePath_default, Hres, existsSync_spec.
  by rewrite bool_decide_true.
Qed.

Lemma settled_stays {A} (w : VFS.watcher (HostTools.promise A)) a changes :
  (∀ eventType filename p, ∃ x, VFS.listener w eventType filename p
                               = HostTools.resolve x p) →
  fold_left (λ p change, VFS.notify w change p) changes (HostTools.Fulfilled a)
  = HostTools.Fulfilled a.
Proof.
  intros Hl. induction changes as [|c changes IH]; [done|]. simpl.
  unfold VFS.notify at 2. destruct (VFS.closed w); [done|].
  destruct (Hl c.1 c.2 (HostTools.Fulfilled a)) as [x ->]. exact IH.
Qed.

(** C9: a call of [watchFile] on a path that exists arms a watcher and stays
    suspended on a promise; the promise is pending as long as no change is
    reported, and is resolved by the first change with
    [{success: true, event, path, scope}]; later changes do not alter it.
    The call hands back no handle: the watcher it armed is never closed. *)
Theorem watchFile_one_shot v ps st filepath fullPath :
  ps !! "path" = Some filepath →
  VFS._resolvePath v filepath (param ps "scope") = Ok fullPath →
  is_Some (Disk.lookup st fullPath) →
  ∃ w,
    let scope := or_default (JStr "run") (param ps "scope") in
    let fired (change : string * string) :=
      Success {| HostTools.wt_event :=
                   {| VFS.we_event := change.1; VFS.we_filename := change.2;
                      VFS.we_path := filepath; VFS.we_scope := scope |};
                 HostTools.wt_path := filepath;
                 HostTools.wt_scope := scope |} in
    HostTools.watchFile v ps st = (Ok (HostTools.Awaiting w), st)
    ∧ VFS.target w = fullPath
    ∧ VFS.closed w = false
    ∧ HostTools.settle w [] = HostTools.Pending
    ∧ ∀ first later,
        HostTools.settle w (first :: later) = HostTools.Fulfilled (fired first).
Proof.
  intros Hpath Hres Hsome.
  assert (param ps "path" = filepath) as Hparam by (unfold param; by rewrite Hpath).
  eexists. cbn zeta. split; [|split; [|split; [|split]]].
  - unfold HostTools.watchFile.
    rewrite validated by (apply absent_path_present; by rewrite Hpath).
    erewrite try_catch_ok; [reflexivity|].
    erewrite bind_ok; [reflexivity|]. rewrite Hparam.
    apply watch_armed; [by rewrite resolvePath_default|done].
  - reflexivity.
  - reflexivity.
  - reflexivity.
  - intros first later. unfold HostTools.settle. simpl.
    rewrite or_default_idemp. apply settled_stays.
    intros eventType filename p. simpl. eauto.
Qed.

Lemma watchFile_one_shot_witness :
  ∃ w,
    HostTools.watchFile Fixture.vfs (Fixture.object [("path", JStr "sub/f.txt")])
      Fixture.nested = (Ok (HostTools.Awaiting w), Fixture.nested)
    ∧ HostTools.settle w [("change", "f.txt"); ("rename", "f.txt")]
      = HostTools.Fulfilled
          (Success {| HostTools.wt_event :=
                        {| VFS.we_event := "change"; VFS.we_filename := "f.txt";
                           VFS.we_path := JStr "sub/f.txt";
                           VFS.we_scope := JStr "run" |};
                      HostTools.wt_path := JStr "sub/f.txt";
                      HostTools.wt_scope := JStr "run" |}).
Proof.
  destruct (watchFile_one_shot Fixture.vfs
              (Fixture.object [("path", JStr "sub/f.txt")]) Fixture.nested
              (JStr "sub/f.txt") "/eco/tasks/t1/runs/r1/fs/sub/f.txt"
              eq_refl eq_refl (mk_is_Some _ _ eq_refl))
    as (w & Hcall & _ & _ & _ & Hfire).
  exists w. split; [exact Hcall|]. apply Hfire.
Defined.

(** ** [writeFile] followed by [readFile] *)

Lemma bind_ok_inv {A B} (m : M A) (k : A → M B) st b st' :
  bind m k st = (Ok b, st') →
  ∃ a st1, m st = (Ok a, st1) ∧ k a st1 = (Ok b, st').
Proof.
  unfold bind. destruct (m st) as [[a|e] st1]; [eauto|discriminate].
Qed.

Lemma try_catch_rethrow_inv {A} (m : M A) (wrap : string → string) st a st' :
  try_catch m (λ e, throw (wrap e)) st = (Ok a, st') → m st = (Ok a, st').
Proof.
  unfold try_catch, throw. destruct (m st) as [[a0|e] st1]; [done|discriminate].
Qed.

Lemma disk_writeFile_ok p data st st' :
  Disk.writeFile p data st = (Ok tt, st') →
  JS.endsWithSlash p = false
  ∧ st' = with_nodes <[Disk.locate st p := File data]> st.
Proof.
  unfold Disk.writeFile.
  repeat case_match; intros [= <-]; try discriminate; done.
Qed.

Lemma lookup_written p data st :
  JS.endsWithSlash p = false →
  Disk.lookup (with_nodes <[Disk.locate st p := File data]> st) p
  = Some (File data).
Proof.
  intros Hslash. unfold Disk.lookup.
  change (Disk.locate (with_nodes _ st) p) with (Disk.locate st p).
  simpl. rewrite lookup_insert_eq. by rewrite Hslash.
Qed.

Lemma writeFile_ok_inv v filepath content scope st r st' :
  VFS.writeFile v filepath content scope false st = (Ok r, st') →
  ∃ fullPath data,
    VFS._resolvePath v filepath scope = Ok fullPath
    ∧ written content = Ok data
    ∧ Disk.lookup st' fullPath = Some (File data)
    ∧ r = {| VFS.wr_path := filepath;
             VFS.wr_scope := or_default (JStr "run") scope;
             VFS.wr_size := String.length data;
             VFS.wr_fullPath := fullPath |}.
Proof.
  unfold VFS.writeFile. intros H. apply try_catch_rethrow_inv in H.
  apply bind_ok_inv in H as (fullPath & st0 & Hres & H).
  unfold lift in Hres. injection Hres as Hres <-.
  rewrite resolvePath_default in Hres.
  apply bind_ok_inv in H as (dirExists & st0 & [= <- <-] & H).
  apply bind_ok_inv in H as ([] & st1 & Hmk & H).
  apply bind_ok_inv in H as (targetExists & st1' & [= <- <-] & H).
  cbn [andb] in H.
  apply bind_ok_inv in H as (content' & st1' & [= <- <-] & H).
  apply bind_ok_inv in H as (data & st1' & Hdata & H).
  unfold lift in Hdata. injection Hdata as Hdata <-.
  apply bind_ok_inv in H as ([] & st2 & Hwrite & H).
  apply disk_writeFile_ok in Hwrite as [Hslash ->].
  apply bind_ok_inv in H as (stat & st2' & Hstat & H).
  unfold Disk.stat in Hstat. rewrite lookup_written in Hstat by done.
  injection Hstat as <- <-.
  apply bind_ok_inv in H as ([] & st3 & [= <-] & [= <- <-]).
  exists fullPath, data. split; [done|]. split; [exact Hdata|].
  split; [|reflexivity].
  unfold Disk.lookup.
  change (Disk.locate (emit _ (with_nodes _ st1)) fullPath)
    with (Disk.locate st1 fullPath).
  simpl. rewrite lookup_insert_eq. by rewrite Hslash.
Qed.

Lemma read_after_write v filepath content s st r st' :
  s ∈ concrete_scopes →
  VFS.writeFile v filepath content (JStr s) false st = (Ok r, st') →
  ∃ data,
    written content = Ok data
    ∧ VFS.readFile v filepath (JStr s) st'
      = read_hit filepath (JStr s) (VFS.wr_fullPath r) data st'.
Proof.
  intros Hs Hwrite.
  apply writeFile_ok_inv in Hwrite as (fullPath & data & Hres & Hdata & Hlook & ->).
  exists data. split; [exact Hdata|].
  rewrite readFile_concrete by (simpl; intros [= ->]; not_concrete Hs).
  cbn zeta. cbn [or_default]. unfold probe. by rewrite Hres, Hlook.
Qed.

(** ** [listFiles] *)

(** Listing reads the file system and changes nothing. *)

Lemma read_only_ret {A} (a : A) : read_only (ret a).
Proof. by intros st. Qed.

Lemma read_only_throw {A} e : read_only (@throw A e).
Proof. by intros st. Qed.

Lemma read_only_lift {A} (r : result A) : read_only (lift r).
Proof. by intros st. Qed.

Lemma read_only_bind {A B} (m : M A) (k : A → M B) :
  read_only m → (∀ a, read_only (k a)) → read_only (bind m k).
Proof.
  intros Hm Hk st. unfold bind. specialize (Hm st).
  destruct (m st) as [[a|e] st1]; simpl in Hm; subst; [apply Hk|done].
Qed.

Lemma read_only_try_catch {A} (m : M A) h :
  read_only m → (∀ e, read_only (h e)) → read_only (try_catch m h).
Proof.
  intros Hm Hh st. unfold try_catch. specialize (Hm st).
  destruct (m st) as [[a|e] st1]; simpl in Hm; subst; [done|apply Hh].
Qed.

Lemma read_only_existsSync p : read_only (Disk.existsSync p).
Proof. by intros st. Qed.

Lemma read_only_stat p : read_only (Disk.stat p).
Proof. intros st. unfold Disk.stat. by repeat case_match. Qed.

Lemma read_only_readdir p : read_only (Disk.readdir p).
Proof. intros st. unfold Disk.readdir. by repeat case_match. Qed.

Lemma read_only_entries dirpath fullPath scope entries files directories :
  read_only (VFS.listFiles_entries dirpath fullPath scope entries files directories).
Proof.
  revert files directories.
  induction entries as [|dirent rest IH]; intros files directories; simpl.
  - apply read_only_ret.
  - apply read_only_bind; [apply read_only_stat|].
    intros stat. destruct (Disk.entryIsDirectory dirent); apply IH.
Qed.

Lemma read_only_listFiles v dirpath scope : read_only (VFS.listFiles v dirpath scope).
Proof.
  unfold VFS.listFiles. apply read_only_try_catch; [|intros; apply read_only_throw].
  apply read_only_bind; [apply read_only_lift|]. intros fullPath.
  apply read_only_bind; [apply read_only_existsSync|]. intros found.
  destruct (negb found); [apply read_only_ret|].
  apply read_only_bind; [apply read_only_readdir|]. intros entries.
  apply read_only_bind; [apply read_only_entries|]. intros. apply read_only_ret.
Qed.

Lemma read_only_walk self scope steps i result :
  (∀ ps, read_only (self ps)) →
  read_only (HostTools.walk self scope steps i result).
Proof.
  intros Hself. revert i result.
  induction steps as [|steps IH]; intros i result; simpl; [apply read_only_ret|].
  destruct (VFS.directories result !! i) as [dir|]; [|apply read_only_ret].
  apply read_only_bind; [apply Hself|].
  intros [[sub|f]|]; [apply IH|apply IH|apply read_only_ret].
Qed.

Lemma read_only_host_listFiles fuel v ps :
  read_only (HostTools.listFiles fuel v ps).
Proof.
  revert ps. induction fuel as [|fuel IH]; intros ps; simpl; [apply read_only_ret|].
  apply read_only_try_catch; [|intros; apply read_only_ret].
  apply read_only_bind; [apply read_only_listFiles|]. intros result.
  apply read_only_bind; [|intros; apply read_only_ret].
  case_match; [by apply read_only_walk|apply read_only_ret].
Qed.

Lemma read_only_run {A} (m : M A) st r st' :
  read_only m → m st = (r, st') → st' = st.
Proof. intros H E. specialize (H st). by rewrite E in H. Qed.

Lemma covered_mono self scope st res res' dir :
  VFS.files res ⊆ VFS.files res' →
  VFS.directories res ⊆ VFS.directories res' →
  covered self scope st res dir → covered self scope st res' dir.
Proof.
  intros Hf Hd (sub & Hsub & Hin). exists sub. split; [done|].
  intros found Hfound. destruct (Hin found Hfound) as [H1 H2].
  split; [by etrans|by etrans].
Qed.

Lemma walk_covers self scope st :
  (∀ ps, read_only (self ps)) →
  ∀ steps i result out st',
    HostTools.walk self scope steps i result st = (Ok (Some out), st') →
    (∀ j dir, j < i → VFS.directories result !! j = Some dir →
              covered self scope st result dir) →
    VFS.files result `prefix_of` VFS.files out
    ∧ VFS.directories result `prefix_of` VFS.directories out
    ∧ ∀ dir, dir ∈ VFS.directories out → covered self scope st out dir.
Proof.
  intros Hself. induction steps as [|steps IH]; intros i result out st' Hwalk Hinv;
    simpl in Hwalk; [discriminate|].
  destruct (VFS.directories result !! i) as [dir|] eqn:Hi.
  - unfold bind in Hwalk.
    destruct (self (HostTools.sub_params dir scope) st) as [[subResult|e] st1] eqn:Hsub;
      [|discriminate].
    pose proof (read_only_run _ _ _ _ (Hself _) Hsub) as ->.
    destruct subResult as [[sub|f]|]; [| |discriminate].
    + apply IH in Hwalk as (Hf & Hd & Hcov).
      * split; [|split; [|exact Hcov]].
        -- etrans; [|exact Hf]. simpl. by apply prefix_app_r.
        -- etrans; [|exact Hd]. simpl. by apply prefix_app_r.
      * intros j dir' Hj Hdir'. simpl in Hdir'.
        destruct (decide (j = i)) as [->|Hne].
        -- rewrite lookup_app_l in Hdir' by by eapply lookup_lt_Some.
           assert (dir' = dir) as -> by congruence.
           exists (Success sub). split; [exact Hsub|].
           intros found [= <-]. simpl.
           split; intros x Hx; apply elem_of_app; by right.
        -- assert (j < i) as Hlt by lia.
           assert (VFS.directories result !! j = Some dir') as Hold.
           { rewrite lookup_app_l in Hdir'; [done|].
             apply lookup_lt_Some in Hi. lia. }
           eapply covered_mono; [| |by eapply Hinv]; simpl;
             intros x Hx; apply elem_of_app; by left.
    + apply IH in Hwalk as (Hf & Hd & Hcov); [done|].
      intros j dir' Hj Hdir'.
      destruct (decide (j = i)) as [->|Hne].
      * assert (dir' = dir) as -> by congruence.
        exists (Failure f). split; [exact Hsub|]. intros found [=].
      * apply (Hinv j); [lia|done].
  - injection Hwalk as <- <-. split; [done|]. split; [done|].
    intros dir [j Hj]%list_elem_of_lookup. apply (Hinv j); [|done].
    apply lookup_ge_None in Hi. apply lookup_lt_Some in Hj. lia.
Qed.

Lemma host_listFiles_recursive fuel v ps st r st' :
  falsy (or_default (JBool false) (param ps "recursive")) = false →
  HostTools.listFiles (S fuel) v ps st = (Ok (Some (Success r)), st') →
  let path := or_default (JStr "/") (param ps "path") in
  let scope := or_default (JStr "run") (param ps "scope") in
  st' = st
  ∧ ∃ direct,
      VFS.listFiles v path scope st = (Ok direct, st)
      ∧ VFS.files direct `prefix_of` VFS.files r
      ∧ VFS.directories direct `prefix_of` VFS.directories r
      ∧ ∀ dir, dir ∈ VFS.directories r →
               covered (HostTools.listFiles fuel v) scope st r dir.
Proof.
  intros Hrec Hlist path scope.
  pose proof (read_only_run _ _ _ _ (read_only_host_listFiles _ _ _) Hlist) as ->.
  split; [done|]. simpl in Hlist. fold path scope in Hlist. rewrite Hrec in Hlist.
  unfold try_catch in Hlist.
  destruct (bind (VFS.listFiles v path scope) _ st) as [[o|e] st1] eqn:E;
    [|discriminate].
  injection Hlist as -> ->.
  apply bind_ok_inv in E as (direct & st1 & Hdirect & E).
  pose proof (read_only_run _ _ _ _ (read_only_listFiles _ _ _) Hdirect) as ->.
  exists direct. split; [done|].
  apply bind_ok_inv in E as (walked & st1 & Hwalk & [= E]).
  destruct walked as [out|]; [|discriminate]. injection E as ->.
  simpl in Hwalk. case_bool_decide as Hlen.
  - apply walk_covers in Hwalk; [done|intros; apply read_only_host_listFiles|].
    intros j dir Hj. lia.
  - injection Hwalk as -> _. split; [done|]. split; [done|].
    intros dir Hdir. destruct (VFS.directories r); [|simpl in Hlen; lia].
    by apply elem_of_nil in Hdir.
Qed.

(** C7, as stated, fails: on a run scope holding one directory with one
    file in it, the recursive listing puts the nested file in [files] and
    the directory in [directories]; the directory is not in [files]. *)
Lemma listFiles_recursive_keeps_directories_apart :
  ∃ r,
    HostTools.listFiles 3 Fixture.vfs Fixture.list_all Fixture.nested
    = (Ok (Some (Success r)), Fixture.nested)
    ∧ VFS.files r = [Fixture.nested_file]
    ∧ VFS.directories r = [Fixture.nested_directory]
    ∧ Fixture.nested_directory ∉ VFS.files r.
Proof.
  eexists. split; [vm_compute; reflexivity|].
  split; [reflexivity|]. split; [reflexivity|].
  intros He. apply list_elem_of_singleton in He. discriminate He.
Qed.

(** The walk over the growing [directories] array lists a directory two
    levels down twice: once from the recursive call on its parent, once more
    after it has been appended to the outer result. *)
Example listFiles_recursive_repeats :
  ∃ r,
    HostTools.listFiles 4 Fixture.vfs Fixture.list_all Fixture.two_levels
    = (Ok (Some (Success r)), Fixture.two_levels)
    ∧ VFS.e_path <$> VFS.files r = ["/sub/deep/g.txt"; "/sub/deep/g.txt"]
    ∧ VFS.e_path <$> VFS.directories r = ["/sub"; "/sub/deep"].
Proof. eexists. split; [vm_compute; reflexivity|]. by split. Qed.

(** C7 (amended): with [recursive: true] the [listFiles] tool lists the
    directory, then lists in the same way every directory of the growing
    result and appends what it finds: the direct listing opens [files] and
    [directories], and for every directory of the final result the files
    and directories listed below it are part of them.  In particular, on a
    run scope that holds one directory with one file in it,
    [listFiles({path: "/", scope: "run", recursive: true})] returns the
    nested file in [files] and the directory in [directories]. *)
Theorem listFiles_recursive_collects :
  (∀ n,
     HostTools.listFiles (3 + n) Fixture.vfs Fixture.list_all Fixture.nested
     = (Ok (Some (Success
          {| VFS.l_path := JStr "/"; VFS.l_scope := JStr "run";
             VFS.files := [Fixture.nested_file];
             VFS.directories := [Fixture.nested_directory];
             VFS.total := 1 |})), Fixture.nested))
  ∧ ∀ fuel v ps st r st',
      falsy (or_default (JBool false) (param ps "recursive")) = false →
      HostTools.listFiles (S fuel) v ps st = (Ok (Some (Success r)), st') →
      st' = st
      ∧ ∃ direct,
          VFS.listFiles v (or_default (JStr "/") (param ps "path"))
            (or_default (JStr "run") (param ps "scope")) st = (Ok direct, st)
          ∧ VFS.files direct `prefix_of` VFS.files r
          ∧ VFS.directories direct `prefix_of` VFS.directories r
          ∧ ∀ dir, dir ∈ VFS.directories r →
              ∃ sub,
                HostTools.listFiles fuel v
                  (HostTools.sub_params dir
                     (or_default (JStr "run") (param ps "scope"))) st
                = (Ok (Some sub), st)
                ∧ ∀ found, sub = Success found →
                    VFS.files found ⊆ VFS.files r
                    ∧ VFS.directories found ⊆ VFS.directories r.
Proof.
  split.
  - intros n. vm_compute. reflexivity.
  - intros fuel v ps st r st' Hrec Hlist.
    exact (host_listFiles_recursive fuel v ps st r st' Hrec Hlist).
Qed.

Lemma listFiles_recursive_collects_witness :
  ∃ r,
    HostTools.listFiles 3 Fixture.vfs Fixture.list_all Fixture.nested
    = (Ok (Some (Success r)), Fixture.nested)
    ∧ Fixture.nested_file ∈ VFS.files r
    ∧ Fixture.nested_directory ∈ VFS.directories r
    ∧ ∀ dir, dir ∈ VFS.directories r →
        ∃ sub,
          HostTools.listFiles 2 Fixture.vfs
            (HostTools.sub_params dir (JStr "run")) Fixture.nested
          = (Ok (Some sub), Fixture.nested)
          ∧ ∀ found, sub = Success found →
              VFS.files found ⊆ VFS.files r
              ∧ VFS.directories found ⊆ VFS.directories r.
Proof.
  destruct listFiles_recursive_collects as [Hscenario Hgeneral].
  eexists. split; [exact (Hscenario 0)|].
  split; [apply list_elem_of_here|]. split; [apply list_elem_of_here|].
  destruct (Hgeneral 2 Fixture.vfs Fixture.list_all Fixture.nested _
              Fixture.nested eq_refl (Hscenario 0))
    as (_ & direct & _ & _ & _ & Hcovered).
  exact Hcovered.
Defined.

(** ** Path segments and normalisation *)

Lemma split_nonempty s : JS.split s ≠ [].
Proof. destruct s as [|c s]; simpl; [done|]. by repeat case_match. Qed.

Lemma split_slash s : JS.split (String "/" s) = "" :: JS.split s.
Proof. reflexivity. Qed.

Lemma split_append a b :
  JS.split (a +:+ "/" +:+ b) = JS.split a ++ JS.split b.
Proof.
  induction a as [|c a IH]; [done|].
  rewrite append_cons. simpl. rewrite IH.
  case_decide; [done|].
  destruct (JS.split a) as [|x xs] eqn:E; [by apply split_nonempty in E|done].
Qed.

Lemma split_segments s : Forall plain (JS.split s).
Proof.
  induction s as [|c s IH]; simpl.
  - by repeat constructor.
  - case_decide as Hc.
    + constructor; [done|exact IH].
    + destruct (JS.split s) as [|x xs] eqn:E; [by apply split_nonempty in E|].
      inversion_clear IH as [|?? Hx Hxs]. constructor; [|done].
      unfold plain in *. simpl. rewrite decide_False by done. by rewrite Hx.
Qed.

Lemma split_join l :
  l ≠ [] → Forall plain l → JS.split (JS.join "/" l) = l.
Proof.
  induction l as [|x l IH]; [done|]. intros _ Hl.
  inversion_clear Hl as [|?? Hx Hrest].
  destruct l as [|y l]; [exact Hx|].
  change (JS.join "/" (x :: y :: l)) with (x +:+ "/" +:+ JS.join "/" (y :: l)).
  rewrite split_append, Hx, IH by done. reflexivity.
Qed.

Lemma join_app l l' :
  l ≠ [] → l' ≠ [] →
  JS.join "/" (l ++ l') = JS.join "/" l +:+ "/" +:+ JS.join "/" l'.
Proof.
  intros Hl Hl'. induction l as [|x l IH]; [done|].
  destruct l as [|y l].
  - simpl. by destruct l'.
  - change (JS.join "/" ((x :: y :: l) ++ l'))
      with (x +:+ "/" +:+ JS.join "/" ((y :: l) ++ l')).
    rewrite IH by done.
    change (JS.join "/" (x :: y :: l)) with (x +:+ "/" +:+ JS.join "/" (y :: l)).
    by rewrite !append_assoc.
Qed.

Lemma normalize_render p :
  p ≠ "" →
  Path.normalize p
  = render (JS.startsWith p "/") (JS.endsWithSlash p)
      (fold_left (Path.step (negb (JS.startsWith p "/"))) (JS.split p) []).
Proof.
  intros Hp. unfold Path.normalize, Path.normalizeSegments, render.
  by rewrite decide_False by done.
Qed.

Lemma settled_nil allow : settled allow [].
Proof. by repeat split. Qed.

Lemma step_push allow kept seg :
  seg ≠ "" → seg ≠ "." → seg ≠ ".." →
  Path.step allow kept seg = seg :: kept.
Proof.
  intros H1 H2 H3. unfold Path.step.
  rewrite decide_False by (intros [?|?]; done). by rewrite decide_False.
Qed.

Lemma step_skip allow kept seg :
  seg = "" ∨ seg = "." → Path.step allow kept seg = kept.
Proof. intros H. unfold Path.step. by rewrite decide_True. Qed.

Lemma settled_step allow kept seg :
  plain seg → settled allow kept → settled allow (Path.step allow kept seg).
Proof.
  intros Hseg (Hplain & Hproper & Hreplay).
  unfold Path.step. case_decide as Hskip; [by repeat split|].
  assert (seg ≠ "" ∧ seg ≠ ".") as Hp by (split; intros ->; apply Hskip; auto).
  case_decide as Hdots.
  - subst seg. destruct kept as [|top below].
    + destruct allow; [|apply settled_nil]. by repeat split; repeat constructor.
    + case_decide as Htop.
      * destruct allow; [|by repeat split].
        split; [by constructor|]. split; [by constructor|].
        change (rev (".." :: top :: below)) with (rev (top :: below) ++ [".."]).
        rewrite fold_left_app, Hreplay. subst top. simpl.
        unfold Path.step at 1. simpl. reflexivity.
      * inversion_clear Hplain as [|?? Ht Hb]. inversion_clear Hproper as [|?? Ht' Hb'].
        split; [done|]. split; [done|].
        change (rev (top :: below)) with (rev below ++ [top]) in Hreplay.
        rewrite fold_left_app in Hreplay. simpl in Hreplay.
        rewrite step_push in Hreplay by tauto. congruence.
  - split; [by constructor|]. split; [by constructor|].
    change (rev (seg :: kept)) with (rev kept ++ [seg]).
    rewrite fold_left_app, Hreplay. simpl. apply step_push; tauto.
Qed.

Lemma settled_fold allow segs kept :
  Forall plain segs → settled allow kept →
  settled allow (fold_left (Path.step allow) segs kept).
Proof.
  revert kept. induction segs as [|seg segs IH]; intros kept Hsegs Hkept; [done|].
  inversion_clear Hsegs. simpl. apply IH; [done|]. by apply settled_step.
Qed.

Lemma plain_cons c s : plain (String c s) ↔ c ≠ "/"%char ∧ plain s.
Proof.
  unfold plain. simpl. case_decide as Hc.
  - split; [discriminate|]. by intros [? _].
  - destruct (JS.split s) as [|x xs] eqn:E; [by apply split_nonempty in E|].
    split.
    + intros [= -> ->]. done.
    + intros [_ [= -> ->]]. done.
Qed.

Lemma startsWith_cons c t :
  JS.startsWith (String c t) "/" = bool_decide (c = "/"%char).
Proof.
  simpl. case_decide as Hc.
  - subst c. by destruct t.
  - by rewrite bool_decide_false by (intros ->; by apply Hc).
Qed.

Lemma endsWithSlash_plain s : plain s → JS.endsWithSlash s = false.
Proof.
  induction s as [|c s IH]; [done|]. intros [Hc Hs]%plain_cons.
  simpl. destruct s; [by rewrite decide_False|]. by apply IH.
Qed.

Lemma endsWithSlash_append a b :
  b ≠ "" → JS.endsWithSlash (a +:+ b) = JS.endsWithSlash b.
Proof.
  intros Hb. induction a as [|c a IH]; [done|]. rewrite append_cons.
  simpl. destruct (a +:+ b) eqn:E; [|done].
  destruct a; [|discriminate E]. by destruct b.
Qed.

Lemma join_head c x xs : ∃ t, JS.join "/" (String c x :: xs) = String c t.
Proof. destruct xs; simpl; eauto. Qed.

Lemma join_last l x :
  Forall plain (l ++ [x]) → x ≠ "" →
  JS.endsWithSlash (JS.join "/" (l ++ [x])) = false.
Proof.
  intros Hl Hx. apply Forall_app in Hl as [_ Hxp].
  inversion_clear Hxp as [|?? Hxp' _].
  destruct l as [|y l]; [by apply endsWithSlash_plain|].
  rewrite join_app by done. rewrite <- append_assoc.
  rewrite endsWithSlash_append by done. by apply endsWithSlash_plain.
Qed.

(** The shape of a non-empty rendered path *)
Lemma render_shape abs kept :
  settled (negb abs) kept → kept ≠ [] →
  ∃ c t,
    render abs false kept = String c t
    ∧ bool_decide (c = "/"%char) = abs
    ∧ render abs false kept
      = (if abs then "/" else "") +:+ JS.join "/" (rev kept)
    ∧ JS.join "/" (rev kept) ≠ ""
    ∧ JS.split (render abs false kept) = (if abs then [""] else []) ++ rev kept
    ∧ JS.endsWithSlash (render abs false kept) = false.
Proof.
  intros (Hplain & Hproper & _) Hne.
  assert (rev kept ≠ []) as Hrev.
  { intros E. apply (f_equal (@rev _)) in E. rewrite rev_involutive in E. done. }
  assert (Forall plain (rev kept)) as Hplain' by by apply Forall_rev.
  assert (Forall (λ s, s ≠ "" ∧ s ≠ ".") (rev kept)) as Hproper'
    by by apply Forall_rev.
  assert (JS.endsWithSlash (JS.join "/" (rev kept)) = false) as Hend.
  { destruct kept as [|x kept']; [done|].
    inversion Hproper as [|?? [Hx _] _]; subst.
    change (rev (x :: kept')) with (rev kept' ++ [x]) in *.
    by apply join_last. }
  destruct (rev kept) as [|[|c0 x] xs] eqn:E; [done| |].
  { inversion_clear Hproper' as [|?? [H _] _]. done. }
  destruct (join_head c0 x xs) as [t Ht].
  assert (c0 ≠ "/"%char) as Hc0.
  { inversion_clear Hplain' as [|?? Hhead _]. by apply plain_cons in Hhead as [? _]. }
  assert (render abs false kept
          = (if abs then "/" else "") +:+ JS.join "/" (rev kept)) as Hrender.
  { unfold render. rewrite E, Ht. rewrite decide_False by done.
    by rewrite append_nil_r. }
  rewrite Hrender, E, Ht. destruct abs.
  - exists "/"%char, (String c0 t). repeat split; try done.
    + rewrite append_cons, append_nil_l, split_slash, <- Ht.
      by rewrite split_join.
    + rewrite endsWithSlash_append by done. by rewrite <- Ht.
  - exists c0, t. rewrite append_nil_l. repeat split; try done.
    + by rewrite bool_decide_false.
    + rewrite <- Ht. by rewrite split_join.
    + by rewrite <- Ht.
Qed.

Lemma startsWith_append a b : JS.startsWith (a +:+ b) a = true.
Proof.
  induction a as [|c a IH]; [by destruct b|].
  rewrite append_cons. simpl. by rewrite decide_True.
Qed.

Lemma startsWith_longer a b : b ≠ "" → JS.startsWith a (a +:+ b) = false.
Proof.
  intros Hb. induction a as [|c a IH]; [by destruct b|].
  rewrite append_cons. simpl. by rewrite decide_True.
Qed.

Lemma fold_skip_root allow abs kept segs :
  settled allow kept →
  fold_left (Path.step allow) (((if abs : bool then [""] else []) ++ rev kept) ++ segs) []
  = fold_left (Path.step allow) segs kept.
Proof.
  intros (_ & _ & Hreplay). rewrite !fold_left_app.
  destruct abs; cbn [fold_left]; [rewrite step_skip by by left|];
    by rewrite Hreplay.
Qed.

Lemma normalize_below abs kept q :
  settled (negb abs) kept → kept ≠ [] →
  Path.normalize (render abs false kept +:+ "/" +:+ q)
  = render abs (JS.endsWithSlash (render abs false kept +:+ "/" +:+ q))
      (fold_left (Path.step (negb abs)) (JS.split q) kept).
Proof.
  intros Hkept Hne.
  destruct (render_shape abs kept Hkept Hne) as (c & t & Hct & Habs & _ & _ & Hsplit & _).
  rewrite normalize_render by (rewrite Hct; done).
  rewrite split_append, Hsplit.
  assert (JS.startsWith (render abs false kept +:+ "/" +:+ q) "/" = abs) as ->.
  { rewrite Hct, append_cons. by rewrite startsWith_cons. }
  by rewrite fold_skip_root.
Qed.

Lemma normalize_root abs kept :
  settled (negb abs) kept → kept ≠ [] →
  Path.normalize (render abs false kept) = render abs false kept.
Proof.
  intros Hkept Hne.
  destruct (render_shape abs kept Hkept Hne) as (c & t & Hct & Habs & _ & _ & Hsplit & Hend).
  rewrite normalize_render by (rewrite Hct; done).
  rewrite Hsplit, Hend.
  assert (JS.startsWith (render abs false kept) "/" = abs) as ->.
  { rewrite Hct. by rewrite startsWith_cons. }
  rewrite <- (app_nil_r (_ ++ rev kept)). by rewrite fold_skip_root.
Qed.

(** A path joined from arguments the last of which is a proper name *)
Lemma join_leaf args leaf :
  plain leaf → leaf ≠ "" → leaf ≠ "." → leaf ≠ ".." →
  ∃ abs below,
    Path.join (args ++ [leaf]) = render abs false (leaf :: below)
    ∧ settled (negb abs) (leaf :: below).
Proof.
  intros Hplain H1 H2 H3. unfold Path.join.
  rewrite filter_app, filter_cons, filter_nil. rewrite decide_True by done.
  set (parts := filter (λ a, a ≠ "") args).
  assert (∃ segs, JS.split (JS.join "/" (parts ++ [leaf])) = segs ++ [leaf]
                  ∧ Forall plain segs
                  ∧ JS.endsWithSlash (JS.join "/" (parts ++ [leaf])) = false
                  ∧ JS.join "/" (parts ++ [leaf]) ≠ "") as (segs & Hsplit & Hsegs & Hend & Hne).
  { destruct parts as [|x parts'] eqn:E.
    - exists []. repeat split; try done. by apply endsWithSlash_plain.
    - rewrite <- E. rewrite join_app by (rewrite ?E; done).
      change (JS.join "/" [leaf]) with leaf.
      exists (JS.split (JS.join "/" parts)).
      rewrite split_append. rewrite (Hplain : JS.split leaf = [leaf]).
      split; [done|]. split; [apply split_segments|].
      split.
      + rewrite <- append_assoc. rewrite endsWithSlash_append by done.
        by apply endsWithSlash_plain.
      + intros Hnil. destruct (JS.join "/" parts); discriminate Hnil. }
  destruct (parts ++ [leaf]) as [|x l] eqn:E; [by destruct parts|].
  rewrite <- E in *. rewrite normalize_render by done.
  rewrite Hsplit, Hend, fold_left_app. simpl.
  rewrite step_push by done.
  eexists _, _. split; [reflexivity|].
  match goal with
  | |- settled ?allow (leaf :: ?below) =>
      rewrite <- (step_push allow below leaf) by done
  end.
  apply settled_step; [done|].
  apply settled_fold; [done|apply settled_nil].
Qed.

Lemma settled_tail allow leaf below :
  leaf ≠ ".." → settled allow (leaf :: below) → settled allow below.
Proof.
  intros Hleaf (Hplain & Hproper & Hreplay).
  inversion_clear Hplain. inversion_clear Hproper as [|?? [H1 H2] ?].
  repeat split; try done.
  change (rev (leaf :: below)) with (rev below ++ [leaf]) in Hreplay.
  rewrite fold_left_app in Hreplay. simpl in Hreplay.
  rewrite step_push in Hreplay by done. congruence.
Qed.

Lemma fold_no_dotdot allow segs kept :
  ".." ∉ segs → ∃ more, fold_left (Path.step allow) segs kept = more ++ kept.
Proof.
  revert kept. induction segs as [|seg segs IH]; intros kept Hsegs.
  - by exists [].
  - apply not_elem_of_cons in Hsegs as [Hseg Hsegs]. simpl.
    destruct (decide (seg = "" ∨ seg = ".")) as [Hskip|Hkeep].
    + rewrite step_skip by done. by apply IH.
    + rewrite step_push by (try done; intros ->; apply Hkeep; auto).
      destruct (IH (seg :: kept) Hsegs) as [more Hmore].
      exists (more ++ [seg]). by rewrite Hmore, <- app_assoc.
Qed.

Lemma render_extends abs trailing more kept :
  settled (negb abs) kept → kept ≠ [] →
  JS.startsWith (render abs trailing (more ++ kept)) (render abs false kept) = true.
Proof.
  intros Hkept Hne.
  destruct (render_shape abs kept Hkept Hne) as (c & t & _ & _ & -> & Hres & _).
  unfold render. rewrite rev_app_distr.
  assert (rev kept ≠ []) as Hrev.
  { intros E. apply (f_equal (@rev _)) in E. by rewrite rev_involutive in E. }
  destruct (decide (rev more = [])) as [->|Hmore].
  - rewrite app_nil_r, decide_False by done.
    rewrite <- append_assoc. apply startsWith_append.
  - rewrite join_app by done. rewrite decide_False.
    + rewrite append_assoc, <- (append_assoc (if abs then "/" else "")).
      apply startsWith_append.
    + intros E. destruct (JS.join "/" (rev kept)); [done|discriminate E].
Qed.

Lemma render_parent abs leaf below :
  leaf ≠ ".." → settled (negb abs) (leaf :: below) →
  JS.startsWith (render abs false below) (render abs false (leaf :: below)) = false.
Proof.
  intros Hleaf Hkept.
  destruct (render_shape abs (leaf :: below) Hkept) as (c & t & _ & _ & -> & _);
    [done|].
  pose proof (settled_tail _ _ _ Hleaf Hkept) as Hbelow.
  destruct Hkept as (_ & Hproper & _).
  inversion_clear Hproper as [|?? [H1 H2] _].
  destruct below as [|x below].
  - unfold render. simpl. destruct abs.
    + apply (startsWith_longer "/"). done.
    + rewrite append_nil_l. destruct leaf as [|c' [|c'' l]]; simpl; try done;
        by repeat case_decide; subst.
  - destruct (render_shape abs (x :: below) Hbelow) as (_ & _ & _ & _ & -> & _);
      [done|].
    change (rev (leaf :: x :: below)) with (rev (x :: below) ++ [leaf]).
    rewrite join_app; [|simpl; by destruct (rev below)|done].
    rewrite <- append_assoc. apply startsWith_longer. done.
Qed.

Lemma scope_root_shape v s root :
  VFS.scopes v s = VFS.Own root →
  ∃ abs leaf below,
    root = render abs false (leaf :: below)
    ∧ settled (negb abs) (leaf :: below)
    ∧ leaf ≠ ".."
    ∧ dotty leaf = false.
Proof.
  unfold VFS.scopes. repeat case_decide; intros [= <-].
  - destruct (join_leaf [VFS.ecosystemPath v; "tasks"; VFS.taskId v; "runs";
                         VFS.runId v] "fs") as (abs & below & Hroot & Hsettled);
      try done.
    by exists abs, "fs", below.
  - destruct (join_leaf [VFS.ecosystemPath v; "tasks"; VFS.taskId v] "fs")
      as (abs & below & Hroot & Hsettled); try done.
    by exists abs, "fs", below.
  - destruct (join_leaf [VFS.ecosystemPath v; "vfs"] "global")
      as (abs & below & Hroot & Hsettled); try done.
    by exists abs, "global", below.
Qed.

(** ** Path resolution *)

Lemma resolvePath_concrete v s p root :
  VFS.scopes v s = VFS.Own root → JS.trim p ≠ "" →
  VFS._resolvePath v (JStr p) (JStr s)
  = let joined := Path.join [root; if JS.startsWith p "/" then JS.slice1 p else p] in
    if JS.startsWith joined root then Ok joined
    else Throw (VFS.path_traversal p).
Proof.
  intros Hroot Hp. unfold VFS._resolvePath. cbn [or_default toString].
  rewrite Hroot. destruct p as [|c p]; [done|]. cbn [falsy].
  rewrite decide_False by done. cbn zeta.
  by destruct (JS.startsWith (Path.join _) root).
Qed.

Lemma join_under_root abs leaf below q :
  settled (negb abs) (leaf :: below) →
  Path.join [render abs false (leaf :: below); q]
  = if decide (q = "") then render abs false (leaf :: below)
    else render abs (JS.endsWithSlash (render abs false (leaf :: below) +:+ "/" +:+ q))
           (fold_left (Path.step (negb abs)) (JS.split q) (leaf :: below)).
Proof.
  intros Hkept.
  destruct (render_shape abs (leaf :: below) Hkept) as (c & t & Hct & _); [done|].
  unfold Path.join. rewrite !filter_cons, filter_nil.
  rewrite decide_True by (rewrite Hct; done).
  destruct (decide (q = "")) as [->|Hq].
  - rewrite decide_False by (intros H; by apply H).
    change (JS.join "/" [render abs false (leaf :: below)])
      with (render abs false (leaf :: below)).
    by apply normalize_root.
  - rewrite decide_True by done.
    change (JS.join "/" [render abs false (leaf :: below); q])
      with (render abs false (leaf :: below) +:+ "/" +:+ q).
    by apply normalize_below.
Qed.


(** The containment check compares strings: a path that climbs out of the
    root into a directory whose name extends the name of the root passes
    it. *)
Example resolvePath_sibling_name :
  VFS._resolvePath Fixture.vfs (JStr "../fs2/b") (JStr "run")
  = Ok "/eco/tasks/t1/runs/r1/fs2/b".
Proof. vm_compute. reflexivity. Qed.



(** ** The directory of a rendered path *)

Lemma rev_app_append a b : String.rev_app a b = String.rev a +:+ b.
Proof.
  revert b. induction a as [|c a IH]; intros b; [done|].
  unfold String.rev. simpl. rewrite !IH. by rewrite append_assoc.
Qed.

Lemma rev_cons c a : String.rev (String c a) = String.rev a +:+ String c "".
Proof. unfold String.rev at 1. simpl. by rewrite rev_app_append. Qed.

Lemma rev_append a b : String.rev (a +:+ b) = String.rev b +:+ String.rev a.
Proof.
  induction a as [|c a IH].
  - by rewrite append_nil_l, append_nil_r.
  - rewrite append_cons, !rev_cons, IH. by rewrite append_assoc.
Qed.

Lemma rev_rev a : String.rev (String.rev a) = a.
Proof.
  induction a as [|c a IH]; [done|]. by rewrite rev_cons, rev_append, IH.
Qed.

Lemma plain_append a b : plain (a +:+ b) ↔ plain a ∧ plain b.
Proof.
  induction a as [|c a IH].
  - rewrite append_nil_l. split; [by split|by intros [_ ?]].
  - rewrite append_cons, !plain_cons, IH. tauto.
Qed.

Lemma plain_rev a : plain a → plain (String.rev a).
Proof.
  induction a as [|c a IH]; [done|]. intros [Hc Ha]%plain_cons.
  rewrite rev_cons. apply plain_append. split; [by apply IH|].
  by apply plain_cons.
Qed.

Lemma rev_nonempty a : a ≠ "" → String.rev a ≠ "".
Proof.
  intros Ha Hrev. apply Ha. by rewrite <- (rev_rev a), Hrev.
Qed.

Lemma dropSlashes_plain s : plain s → Path.dropSlashes s = s.
Proof.
  destruct s as [|c s]; [done|]. intros [Hc _]%plain_cons. simpl.
  by rewrite decide_False.
Qed.

Lemma afterSlash_plain s : plain s → Path.afterSlash s = None.
Proof.
  induction s as [|c s IH]; [done|]. intros [Hc Hs]%plain_cons. simpl.
  rewrite decide_False by done. by apply IH.
Qed.

Lemma afterSlash_append a b :
  plain a → Path.afterSlash (a +:+ "/" +:+ b) = Some b.
Proof.
  induction a as [|c a IH]; [done|]. intros [Hc Ha]%plain_cons.
  rewrite append_cons. simpl. rewrite decide_False by done. by apply IH.
Qed.

Lemma dropSlashes_append a b :
  plain a → a ≠ "" → Path.dropSlashes (a +:+ b) = a +:+ b.
Proof.
  destruct a as [|c a]; [done|]. intros [Hc _]%plain_cons _.
  rewrite append_cons. simpl. by rewrite decide_False.
Qed.

Lemma dirname_segment x : plain x → x ≠ "" → Path.dirname x = ".".
Proof.
  destruct x as [|c body]; [done|]. intros [Hc Hbody]%plain_cons _.
  unfold Path.dirname.
  rewrite dropSlashes_plain, afterSlash_plain by by apply plain_rev.
  by rewrite bool_decide_false.
Qed.

Lemma dirname_root_segment x : plain x → Path.dirname ("/" +:+ x) = "/".
Proof.
  intros Hx. rewrite append_cons, append_nil_l. unfold Path.dirname.
  by rewrite dropSlashes_plain, afterSlash_plain by by apply plain_rev.
Qed.

Lemma dirname_below c0 b x :
  plain x → x ≠ "" → (c0 = "/"%char → b ≠ "") →
  Path.dirname (String c0 b +:+ "/" +:+ x) = String c0 b.
Proof.
  intros Hx Hne Hb. rewrite append_cons. unfold Path.dirname.
  rewrite rev_append, (rev_append "/" x), append_assoc.
  change (String.rev "/") with "/".
  rewrite dropSlashes_append by (by apply plain_rev || by apply rev_nonempty).
  rewrite afterSlash_append by by apply plain_rev.
  rewrite rev_rev. case_bool_decide as Hc; [|done].
  rewrite bool_decide_false; [done|].
  intros Hrev. apply (Hb Hc). by rewrite <- (rev_rev b), Hrev.
Qed.

Lemma dirname_render abs x rest :
  x ≠ ".." → settled (negb abs) (x :: rest) →
  Path.dirname (render abs false (x :: rest)) = render abs false rest.
Proof.
  intros Hx Hkept.
  destruct (render_shape abs (x :: rest) Hkept) as (_ & _ & _ & _ & -> & _); [done|].
  pose proof (settled_tail _ _ _ Hx Hkept) as Hrest.
  destruct Hkept as (Hplain & Hproper & _).
  inversion_clear Hplain as [|?? Hxp _]. inversion_clear Hproper as [|?? [Hxn _] _].
  destruct rest as [|y rest].
  - simpl. unfold render. simpl. destruct abs.
    + by apply dirname_root_segment.
    + rewrite append_nil_l. by apply dirname_segment.
  - destruct (render_shape abs (y :: rest) Hrest)
      as (c & t & Hct & Habs & Hrender & Hres & _); [done|].
    change (rev (x :: y :: rest)) with (rev (y :: rest) ++ [x]).
    rewrite join_app; [|simpl; by destruct (rev rest)|done].
    change (JS.join "/" [x]) with x.
    rewrite <- append_assoc, <- Hrender, Hct.
    apply dirname_below; [done|done|].
    intros ->. rewrite Hct in Hrender. destruct abs; [|done].
    rewrite append_cons, append_nil_l in Hrender. injection Hrender as ->. done.
Qed.

(** ** Where a resolved path leads *)

Lemma fold_step_length allow segs kept :
  length (fold_left (Path.step allow) segs kept) ≤ length segs + length kept.
Proof.
  revert kept. induction segs as [|seg segs IH]; intros kept; simpl; [lia|].
  etrans; [apply IH|].
  assert (length (Path.step allow kept seg) ≤ S (length kept)); [|lia].
  unfold Path.step. repeat case_match; simpl; lia.
Qed.

Lemma settled_dots allow rest :
  settled allow (".." :: rest) → Forall (λ s, s = "..") rest.
Proof.
  induction rest as [|y rest IH]; [done|].
  intros (Hplain & Hproper & Hreplay).
  change (rev (".." :: y :: rest)) with (rev (y :: rest) ++ [".."]) in Hreplay.
  rewrite fold_left_app in Hreplay. cbn [fold_left] in Hreplay.
  pose proof (fold_step_length allow (rev (y :: rest)) []) as Hlen.
  rewrite length_rev in Hlen.
  destruct (fold_left (Path.step allow) (rev (y :: rest)) []) as [|top bl] eqn:E.
  - unfold Path.step in Hreplay. simpl in Hreplay. by destruct allow.
  - unfold Path.step in Hreplay.
    rewrite decide_False in Hreplay by (intros [?|?]; done).
    rewrite decide_True in Hreplay by done.
    case_decide as Htop.
    + destruct allow.
      * injection Hreplay as -> ->. constructor; [done|]. apply IH.
        inversion_clear Hplain. inversion_clear Hproper. subst y.
        repeat split; try done.
      * injection Hreplay as -> ->. simpl in Hlen. lia.
    + subst bl. simpl in Hlen. lia.
Qed.

Lemma dotty_append a b : dotty (a +:+ b) = dotty a && dotty b.
Proof.
  induction a as [|c a IH]; [done|]. rewrite append_cons. simpl.
  rewrite IH. by rewrite andb_assoc.
Qed.

Lemma dotty_join l : Forall (λ s, s = "..") l → dotty (JS.join "/" l) = true.
Proof.
  induction l as [|x l IH]; [done|]. intros Hl.
  inversion_clear Hl as [|?? -> Hrest]. destruct l as [|y l]; [done|].
  change (JS.join "/" (".." :: y :: l)) with (".." +:+ "/" +:+ JS.join "/" (y :: l)).
  rewrite !dotty_append, IH by done. reflexivity.
Qed.

Lemma dotty_prefix s p : JS.startsWith s p = true → dotty s = true → dotty p = true.
Proof.
  revert s. induction p as [|a p IH]; intros s; [done|].
  destruct s as [|b s]; [done|]. simpl. case_decide as Hab; [|done]. subst b.
  intros Hp [-> Hs]%andb_true_iff. simpl. by eapply IH.
Qed.

Lemma dotty_render abs trailing kept :
  Forall (λ s, s = "..") kept → dotty (render abs trailing kept) = true.
Proof.
  intros Hkept. unfold render. case_decide.
  - by destruct abs, trailing.
  - rewrite !dotty_append, dotty_join by by apply Forall_rev.
    by destruct abs, trailing.
Qed.

Lemma dotty_root abs leaf below :
  settled (negb abs) (leaf :: below) →
  dotty (render abs false (leaf :: below)) = true → dotty leaf = true.
Proof.
  intros Hkept.
  destruct (render_shape abs (leaf :: below) Hkept) as (_ & _ & _ & _ & -> & _);
    [done|].
  rewrite dotty_append. intros [_ Hjoin]%andb_true_iff.
  change (rev (leaf :: below)) with (rev below ++ [leaf]) in Hjoin.
  destruct (rev below) as [|y l]; [done|].
  rewrite join_app in Hjoin by done. rewrite !dotty_append in Hjoin.
  by apply andb_true_iff in Hjoin as [_ [_ ?]%andb_true_iff].
Qed.

Lemma resolvePath_ok_inv v filepath scope fullPath :
  VFS._resolvePath v filepath scope = Ok fullPath →
  ∃ p, filepath = JStr p ∧ JS.trim p ≠ "".
Proof.
  unfold VFS._resolvePath.
  destruct (VFS.scopes v _); [| |discriminate];
    destruct (falsy filepath); try discriminate;
    destruct filepath as [| | |p| |]; try discriminate;
    case_decide; try discriminate; eauto.
Qed.

Lemma resolved_shape v s filepath fullPath :
  s ∈ concrete_scopes →
  VFS._resolvePath v filepath (JStr s) = Ok fullPath →
  JS.endsWithSlash fullPath = false →
  ∃ abs x rest,
    fullPath = render abs false (x :: rest)
    ∧ settled (negb abs) (x :: rest)
    ∧ x ≠ "..".
Proof.
  intros Hs Hres Hend.
  destruct (resolvePath_ok_inv _ _ _ _ Hres) as (p & -> & Hp).
  destruct (scopes_concrete v s Hs) as [root Hroot].
  rewrite (resolvePath_concrete v s p root Hroot Hp) in Hres. cbn zeta in Hres.
  destruct (JS.startsWith (Path.join _) root) eqn:Hstarts; [|discriminate].
  injection Hres as <-.
  destruct (scope_root_shape v s root Hroot)
    as (abs & leaf & below & -> & Hkept & Hleaf & Hletters).
  rewrite join_under_root in * by done.
  case_decide as Hq; [by exists abs, leaf, below|].
  set (kept := fold_left (Path.step (negb abs)) (JS.split _) (leaf :: below)) in *.
  assert (settled (negb abs) kept) as Hsettled
    by (apply settled_fold; [apply split_segments|done]).
  assert (∀ trailing, Forall (λ s, s = "..") kept →
            JS.startsWith (render abs trailing kept)
              (render abs false (leaf :: below)) = true → False) as Hdots.
  { intros trailing Hall Hpre.
    apply dotty_prefix in Hpre; [|by apply dotty_render].
    apply dotty_root in Hpre; [congruence|done]. }
  destruct kept as [|x rest] eqn:Ekept; [by edestruct Hdots|].
  destruct (decide (x = "..")) as [->|Hx].
  { edestruct Hdots; [|exact Hstarts]. constructor; [done|].
    by eapply settled_dots. }
  exists abs, x, rest. split; [|done].
  destruct (JS.endsWithSlash (render abs false (leaf :: below) +:+ _)); [|done].
  exfalso. destruct (render_shape abs (x :: rest) Hsettled) as (_ & _ & _ & _ & _ & Hne & _);
    [done|].
  unfold render in Hend. rewrite decide_False in Hend by done.
  rewrite <- append_assoc in Hend. by rewrite endsWithSlash_append in Hend.
Qed.

Lemma locate_render st abs kept :
  settled (negb abs) kept →
  Disk.locate st (render abs false kept)
  = rev (fold_left (Path.step false) (rev kept)
           (fold_left (Path.step false) (if abs then [] else cwd st) [])).
Proof.
  intros Hkept. unfold Disk.locate, Path.normalizeSegments. f_equal.
  destruct kept as [|x rest].
  - unfold render. simpl. destruct abs; simpl; [done|].
    rewrite fold_left_app. simpl. by rewrite step_skip by by right.
  - destruct (render_shape abs (x :: rest) Hkept)
      as (c & t & Hct & Habs & _ & _ & Hsplit & _); [done|].
    rewrite Hsplit. rewrite Hct, startsWith_cons, Habs.
    rewrite !fold_left_app. destruct abs; [|done].
    cbn [fold_left app]. by rewrite step_skip by by left.
Qed.

Lemma locate_dirname st abs x rest :
  x ≠ ".." → settled (negb abs) (x :: rest) →
  Disk.locate st (render abs false (x :: rest))
  = Disk.locate st (Path.dirname (render abs false (x :: rest))) ++ [x].
Proof.
  intros Hx Hkept. rewrite dirname_render by done.
  rewrite !locate_render by (done || by eapply settled_tail).
  change (rev (x :: rest)) with (rev rest ++ [x]).
  rewrite fold_left_app. cbn [fold_left].
  destruct Hkept as (_ & Hproper & _). inversion_clear Hproper as [|?? [??] _].
  by rewrite step_push.
Qed.

(** ** When a write goes through *)

Lemma ancestors_length k q : q ∈ Disk.ancestors k → length q ≤ length k.
Proof.
  revert q. induction k as [|x k IH]; intros q; simpl.
  - intros ->%list_elem_of_singleton. done.
  - intros [->|Hq]%elem_of_cons; [simpl; lia|].
    apply list_elem_of_fmap in Hq as (q' & -> & Hq'). simpl.
    apply IH in Hq'. lia.
Qed.

Lemma ensure_directory dir st :
  (∀ q, q ∈ Disk.ancestors (Disk.locate st dir) →
        Disk.is_file (nodes st !! q) = false) →
  ∃ st1,
    (if bool_decide (is_Some (Disk.lookup st dir))
     then ret tt else Disk.mkdir_recursive dir) st = (Ok tt, st1)
    ∧ cwd st1 = cwd st
    ∧ nodes st1 !! Disk.locate st dir = Some Dir
    ∧ ∀ k, k ∉ Disk.ancestors (Disk.locate st dir) → nodes st1 !! k = nodes st !! k.
Proof.
  intros Hway.
  pose proof (Hway _ (ancestors_self _)) as Hself.
  case_bool_decide as Hfound.
  - exists st. repeat split; try done.
    destruct Hfound as [n Hn]. unfold Disk.lookup in Hn.
    destruct (nodes st !! Disk.locate st dir) as [[data|]|]; done.
  - rewrite mkdir_recursive_clear by done. eexists. repeat split.
    + simpl. rewrite lookup_make_dirs. by rewrite decide_True by apply ancestors_self.
    + intros k Hk. simpl. rewrite lookup_make_dirs. by rewrite decide_False.
Qed.

Lemma disk_writeFile_admitted p data st :
  JS.endsWithSlash p = false →
  Disk.locate st p ≠ [] →
  nodes st !! Disk.locate st p ≠ Some Dir →
  nodes st !! Disk.parent (Disk.locate st p) = Some Dir →
  Disk.writeFile p data st
  = (Ok tt, with_nodes <[Disk.locate st p := File data]> st).
Proof.
  intros Hslash Hk Htarget Hparent. unfold Disk.writeFile.
  rewrite Hslash, Hparent.
  destruct (Disk.locate st p) as [|x k]; [done|].
  by destruct (nodes st !! (x :: k)) as [[?|]|].
Qed.

Lemma writeFile_succeeds v filepath content s st fullPath data :
  s ∈ concrete_scopes →
  VFS._resolvePath v filepath (JStr s) = Ok fullPath →
  written content = Ok data →
  JS.endsWithSlash fullPath = false →
  nodes st !! Disk.locate st fullPath ≠ Some Dir →
  (∀ q, q ∈ Disk.ancestors (Disk.parent (Disk.locate st fullPath)) →
        Disk.is_file (nodes st !! q) = false) →
  ∃ st',
    VFS.writeFile v filepath content (JStr s) false st
    = (Ok {| VFS.wr_path := filepath; VFS.wr_scope := JStr s;
             VFS.wr_size := String.length data;
             VFS.wr_fullPath := fullPath |}, st').
Proof.
  intros Hs Hres Hdata Hslash Htarget Hway.
  destruct (resolved_shape v s filepath fullPath Hs Hres Hslash)
    as (abs & x & rest & -> & Hkept & Hx).
  pose proof (locate_dirname st abs x rest Hx Hkept) as Hlocate.
  set (fullPath := render abs false (x :: rest)) in *.
  set (dir := Path.dirname fullPath) in *.
  assert (Disk.parent (Disk.locate st fullPath) = Disk.locate st dir) as Hparent.
  { rewrite Hlocate. unfold Disk.parent. by rewrite removelast_last. }
  rewrite Hparent in Hway.
  destruct (ensure_directory dir st Hway) as (st1 & Hdir & Hcwd & Hdir1 & Hrest).
  assert (∀ p, Disk.locate st1 p = Disk.locate st p) as Hloc
    by (intros p; unfold Disk.locate; by rewrite Hcwd).
  assert (nodes st1 !! Disk.locate st fullPath = nodes st !! Disk.locate st fullPath)
    as Hsame.
  { apply Hrest. intros Hin%ancestors_length.
    rewrite Hlocate, length_app in Hin. simpl in Hin. lia. }
  eexists. unfold VFS.writeFile. cbn [or_default].
  erewrite try_catch_ok; [reflexivity|].
  erewrite bind_ok; [|unfold lift; by rewrite Hres].
  fold fullPath dir.
  erewrite bind_ok; [|apply existsSync_spec].
  erewrite bind_ok; [|exact Hdir].
  erewrite bind_ok; [|apply existsSync_spec].
  cbn [andb].
  erewrite bind_ok; [|reflexivity].
  erewrite bind_ok; [|unfold lift; by rewrite <- Hdata].
  erewrite bind_ok;
    [|apply disk_writeFile_admitted; rewrite ?Hloc, ?Hsame, ?Hparent; try done;
      rewrite Hlocate; by destruct (Disk.locate st dir)].
  erewrite bind_ok; [|unfold Disk.stat; by rewrite lookup_written].
  erewrite bind_ok; [|reflexivity].
  reflexivity.
Qed.



(** * Further properties of the code *)

(** ** Tool calls that carry their required parameters *)

Lemma guarded_cases {A} tool path scope (op : M A) st :
  ∃ e st',
    HostTools.guarded tool path scope op st = (Ok e, st')
    ∧ ∀ f, e = Failure f →
        f_tool f = tool ∧ f_path f = path ∧ f_scope f = scope.
Proof.
  unfold HostTools.guarded, try_catch, bind, ret.
  destruct (op st) as [[a|e] st1]; eexists _, _; (split; [reflexivity|]).
  - intros f [=].
  - by intros f [= <-].
Qed.

(** A call that carries the required parameters of its tool never rejects:
    it resolves to the result of the operation or to a failure envelope (or,
    for [watchFile], stays suspended); a failure envelope names the tool and
    echoes the [path] parameter and the scope the call worked in. *)
Theorem call_with_parameters_resolves t v ps st :
  absent ps (required t) = [] →
  ∃ val st',
    HostTools.call t v ps st = (Ok val, st')
    ∧ ∀ f, failure_of val = Some f →
        f_tool f = HostTools.tool_name t
        ∧ f_path f = param ps "path"
        ∧ f_scope f = scope_of t ps.
Proof.
  intros Hreq.
  destruct t; simpl;
    unfold HostTools.writeFile, HostTools.readFile, HostTools.deleteFile,
      HostTools.fileExists, HostTools.fileStat, HostTools.mkdir,
      HostTools.watchFile;
    unfold bind at 1; rewrite validated by done.
  1-6: match goal with
       | |- context [HostTools.guarded ?tool ?path ?scope ?op ?s] =>
           destruct (guarded_cases tool path scope op s) as (e & st' & -> & He)
       end;
       eexists _, st'; (split; [reflexivity|]);
       intros f Hf; simpl in Hf; destruct e; [discriminate|];
       injection Hf as ->; by apply He.
  unfold try_catch, bind.
  destruct (VFS.watch v _ _ _ st) as [[w|e] st1]; eexists _, _;
    (split; [reflexivity|]); simpl; [discriminate|].
  by intros f [= <-].
Qed.

Lemma call_with_parameters_resolves_witness :
  ∃ val st',
    HostTools.call HostTools.DeleteFile Fixture.vfs
      (Fixture.object [("path", JStr "nothing"); ("scope", JStr "global")])
      Fixture.fresh = (Ok val, st')
    ∧ ∀ f, failure_of val = Some f →
        f_tool f = "deleteFile" ∧ f_path f = JStr "nothing"
        ∧ f_scope f = JStr "global".
Proof.
  exact (call_with_parameters_resolves HostTools.DeleteFile Fixture.vfs
           (Fixture.object [("path", JStr "nothing"); ("scope", JStr "global")])
           Fixture.fresh eq_refl).
Defined.

(** ** Operations that only look *)

Lemma read_only_sum_items self dirPath items size :
  (∀ p, read_only (self p)) → read_only (VFS.sum_items self dirPath items size).
Proof.
  intros Hself. revert size.
  induction items as [|item rest IH]; intros size; simpl; [apply read_only_ret|].
  destruct (Disk.entryIsDirectory item).
  - apply read_only_bind; [apply Hself|]. intros [n|]; [apply IH|apply read_only_ret].
  - apply read_only_bind; [apply read_only_stat|]. intros stat. apply IH.
Qed.

Lemma read_only_getDirectorySize fuel dirPath :
  read_only (VFS._getDirectorySize fuel dirPath).
Proof.
  revert dirPath. induction fuel as [|fuel IH]; intros dirPath; simpl;
    [apply read_only_ret|].
  apply read_only_bind; [apply read_only_existsSync|]. intros found.
  destruct (negb found); [apply read_only_ret|].
  apply read_only_bind; [apply read_only_readdir|]. intros items.
  by apply read_only_sum_items.
Qed.

Lemma read_only_getVFSTree fuel v : read_only (VFS.getVFSTree fuel v).
Proof.
  unfold VFS.getVFSTree. generalize (@nil VFS.tree_entry).
  induction (VFS.scope_entries v) as [|[scopeName scopePath] rest IH];
    intros tree; simpl; [apply read_only_ret|].
  apply read_only_bind; [apply read_only_existsSync|]. intros found.
  apply read_only_bind; [apply read_only_getDirectorySize|].
  intros [n|]; [apply IH|apply read_only_ret].
Qed.

Lemma read_only_vfsTree fuel v : read_only (HostTools.vfsTree fuel v).
Proof.
  unfold HostTools.vfsTree.
  apply read_only_try_catch; [|intros; apply read_only_ret].
  apply read_only_bind; [apply read_only_getVFSTree|]. intros. apply read_only_ret.
Qed.

Lemma read_only_exists v filepath scope : read_only (VFS.exists_ v filepath scope).
Proof. intros st. by rewrite exists_spec. Qed.

Lemma read_only_vfs_stat v filepath scope : read_only (VFS.stat v filepath scope).
Proof.
  unfold VFS.stat. apply read_only_try_catch; [|intros; apply read_only_throw].
  apply read_only_bind; [apply read_only_lift|]. intros fullPath.
  apply read_only_bind; [apply read_only_existsSync|]. intros found.
  apply read_only_bind.
  { destruct (negb found); [apply read_only_throw|apply read_only_ret]. }
  intros _. apply read_only_bind; [apply read_only_stat|].
  intros. apply read_only_ret.
Qed.

Lemma try_catch_total {A} (m : M A) (h : string → M A) :
  (∀ e st, ∃ a, h e st = (Ok a, st)) → read_only m →
  ∀ st, ∃ a, try_catch m h st = (Ok a, st).
Proof.
  intros Hh Hm st. unfold try_catch. specialize (Hm st).
  destruct (m st) as [[a|e] st1]; simpl in Hm; subst; [eauto|apply Hh].
Qed.


Lemma read_only_preserves {A B} (f : state → B) (m : M A) :
  read_only m → preserves f m.
Proof. intros Hm st. by rewrite Hm. Qed.

Lemma preserves_bind {A B C} (f : state → C) (m : M A) (k : A → M B) :
  preserves f m → (∀ a, preserves f (k a)) → preserves f (bind m k).
Proof.
  intros Hm Hk st. unfold bind. specialize (Hm st).
  destruct (m st) as [[a|e] st1]; simpl in Hm; [|done].
  by rewrite Hk.
Qed.

Lemma preserves_try_catch {A C} (f : state → C) (m : M A) h :
  preserves f m → (∀ e, preserves f (h e)) → preserves f (try_catch m h).
Proof.
  intros Hm Hh st. unfold try_catch. specialize (Hm st).
  destruct (m st) as [[a|e] st1]; simpl in Hm; [done|].
  by rewrite Hh.
Qed.

Lemma preserves_nodes_emit {A} e (a : A) :
  preserves nodes (modify (emit e) ;; ret a)%vfs.
Proof. by intros st. Qed.

Lemma read_only_disk_readFile p : read_only (Disk.readFile p).
Proof. intros st. unfold Disk.readFile. by repeat case_match. Qed.

Lemma preserves_nodes_readFile_loop v filepath scope ss errors :
  preserves nodes (VFS.readFile_loop v filepath scope ss errors).
Proof.
  revert errors. induction ss as [|s rest IH]; intros errors; simpl.
  - by intros st.
  - apply preserves_bind.
    + apply preserves_try_catch.
      * unfold VFS.readFile_try.
        apply preserves_bind; [by intros st|]. intros fullPath.
        apply preserves_bind; [by intros st|]. intros found.
        destruct (negb found); [by intros st|].
        apply preserves_bind; [apply read_only_preserves, read_only_disk_readFile|].
        intros content.
        apply preserves_bind; [apply read_only_preserves, read_only_stat|].
        intros stat. apply preserves_nodes_emit.
      * intros e. case_decide; by intros st.
    + intros [r|errors']; [by intros st|apply IH].
Qed.

Lemma preserves_nodes_readFile v filepath scope :
  preserves nodes (VFS.readFile v filepath scope).
Proof. unfold VFS.readFile. apply preserves_nodes_readFile_loop. Qed.

Lemma read_only_guarded {A} tool path scope (op : M A) :
  read_only op → read_only (HostTools.guarded tool path scope op).
Proof.
  intros Hop. unfold HostTools.guarded.
  apply read_only_try_catch; [|intros; apply read_only_ret].
  apply read_only_bind; [done|]. intros. apply read_only_ret.
Qed.

(** The operations that only look change nothing: [exists], [stat] and
    [listFiles], and the tools built on them, leave the state as they found
    it, whether they succeed or fail; [readFile] leaves the file system as
    it is. *)
Theorem inspection_changes_nothing v filepath scope ps fuel st :
  (VFS.exists_ v filepath scope st).2 = st
  ∧ (VFS.stat v filepath scope st).2 = st
  ∧ (VFS.listFiles v filepath scope st).2 = st
  ∧ (HostTools.fileExists v ps st).2 = st
  ∧ (HostTools.fileStat v ps st).2 = st
  ∧ (HostTools.listFiles fuel v ps st).2 = st
  ∧ nodes (VFS.readFile v filepath scope st).2 = nodes st
  ∧ nodes (HostTools.readFile v ps st).2 = nodes st.
Proof.
  repeat split.
  - apply read_only_exists.
  - apply read_only_vfs_stat.
  - apply read_only_listFiles.
  - unfold HostTools.fileExists.
    apply read_only_bind; [apply read_only_lift|]. intros _.
    apply read_only_guarded.
    apply read_only_bind; [apply read_only_exists|]. intros. apply read_only_ret.
  - unfold HostTools.fileStat.
    apply read_only_bind; [apply read_only_lift|]. intros _.
    apply read_only_guarded, read_only_vfs_stat.
  - apply read_only_host_listFiles.
  - apply preserves_nodes_readFile.
  - unfold HostTools.readFile.
    apply preserves_bind; [by intros ?|]. intros _.
    unfold HostTools.guarded. apply preserves_try_catch; [|by intros ??].
    apply preserves_bind; [apply preserves_nodes_readFile|]. by intros ??.
Qed.

(** ** Published events *)

Lemma publishes_bind {A B} (ev : B → emitted_event) (m : M A) (k : A → M B) :
  preserves emitted m → (∀ a, publishes ev (k a)) → publishes ev (bind m k).
Proof.
  intros Hm Hk st. unfold bind. specialize (Hm st).
  destruct (m st) as [[a|e] st1]; simpl in Hm; [|done].
  specialize (Hk a st1). destruct (k a st1) as [[b|e] st2]; by rewrite Hk, Hm.
Qed.

Lemma publishes_emit {A} (ev : A → emitted_event) e (a : A) :
  ev a = e → publishes ev (modify (emit e) ;; ret a)%vfs.
Proof. intros <- st. reflexivity. Qed.

Lemma publishes_rethrow {A} (ev : A → emitted_event) (m : M A) wrap :
  publishes ev m → publishes ev (try_catch m (λ e, throw (wrap e))).
Proof.
  intros Hm st. unfold try_catch, throw. specialize (Hm st).
  by destruct (m st) as [[a|e] st1].
Qed.

Lemma preserves_emitted_mkdir p : preserves emitted (Disk.mkdir_recursive p).
Proof. intros st. unfold Disk.mkdir_recursive. by repeat case_match. Qed.

Lemma preserves_emitted_writeFile p data : preserves emitted (Disk.writeFile p data).
Proof. intros st. unfold Disk.writeFile. by repeat case_match. Qed.

Lemma preserves_emitted_unlink p : preserves emitted (Disk.unlink p).
Proof. intros st. unfold Disk.unlink. by repeat case_match. Qed.

Lemma preserves_emitted_rm p : preserves emitted (Disk.rm_recursive p).
Proof. by intros st. Qed.

Lemma publishes_writeFile v filepath content scope append :
  publishes write_event (VFS.writeFile v filepath content scope append).
Proof.
  unfold VFS.writeFile. apply publishes_rethrow.
  apply publishes_bind; [by intros ?|]. intros fullPath.
  apply publishes_bind; [by intros ?|]. intros dirExists.
  apply publishes_bind.
  { destruct dirExists; [by intros ?|apply preserves_emitted_mkdir]. }
  intros _. apply publishes_bind; [by intros ?|]. intros targetExists.
  apply publishes_bind.
  { destruct (append && targetExists); [|by intros ?].
    apply preserves_bind; [apply read_only_preserves, read_only_disk_readFile|].
    by intros ??. }
  intros content'. apply publishes_bind; [by intros ?|]. intros data.
  apply publishes_bind; [apply preserves_emitted_writeFile|]. intros _.
  apply publishes_bind; [apply read_only_preserves, read_only_stat|]. intros stat.
  by apply publishes_emit.
Qed.

Lemma readFile_loop_state v filepath scope ss errors st :
  match VFS.readFile_loop v filepath scope ss errors st with
  | (Ok r, st') => st' = emit (read_event r) st
  | (Throw _, st') => st' = st
  end.
Proof.
  revert errors. induction ss as [|s rest IH]; intros errors; simpl; [done|].
  unfold bind at 1, try_catch. rewrite readFile_try_spec.
  destruct (probe v st filepath s) as [fullPath data| |e]; simpl.
  - reflexivity.
  - apply IH.
  - case_decide; simpl; [done|apply IH].
Qed.

Lemma deleteFile_events v filepath scope st :
  match VFS.deleteFile v filepath scope st with
  | (Ok r, st') =>
      ∃ fullPath,
        VFS._resolvePath v filepath scope = Ok fullPath
        ∧ emitted st'
          = emitted st ++ [{| ev_name := "file:delete"; ev_path := VFS.dl_path r;
                              ev_scope := VFS.dl_scope r;
                              ev_fullPath := fullPath; ev_size := None |}]
  | (Throw _, st') => emitted st' = emitted st
  end.
Proof.
  destruct (VFS._resolvePath v filepath scope) as [fullPath|e] eqn:Hres.
  - destruct (Disk.lookup st fullPath) as [[data|]|] eqn:Hlook.
    + erewrite deleteFile_file by done. by exists fullPath.
    + erewrite deleteFile_directory by done. by exists fullPath.
    + by erewrite deleteFile_missing.
  - by erewrite deleteFile_unresolved.
Qed.

(** Events follow success: a write, a read or a delete that succeeds
    publishes exactly one event, [file:write], [file:read] or [file:delete],
    carrying the logical path, the scope (for a read, the scope the file was
    found in), the resolved path and the size; one that fails publishes
    nothing.  [mkdir] never publishes an event. *)
Theorem events_follow_success v filepath content scope append st :
  match VFS.writeFile v filepath content scope append st with
  | (Ok r, st') => emitted st' = emitted st ++ [write_event r]
  | (Throw _, st') => emitted st' = emitted st
  end
  ∧ match VFS.readFile v filepath scope st with
    | (Ok r, st') => emitted st' = emitted st ++ [read_event r]
    | (Throw _, st') => emitted st' = emitted st
    end
  ∧ match VFS.deleteFile v filepath scope st with
    | (Ok r, st') =>
        ∃ fullPath,
          VFS._resolvePath v filepath scope = Ok fullPath
          ∧ emitted st'
            = emitted st ++ [{| ev_name := "file:delete";
                                ev_path := VFS.dl_path r;
                                ev_scope := VFS.dl_scope r;
                                ev_fullPath := fullPath; ev_size := None |}]
    | (Throw _, st') => emitted st' = emitted st
    end
  ∧ emitted (VFS.mkdir v filepath scope st).2 = emitted st.
Proof.
  split; [apply publishes_writeFile|]. split; [|split; [apply deleteFile_events|]].
  - unfold VFS.readFile.
    pose proof (readFile_loop_state v filepath (or_default (JStr "run") scope)
                  (if decide (or_default (JStr "run") scope = JStr "auto")
                   then [JStr "run"; JStr "task"; JStr "global"]
                   else [or_default (JStr "run") scope]) [] st) as H.
    destruct (VFS.readFile_loop _ _ _ _ _ st) as [[r|e] st']; by subst.
  - unfold VFS.mkdir. apply preserves_try_catch; [|by intros ??].
    apply preserves_bind; [by intros ?|]. intros fullPath.
    apply preserves_bind; [apply preserves_emitted_mkdir|]. by intros ??.
Qed.

(** ** What [stat] reports, and scopes that do not exist *)

Theorem stat_agrees_with_exists v filepath scope st :
  match VFS.stat v filepath scope st with
  | (Ok r, _) =>
      VFS.exists_ v filepath scope st = (Ok true, st)
      ∧ VFS._resolvePath v filepath scope = Ok (VFS.sr_fullPath r)
      ∧ VFS.sr_path r = filepath
      ∧ VFS.sr_scope r = or_default (JStr "run") scope
      ∧ VFS.sr_isFile r = negb (VFS.sr_isDirectory r)
      ∧ match Disk.lookup st (VFS.sr_fullPath r) with
        | Some (File data) =>
            VFS.sr_isFile r = true ∧ VFS.sr_size r = String.length data
        | Some Dir => VFS.sr_isDirectory r = true ∧ VFS.sr_size r = dirSize st
        | None => False
        end
  | (Throw e, _) =>
      VFS.exists_ v filepath scope st = (Ok false, st)
      ∧ e = "Failed to stat " +:+ toString filepath +:+ ": "
              +:+ match VFS._resolvePath v filepath scope with
                  | Ok _ => VFS.file_not_found filepath
                  | Throw cause => cause
                  end
  end.
Proof.
  rewrite exists_spec.
  destruct (VFS._resolvePath v filepath scope) as [fullPath|cause] eqn:Hres.
  - unfold VFS.stat, try_catch, bind, lift.
    rewrite resolvePath_default, Hres, existsSync_spec. unfold Disk.stat.
    destruct (Disk.lookup st fullPath) as [[data|]|] eqn:Hlook; simpl;
      rewrite ?Hlook; simpl; rewrite ?Hlook; done.
  - by erewrite stat_unresolved.
Qed.

Lemma resolvePath_unknown_scope v filepath scope :
  toString (or_default (JStr "run") scope) ∉ concrete_scopes →
  toString (or_default (JStr "run") scope) ∉ VFS.object_prototype_keys →
  VFS._resolvePath v filepath scope
  = Throw (VFS.invalid_scope (or_default (JStr "run") scope)).
Proof.
  intros Hs Hp. unfold VFS._resolvePath, VFS.scopes.
  rewrite concrete_scopes_iff in Hs.
  repeat (rewrite decide_False by tauto). done.
Qed.

Lemma listFiles_unresolved v dirpath scope e st :
  VFS._resolvePath v (or_default (JStr "/") dirpath) scope = Throw e →
  VFS.listFiles v dirpath scope st
  = (Throw ("Failed to list files in " +:+ toString (or_default (JStr "/") dirpath)
              +:+ ": " +:+ e), st).
Proof.
  intros Hfail. unfold VFS.listFiles, try_catch, bind at 1, lift.
  by rewrite resolvePath_default, Hfail.
Qed.

Lemma readFile_unresolved v filepath scope e st :
  or_default (JStr "run") scope ≠ JStr "auto" →
  VFS._resolvePath v filepath scope = Throw e →
  VFS.readFile v filepath scope st
  = (Throw ("Failed to read file " +:+ toString filepath +:+ ": " +:+ e), st).
Proof.
  intros Hauto Hfail. unfold VFS.readFile. rewrite decide_False by done.
  simpl. unfold bind at 1, try_catch, VFS.readFile_try, bind at 1, lift.
  rewrite resolvePath_default, Hfail. by rewrite decide_True.
Qed.

(** The scope is checked before anything else.  With a scope that is none
    of [run], [task] and [global] (nor the name of a member every object
    inherits), every operation fails on the scope, whatever the path is,
    and changes nothing; [auto] is such a scope for every operation but
    [readFile].  [exists] answers [false]. *)
Theorem unknown_scope_rejected v filepath content append scope st :
  toString (or_default (JStr "run") scope) ∉ concrete_scopes →
  toString (or_default (JStr "run") scope) ∉ VFS.object_prototype_keys →
  ∃ e, e = "Invalid scope: " +:+ toString (or_default (JStr "run") scope)
             +:+ ". Valid scopes: run, task, global"
  ∧ VFS._resolvePath v filepath scope = Throw e
  ∧ VFS.writeFile v filepath content scope append st
    = (Throw ("Failed to write file " +:+ toString filepath +:+ ": " +:+ e), st)
  ∧ VFS.deleteFile v filepath scope st
    = (Throw ("Failed to delete " +:+ toString filepath +:+ ": " +:+ e), st)
  ∧ VFS.stat v filepath scope st
    = (Throw ("Failed to stat " +:+ toString filepath +:+ ": " +:+ e), st)
  ∧ VFS.mkdir v filepath scope st
    = (Throw ("Failed to create directory " +:+ toString filepath
                +:+ ": " +:+ e), st)
  ∧ VFS.listFiles v filepath scope st
    = (Throw ("Failed to list files in "
                +:+ toString (or_default (JStr "/") filepath) +:+ ": " +:+ e), st)
  ∧ VFS.exists_ v filepath scope st = (Ok false, st)
  ∧ (or_default (JStr "run") scope ≠ JStr "auto" →
     VFS.readFile v filepath scope st
     = (Throw ("Failed to read file " +:+ toString filepath +:+ ": " +:+ e), st)).
Proof.
  intros Hs Hp. eexists. split; [reflexivity|].
  pose proof (resolvePath_unknown_scope v filepath scope Hs Hp) as Hres.
  pose proof (resolvePath_unknown_scope v (or_default (JStr "/") filepath) scope Hs Hp)
    as Hres'.
  unfold VFS.invalid_scope in *.
  split; [done|]. split; [by apply writeFile_unresolved|].
  split; [by apply deleteFile_unresolved|]. split; [by apply stat_unresolved|].
  split; [by apply mkdir_unresolved|]. split; [by apply listFiles_unresolved|].
  split; [by rewrite exists_spec, Hres|].
  intros Hauto. by apply readFile_unresolved.
Qed.

Lemma unknown_scope_rejected_witness :
  VFS.writeFile Fixture.vfs (JStr "a.txt") (JStr "x") (JStr "auto") false Fixture.fresh
  = (Throw "Failed to write file a.txt: Invalid scope: auto. Valid scopes: run, task, global",
     Fixture.fresh).
Proof.
  destruct (unknown_scope_rejected Fixture.vfs (JStr "a.txt") (JStr "x") false
              (JStr "auto") Fixture.fresh) as (e & -> & _ & H & _).
  - intros H. not_concrete H.
  - vm_compute. intros H. repeat (apply elem_of_cons in H as [H|H]; [discriminate H|]).
    by apply elem_of_nil in H.
  - exact H.
Defined.

(** ** Appending *)

Lemma lookup_file_inv st p data :
  Disk.lookup st p = Some (File data) →
  JS.endsWithSlash p = false ∧ nodes st !! Disk.locate st p = Some (File data).
Proof.
  unfold Disk.lookup.
  destruct (nodes st !! Disk.locate st p) as [[d|]|]; [|done|done].
  by destruct (JS.endsWithSlash p); [|intros [= ->]].
Qed.

Lemma lookup_same st st' p :
  cwd st' = cwd st →
  nodes st' !! Disk.locate st p = nodes st !! Disk.locate st p →
  Disk.lookup st' p = Disk.lookup st p.
Proof.
  intros Hcwd Hsame. unfold Disk.lookup.
  assert (Disk.locate st' p = Disk.locate st p) as ->
    by (unfold Disk.locate; by rewrite Hcwd).
  by rewrite Hsame.
Qed.



Lemma mkdir_recursive_cases p st :
  (∃ e, Disk.mkdir_recursive p st = (Throw e, st)
        ∧ (e = "EEXIST" ∨ e = "ENOTDIR")
        ∧ ∃ q, q ∈ Disk.ancestors (Disk.locate st p)
               ∧ Disk.is_file (nodes st !! q) = true)
  ∨ (Disk.mkdir_recursive p st
     = (Ok tt, with_nodes (λ m, foldr (λ q, <[q := Dir]>) m
                                  (Disk.ancestors (Disk.locate st p))) st)
     ∧ ∀ q, q ∈ Disk.ancestors (Disk.locate st p) →
            Disk.is_file (nodes st !! q) = false).
Proof.
  unfold Disk.mkdir_recursive.
  destruct (Disk.is_file (nodes st !! Disk.locate st p)) eqn:Hself.
  { left. exists "EEXIST". split; [done|]. split; [by left|].
    exists (Disk.locate st p). split; [apply ancestors_self|done]. }
  destruct (existsb _ _) eqn:Hway.
  - left. exists "ENOTDIR". split; [done|]. split; [by right|].
    apply existsb_exists in Hway as (q & Hq & Hfile).
    exists q. by rewrite list_elem_of_In.
  - right. split; [done|]. intros q Hq.
    destruct (Disk.is_file (nodes st !! q)) eqn:Hfile; [|done].
    assert (existsb (λ q, Disk.is_file (nodes st !! q))
              (Disk.ancestors (Disk.locate st p)) = true) as Hyes; [|congruence].
    apply existsb_exists. exists q. by rewrite <- list_elem_of_In.
Qed.

(** Appending when there is nothing to append to is a plain write: in a
    concrete scope, for a path that names a file and with nothing at that
    path, [writeFile] with [append] set does exactly what it does without,
    in result and in effect. *)
Theorem append_without_file v filepath content s st fullPath :
  s ∈ concrete_scopes →
  VFS._resolvePath v filepath (JStr s) = Ok fullPath →
  JS.endsWithSlash fullPath = false →
  Disk.lookup st fullPath = None →
  VFS.writeFile v filepath content (JStr s) true st
  = VFS.writeFile v filepath content (JStr s) false st.
Proof.
  intros Hs Hres Hslash Hlook.
  unfold VFS.writeFile. cbn [or_default]. unfold try_catch.
  unfold bind at 1 11. unfold lift. rewrite Hres.
  unfold bind at 1 10. rewrite existsSync_spec.
  set (dir := Path.dirname fullPath).
  assert (∀ st1 r,
            (if bool_decide (is_Some (Disk.lookup st dir))
             then ret tt else Disk.mkdir_recursive dir) st = (Ok r, st1) →
            Disk.lookup st1 fullPath = None) as Hstill.
  { intros st1 r. case_bool_decide as Hdir; [by intros [= _ <-]|].
    destruct (mkdir_recursive_cases dir st) as [(e & -> & _)|[-> Hclear]];
      [done|]. intros [= _ <-].
    destruct (resolved_shape v s filepath fullPath Hs Hres Hslash)
      as (abs & x & rest & E & Hkept & Hx).
    pose proof (locate_dirname st abs x rest Hx Hkept) as Hlocate.
    rewrite <- E in Hlocate. fold dir in Hlocate.
    rewrite <- Hlook. apply lookup_same; [done|]. simpl.
    rewrite lookup_make_dirs. rewrite decide_False; [done|].
    intros Hin%ancestors_length. rewrite Hlocate, length_app in Hin.
    simpl in Hin. lia. }
  unfold bind at 1 9.
  destruct ((if bool_decide (is_Some (Disk.lookup st dir))
             then ret tt else Disk.mkdir_recursive dir) st) as [[r|e] st1] eqn:Hmk;
    [|done].
  unfold bind at 1 8. rewrite existsSync_spec.
  rewrite (Hstill st1 r eq_refl).
  rewrite bool_decide_eq_false_2 by by intros [? ?]. reflexivity.
Qed.

Lemma append_without_file_witness :
  VFS.writeFile Fixture.vfs (JStr "new.txt") (JStr "x") (JStr "global") true
    Fixture.fresh
  = VFS.writeFile Fixture.vfs (JStr "new.txt") (JStr "x") (JStr "global") false
      Fixture.fresh.
Proof.
  apply (append_without_file Fixture.vfs (JStr "new.txt") (JStr "x") "global"
           Fixture.fresh "/eco/vfs/global/new.txt").
  - apply concrete_scopes_iff. right. by right.
  - reflexivity.
  - reflexivity.
  - reflexivity.
Defined.

(** ** What an operation leaves alone *)

Lemma read_only_maintains {A} (P : state → Prop) (m : M A) :
  read_only m → maintains P m.
Proof. intros Hm st HP. by rewrite Hm. Qed.

Lemma maintains_bind {A B} (P : state → Prop) (m : M A) (k : A → M B) :
  maintains P m → (∀ a, maintains P (k a)) → maintains P (bind m k).
Proof.
  intros Hm Hk st HP. unfold bind. specialize (Hm st HP).
  destruct (m st) as [[a|e] st1]; simpl in Hm; [|done]. by apply Hk.
Qed.

Lemma maintains_try_catch {A} (P : state → Prop) (m : M A) h :
  maintains P m → (∀ e, maintains P (h e)) → maintains P (try_catch m h).
Proof.
  intros Hm Hh st HP. unfold try_catch. specialize (Hm st HP).
  destruct (m st) as [[a|e] st1]; simpl in Hm; [done|]. by apply Hh.
Qed.

Lemma locate_in_place st0 k n st p :
  in_place st0 k n st → Disk.locate st p = Disk.locate st0 p.
Proof. intros [Hcwd _]. unfold Disk.locate. by rewrite Hcwd. Qed.

Lemma maintains_mkdir_recursive st0 k n p :
  maintains (in_place st0 k n) (Disk.mkdir_recursive p).
Proof.
  intros st [Hcwd Hk].
  destruct (mkdir_recursive_cases p st) as [(e & -> & _)|[-> Hclear]]; [done|].
  split; [done|]. simpl. rewrite lookup_make_dirs. case_decide as Hin; [|done].
  specialize (Hclear k Hin). rewrite Hk in Hclear. by destruct n.
Qed.

Lemma maintains_disk_writeFile st0 k n p data :
  k ≠ Disk.locate st0 p →
  maintains (in_place st0 k n) (Disk.writeFile p data).
Proof.
  intros Hne st HP. pose proof (locate_in_place _ _ _ _ p HP) as Hloc.
  destruct HP as [Hcwd Hk].
  destruct (Disk.writeFile p data st) as [[[]|e] st'] eqn:E.
  - apply disk_writeFile_ok in E as [_ ->]. split; [done|]. simpl.
    rewrite lookup_insert_ne by congruence. done.
  - unfold Disk.writeFile in E. repeat case_match; simplify_eq; by split.
Qed.

Lemma maintains_emit {A} P e (a : A) :
  (∀ st, P st → P (emit e st)) → maintains P (modify (emit e) ;; ret a)%vfs.
Proof. intros H st HP. by apply H. Qed.

Lemma maintains_writeFile st0 k n v filepath content scope append :
  (∀ fullPath, VFS._resolvePath v filepath scope = Ok fullPath →
               k ≠ Disk.locate st0 fullPath) →
  maintains (in_place st0 k n) (VFS.writeFile v filepath content scope append).
Proof.
  intros Hne. unfold VFS.writeFile.
  apply maintains_try_catch; [|intros; apply read_only_maintains; by intros ?].
  intros st HP. unfold bind at 1, lift. rewrite resolvePath_default.
  destruct (VFS._resolvePath v filepath scope) as [fullPath|e] eqn:Hres; [|done].
  revert st HP.
  apply (maintains_bind (in_place st0 k n));
    [apply read_only_maintains, read_only_existsSync|].
  intros dirExists. apply maintains_bind.
  { destruct dirExists; [apply read_only_maintains; by intros ?|apply maintains_mkdir_recursive]. }
  intros _. apply maintains_bind; [apply read_only_maintains, read_only_existsSync|].
  intros targetExists. apply maintains_bind.
  { apply read_only_maintains. destruct (append && targetExists); [|done].
    apply read_only_bind; [apply read_only_disk_readFile|]. by intros ??. }
  intros content'. apply maintains_bind; [apply read_only_maintains; by intros ?|].
  intros data. apply maintains_bind; [apply maintains_disk_writeFile; by apply Hne|].
  intros _. apply maintains_bind; [apply read_only_maintains, read_only_stat|].
  intros stat. by apply maintains_emit.
Qed.

Lemma maintains_mkdir st0 k n v dirpath scope :
  maintains (in_place st0 k n) (VFS.mkdir v dirpath scope).
Proof.
  unfold VFS.mkdir.
  apply maintains_try_catch; [|intros; apply read_only_maintains; by intros ?].
  apply maintains_bind; [apply read_only_maintains; by intros ?|]. intros fullPath.
  apply maintains_bind; [apply maintains_mkdir_recursive|].
  intros. apply read_only_maintains; by intros ?.
Qed.

Lemma maintains_deleteFile st0 k n v filepath scope :
  (∀ fullPath, VFS._resolvePath v filepath scope = Ok fullPath →
               ¬ Disk.locate st0 fullPath `prefix_of` k) →
  maintains (in_place st0 k n) (VFS.deleteFile v filepath scope).
Proof.
  intros Hne st HP.
  destruct (VFS._resolvePath v filepath scope) as [fullPath|e] eqn:Hres.
  - specialize (Hne fullPath eq_refl).
    rewrite <- (locate_in_place _ _ _ _ fullPath HP) in Hne.
    destruct HP as [Hcwd Hk].
    destruct (Disk.lookup st fullPath) as [[data|]|] eqn:Hlook.
    + erewrite deleteFile_file by done. split; [done|]. simpl.
      rewrite lookup_delete_ne; [done|]. by intros <-.
    + erewrite deleteFile_directory by done. split; [done|]. simpl.
      by apply map_lookup_filter_Some.
    + by erewrite deleteFile_missing.
  - by erewrite deleteFile_unresolved.
Qed.

(** What an operation is not aimed at stays in place: [mkdir] never changes
    or removes an existing entry; [writeFile] changes none but the file it
    writes; [deleteFile] none outside the path it deletes.  This holds
    whether the operation succeeds or fails. *)
Theorem other_entries_stay v filepath content scope append st k n :
  nodes st !! k = Some n →
  nodes (VFS.mkdir v filepath scope st).2 !! k = Some n
  ∧ ((∀ fullPath, VFS._resolvePath v filepath scope = Ok fullPath →
                  k ≠ Disk.locate st fullPath) →
     nodes (VFS.writeFile v filepath content scope append st).2 !! k = Some n)
  ∧ ((∀ fullPath, VFS._resolvePath v filepath scope = Ok fullPath →
                  ¬ Disk.locate st fullPath `prefix_of` k) →
     nodes (VFS.deleteFile v filepath scope st).2 !! k = Some n).
Proof.
  intros Hk. assert (in_place st k n st) as HP by done.
  split; [by apply (maintains_mkdir st k n)|].
  split; intros Hne.
  - by apply (maintains_writeFile st k n).
  - by apply (maintains_deleteFile st k n).
Qed.

Lemma other_entries_stay_witness :
  nodes (VFS.writeFile Fixture.vfs (JStr "sub/g.txt") (JStr "x") (JStr "run")
           false Fixture.nested).2 !! (Fixture.run_root ++ ["sub"; "f.txt"])
  = Some (File "hello")
  ∧ nodes (VFS.deleteFile Fixture.vfs (JStr "sub/g.txt") (JStr "run")
             Fixture.nested).2 !! (Fixture.run_root ++ ["sub"; "f.txt"])
    = Some (File "hello").
Proof.
  destruct (other_entries_stay Fixture.vfs (JStr "sub/g.txt") (JStr "x")
              (JStr "run") false Fixture.nested
              (Fixture.run_root ++ ["sub"; "f.txt"]) (File "hello") eq_refl)
    as (_ & Hwrite & Hdelete).
  split.
  - apply Hwrite. intros fullPath [= <-]. vm_compute. discriminate.
  - apply Hdelete. intros fullPath [= <-]. vm_compute.
    intros [tail Htail]. discriminate Htail.
Defined.

(** ** After a deletion *)

Lemma deleteFile_ok_inv v filepath scope st r st' :
  VFS.deleteFile v filepath scope st = (Ok r, st') →
  ∃ fullPath,
    VFS._resolvePath v filepath scope = Ok fullPath
    ∧ is_Some (Disk.lookup st fullPath)
    ∧ Disk.lookup st' fullPath = None
    ∧ r = {| VFS.dl_path := filepath;
             VFS.dl_scope := or_default (JStr "run") scope |}.
Proof.
  intros Hdel.
  destruct (VFS._resolvePath v filepath scope) as [fullPath|e] eqn:Hres.
  - exists fullPath. split; [done|].
    destruct (Disk.lookup st fullPath) as [[data|]|] eqn:Hlook.
    + erewrite deleteFile_file in Hdel by done. injection Hdel as <- <-.
      split; [done|]. split; [|done].
      apply (lookup_locate st); [done|]. simpl. apply lookup_delete_eq.
    + erewrite deleteFile_directory in Hdel by done. injection Hdel as <- <-.
      split; [done|]. split; [|done].
      apply (lookup_locate st); [done|]. simpl.
      apply map_lookup_filter_None. right. intros n _ Hn. by apply Hn.
    + by erewrite deleteFile_missing in Hdel.
  - by erewrite deleteFile_unresolved in Hdel.
Qed.

Lemma stat_missing v filepath scope st fullPath :
  VFS._resolvePath v filepath scope = Ok fullPath →
  Disk.lookup st fullPath = None →
  VFS.stat v filepath scope st
  = (Throw ("Failed to stat " +:+ toString filepath +:+ ": File not found: "
              +:+ toString filepath), st).
Proof.
  intros Hres Hnone. unfold VFS.stat, try_catch, bind, lift.
  by rewrite resolvePath_default, Hres, existsSync_spec, Hnone.
Qed.

Lemma resolved_not_auto v filepath scope fullPath :
  VFS._resolvePath v filepath scope = Ok fullPath →
  or_default (JStr "run") scope ≠ JStr "auto".
Proof.
  unfold VFS._resolvePath. intros Hres Hauto. rewrite Hauto in Hres.
  discriminate Hres.
Qed.

(** What was deleted is gone: after a successful [deleteFile], [exists]
    answers [false] for the same path, and [stat], [readFile] and a second
    [deleteFile] fail because nothing is found there. *)
Theorem deleted_is_gone v filepath scope st r st' :
  VFS.deleteFile v filepath scope st = (Ok r, st') →
  VFS.exists_ v filepath scope st = (Ok true, st)
  ∧ VFS.exists_ v filepath scope st' = (Ok false, st')
  ∧ VFS.stat v filepath scope st'
    = (Throw ("Failed to stat " +:+ toString filepath +:+ ": File not found: "
                +:+ toString filepath), st')
  ∧ VFS.readFile v filepath scope st'
    = (Throw ("File not found: " +:+ toString filepath
                +:+ ". Searched: Not found in "
                +:+ toString (or_default (JStr "run") scope) +:+ " scope"), st')
  ∧ VFS.deleteFile v filepath scope st'
    = (Throw ("Failed to delete " +:+ toString filepath +:+ ": File not found: "
                +:+ toString filepath), st').
Proof.
  intros Hdel.
  apply deleteFile_ok_inv in Hdel as (fullPath & Hres & Hwas & Hgone & _).
  split; [rewrite exists_spec, Hres; by rewrite bool_decide_eq_true_2|].
  split; [by rewrite exists_spec, Hres, Hgone|].
  split; [by apply (stat_missing v filepath scope st' fullPath)|].
  split; [|by apply (deleteFile_missing v filepath scope st' fullPath)].
  rewrite readFile_concrete by by eapply resolved_not_auto.
  cbn zeta. unfold probe. rewrite resolvePath_default, Hres, Hgone. reflexivity.
Qed.

Lemma deleted_is_gone_witness :
  ∃ st',
    (VFS.deleteFile Fixture.vfs (JStr "sub/f.txt") (JStr "run") Fixture.nested).2
    = st'
    ∧ VFS.exists_ Fixture.vfs (JStr "sub/f.txt") (JStr "run") st' = (Ok false, st')
    ∧ VFS.deleteFile Fixture.vfs (JStr "sub/f.txt") (JStr "run") st'
      = (Throw "Failed to delete sub/f.txt: File not found: sub/f.txt", st').
Proof.
  destruct (VFS.deleteFile Fixture.vfs (JStr "sub/f.txt") (JStr "run")
              Fixture.nested) as [[r|e] st'] eqn:Hdel;
    [|vm_compute in Hdel; discriminate Hdel].
  destruct (deleted_is_gone _ _ _ _ _ _ Hdel) as (_ & Hexists & _ & _ & Hagain).
  exists st'. split; [done|]. by split.
Defined.

(** ** [mkdir] with a file in the way *)

Lemma mkdir_blocked v dirpath scope st fullPath :
  VFS._resolvePath v dirpath scope = Ok fullPath →
  (∃ q, q ∈ Disk.ancestors (Disk.locate st fullPath)
        ∧ Disk.is_file (nodes st !! q) = true) →
  ∃ e, VFS.mkdir v dirpath scope st
       = (Throw ("Failed to create directory " +:+ toString dirpath
                   +:+ ": " +:+ e), st)
       ∧ (e = "EEXIST" ∨ e = "ENOTDIR").
Proof.
  intros Hres (q & Hq & Hfile).
  unfold VFS.mkdir, try_catch, bind, lift. rewrite resolvePath_default, Hres.
  destruct (mkdir_recursive_cases fullPath st) as [(e & -> & He & _)|[_ Hclear]].
  - by exists e.
  - rewrite Hclear in Hfile by done. discriminate.
Qed.

Lemma mkdir_clear v dirpath scope st fullPath :
  VFS._resolvePath v dirpath scope = Ok fullPath →
  (∀ q, q ∈ Disk.ancestors (Disk.locate st fullPath) →
        Disk.is_file (nodes st !! q) = false) →
  VFS.mkdir v dirpath scope st
  = (Ok {| VFS.mk_path := dirpath; VFS.mk_scope := or_default (JStr "run") scope;
           VFS.mk_fullPath := fullPath |},
     with_nodes (λ m, foldr (λ q, <[q := Dir]>) m
                        (Disk.ancestors (Disk.locate st fullPath))) st).
Proof.
  intros Hres Hclear. unfold VFS.mkdir, try_catch, bind, lift.
  rewrite resolvePath_default, Hres. by rewrite mkdir_recursive_clear.
Qed.

(** For a path that resolves, [mkdir] succeeds exactly when no regular file
    sits at the path or on the way to it.  When it succeeds the path is a
    directory afterwards: [exists] answers [true] and [stat] reports a
    directory.  When it fails it has changed nothing. *)
Theorem mkdir_succeeds_unless_blocked v dirpath scope st fullPath :
  VFS._resolvePath v dirpath scope = Ok fullPath →
  match VFS.mkdir v dirpath scope st with
  | (Ok r, st') =>
      (∀ q, q ∈ Disk.ancestors (Disk.locate st fullPath) →
            Disk.is_file (nodes st !! q) = false)
      ∧ VFS.mk_fullPath r = fullPath
      ∧ VFS.exists_ v dirpath scope st' = (Ok true, st')
      ∧ ∃ meta, VFS.stat v dirpath scope st' = (Ok meta, st')
                ∧ VFS.sr_isDirectory meta = true
                ∧ VFS.sr_isFile meta = false
  | (Throw e, st') =>
      (∃ q, q ∈ Disk.ancestors (Disk.locate st fullPath)
            ∧ Disk.is_file (nodes st !! q) = true)
      ∧ st' = st
      ∧ ∃ code, e = "Failed to create directory " +:+ toString dirpath
                      +:+ ": " +:+ code
  end.
Proof.
  intros Hres.
  destruct (mkdir_recursive_cases fullPath st) as [(e & _ & _ & Hblock)|[_ Hclear]].
  - destruct (mkdir_blocked v dirpath scope st fullPath Hres Hblock)
      as (code & -> & _).
    split; [done|]. split; [done|]. by exists code.
  - rewrite (mkdir_clear v dirpath scope st fullPath Hres Hclear).
    split; [done|]. split; [done|].
    set (st' := with_nodes _ st).
    assert (Disk.lookup st' fullPath = Some Dir) as Hdir.
    { unfold Disk.lookup.
      change (Disk.locate st' fullPath) with (Disk.locate st fullPath).
      simpl. rewrite lookup_make_dirs.
      by rewrite decide_True by apply ancestors_self. }
    split; [by rewrite exists_spec, Hres, Hdir|].
    eexists. split.
    { unfold VFS.stat, try_catch, bind, lift.
      rewrite resolvePath_default, Hres, existsSync_spec, Hdir. simpl.
      unfold Disk.stat. by rewrite Hdir. }
    by split.
Qed.

Lemma mkdir_succeeds_unless_blocked_witness :
  ∃ e, VFS.mkdir Fixture.vfs (JStr "sub/f.txt/more") (JStr "run") Fixture.nested
       = (Throw e, Fixture.nested).
Proof.
  pose proof (mkdir_succeeds_unless_blocked Fixture.vfs (JStr "sub/f.txt/more")
                (JStr "run") Fixture.nested
                "/eco/tasks/t1/runs/r1/fs/sub/f.txt/more" eq_refl) as H.
  destruct (VFS.mkdir Fixture.vfs (JStr "sub/f.txt/more") (JStr "run")
              Fixture.nested) as [[r|e] st'] eqn:Hmk.
  - vm_compute in Hmk. discriminate Hmk.
  - destruct H as (_ & -> & _). by exists e.
Defined.

(** ** The total of a recursive listing *)

Lemma listFiles_entries_count dirpath fullPath scope entries files directories
    st found st' :
  VFS.listFiles_entries dirpath fullPath scope entries files directories st
  = (Ok found, st') →
  length found.1 + length found.2
  = length files + length directories + length entries.
Proof.
  revert files directories st.
  induction entries as [|dirent rest IH]; intros files directories st; simpl.
  - intros [= <- _]. simpl. lia.
  - intros H. apply bind_ok_inv in H as (stat & st1 & _ & H).
    destruct (Disk.entryIsDirectory dirent); apply IH in H;
      rewrite H, length_app; simpl; lia.
Qed.

Lemma listFiles_ok_inv v dirpath scope st l st' :
  VFS.listFiles v dirpath scope st = (Ok l, st') →
  VFS.l_path l = or_default (JStr "/") dirpath
  ∧ VFS.l_scope l = or_default (JStr "run") scope
  ∧ VFS.total l = length (VFS.files l) + length (VFS.directories l).
Proof.
  unfold VFS.listFiles. intros H. apply try_catch_rethrow_inv in H.
  apply bind_ok_inv in H as (fullPath & st0 & _ & H).
  apply bind_ok_inv in H as (found & st1 & _ & H).
  destruct (negb found).
  - by injection H as <- _.
  - apply bind_ok_inv in H as (entries & st2 & _ & H).
    apply bind_ok_inv in H as (pair & st3 & _ & H).
    by injection H as <- _.
Qed.

Lemma walk_keeps_total self scope steps i result out st st' :
  HostTools.walk self scope steps i result st = (Ok (Some out), st') →
  VFS.total out = VFS.total result
  ∧ VFS.l_path out = VFS.l_path result
  ∧ VFS.l_scope out = VFS.l_scope result.
Proof.
  revert i result st. induction steps as [|steps IH]; intros i result st; simpl;
    [discriminate|].
  destruct (VFS.directories result !! i) as [dir|]; [|by intros [= <- _]].
  intros H. apply bind_ok_inv in H as (sub & st1 & _ & H).
  destruct sub as [[sub|f]|]; [| |discriminate]; by apply IH in H.
Qed.

(** The recursive listing does not update [total]: it stays the number of
    direct entries of the listed directory, while [files] and
    [directories] also hold what was found below. *)
Theorem recursive_total_counts_direct fuel v ps st r st' :
  HostTools.listFiles (S fuel) v ps st = (Ok (Some (Success r)), st') →
  ∃ direct,
    VFS.listFiles v (or_default (JStr "/") (param ps "path"))
      (or_default (JStr "run") (param ps "scope")) st = (Ok direct, st)
    ∧ VFS.total r = length (VFS.files direct) + length (VFS.directories direct)
    ∧ VFS.l_path r = or_default (JStr "/") (param ps "path")
    ∧ VFS.l_scope r = or_default (JStr "run") (param ps "scope").
Proof.
  intros Hlist. simpl in Hlist. unfold try_catch in Hlist.
  destruct (bind (VFS.listFiles v _ _) _ st) as [[o|e] st1] eqn:E; [|discriminate].
  injection Hlist as -> ->.
  apply bind_ok_inv in E as (direct & st1 & Hdirect & E).
  pose proof (read_only_run _ _ _ _ (read_only_listFiles _ _ _) Hdirect) as ->.
  exists direct. split; [done|].
  apply listFiles_ok_inv in Hdirect as (Hpath & Hscope & Htotal).
  rewrite or_default_idemp in Hpath, Hscope.
  apply bind_ok_inv in E as (walked & st1 & Hwalk & [= E]).
  destruct walked as [out|]; [|discriminate]. injection E as ->.
  destruct (_ && _).
  - apply walk_keeps_total in Hwalk as (-> & -> & ->). done.
  - by injection Hwalk as ->.
Qed.

Lemma recursive_total_counts_direct_witness :
  ∃ direct,
    VFS.listFiles Fixture.vfs (JStr "/") (JStr "run") Fixture.nested
    = (Ok direct, Fixture.nested)
    ∧ length (VFS.files direct) + length (VFS.directories direct) = 1.
Proof.
  assert (HostTools.listFiles 3 Fixture.vfs Fixture.list_all Fixture.nested
          = (Ok (Some (Success
               {| VFS.l_path := JStr "/"; VFS.l_scope := JStr "run";
                  VFS.files := [Fixture.nested_file];
                  VFS.directories := [Fixture.nested_directory];
                  VFS.total := 1 |})), Fixture.nested)) as Hlist
    by (vm_compute; reflexivity).
  destruct (recursive_total_counts_direct 2 Fixture.vfs Fixture.list_all
              Fixture.nested _ Fixture.nested Hlist)
    as (direct & Hdirect & Htotal & _).
  exists direct. split; [exact Hdirect|]. symmetry. exact Htotal.
Defined.

(** ** The tool table *)

Lemma getTool_unknown name :
  name ∉ HostTools.tool_names → name ∉ VFS.object_prototype_keys →
  HostTools.getTool name
  = Throw ("Unknown host tool: " +:+ name +:+ ". Available: writeFile, readFile, listFiles, deleteFile, fileExists, fileStat, mkdir, watchFile, vfsTree").
Proof.
  intros H1 H2. unfold HostTools.getTool. by rewrite !decide_False by done.
Qed.

(** Every tool that is advertised can be fetched and has a description of
    its own; the seven tools with required parameters are among them;
    asking for a name that is not in the table (nor a member every object
    inherits) fails with an error that lists the nine tools. *)
Theorem advertised_tools_are_registered :
  (HostTools.getAvailableTools).*1 = HostTools.tool_names
  ∧ (∀ name, name ∈ HostTools.tool_names
             ↔ HostTools.getTool name = Ok (HostTools.Registered name))
  ∧ (∀ name d, (name, d) ∈ HostTools.getAvailableTools →
       ∃ text, d = HostTools.Text text ∧ text ≠ "No description available")
  ∧ (∀ t, HostTools.tool_name t ∈ HostTools.tool_names)
  ∧ (∀ name, name ∉ HostTools.tool_names → name ∉ VFS.object_prototype_keys →
       HostTools.getTool name
       = Throw ("Unknown host tool: " +:+ name +:+ ". Available: writeFile, readFile, listFiles, deleteFile, fileExists, fileStat, mkdir, watchFile, vfsTree")).
Proof.
  split; [reflexivity|]. split; [|split; [|split]].
  - intros name. unfold HostTools.getTool. split.
    + intros Hin. by rewrite decide_True.
    + case_decide; [done|]. by case_decide.
  - intros name d Hin. unfold HostTools.getAvailableTools in Hin.
    apply list_elem_of_fmap in Hin as (name' & [= -> ->] & Hin).
    unfold HostTools.tool_names in Hin.
    repeat (apply elem_of_cons in Hin as [->|Hin]; [by eexists|]).
    by apply elem_of_nil in Hin.
  - intros t. unfold HostTools.tool_names.
    destruct t; simpl; rewrite !elem_of_cons; tauto.
  - apply getTool_unknown.
Qed.

Lemma advertised_tools_are_registered_witness :
  HostTools.getTool "runShell"
  = Throw "Unknown host tool: runShell. Available: writeFile, readFile, listFiles, deleteFile, fileExists, fileStat, mkdir, watchFile, vfsTree"
  ∧ HostTools.getTool "vfsTree" = Ok (HostTools.Registered "vfsTree").
Proof.
  destruct advertised_tools_are_registered as (_ & Hreg & _ & _ & Hunknown).
  split.
  - apply (Hunknown "runShell").
    + unfold HostTools.tool_names. rewrite !elem_of_cons, elem_of_nil.
      intros H. repeat (destruct H as [H|H]; [discriminate H|]). done.
    + unfold VFS.object_prototype_keys. rewrite !elem_of_cons, elem_of_nil.
      intros H. repeat (destruct H as [H|H]; [discriminate H|]). done.
  - apply Hreg. unfold HostTools.tool_names. rewrite !elem_of_cons. tauto.
Defined.

(** ** The constructor *)

Lemma scope_roots_eq v :
  VFS.scope_roots v
  = [Path.join [VFS.ecosystemPath v; "tasks"; VFS.taskId v; "runs"; VFS.runId v; "fs"];
     Path.join [VFS.ecosystemPath v; "tasks"; VFS.taskId v; "fs"];
     Path.join [VFS.ecosystemPath v; "vfs"; "global"]].
Proof. reflexivity. Qed.

Lemma ensure_ok dirs st st' :
  ensure dirs st = (Ok tt, st') →
  cwd st' = cwd st
  ∧ dirSize st' = dirSize st
  ∧ emitted st' = emitted st
  ∧ (∀ k n, nodes st !! k = Some n → nodes st' !! k = Some n)
  ∧ (∀ dir, dir ∈ dirs → is_Some (Disk.lookup st' dir)).
Proof.
  revert st. induction dirs as [|dir dirs IH]; intros st; simpl.
  - intros [= <-]. repeat split; try done. intros dir Hdir.
    by apply elem_of_nil in Hdir.
  - intros H. apply bind_ok_inv in H as ([] & st1 & Hstep & H).
    apply IH in H as (Hcwd & Hsize & Hemit & Hkeep & Hdirs).
    unfold bind in Hstep. rewrite existsSync_spec in Hstep.
    assert (cwd st1 = cwd st ∧ dirSize st1 = dirSize st ∧ emitted st1 = emitted st
            ∧ (∀ k n, nodes st !! k = Some n → nodes st1 !! k = Some n)
            ∧ is_Some (Disk.lookup st1 dir)) as (Hcwd1 & Hsize1 & Hemit1 & Hkeep1 & Hdir1).
    { case_bool_decide as Hfound; [by injection Hstep as <-|].
      destruct (mkdir_recursive_cases dir st) as [(e & E & _)|[E Hclear]];
        rewrite E in Hstep; [discriminate|]. injection Hstep as <-.
      repeat split; try done.
      - intros k n Hk. simpl. rewrite lookup_make_dirs. case_decide as Hin; [|done].
        specialize (Hclear k Hin). rewrite Hk in Hclear. by destruct n.
      - exists Dir. unfold Disk.lookup.
        change (Disk.locate (with_nodes _ st) dir) with (Disk.locate st dir).
        simpl. rewrite lookup_make_dirs.
        by rewrite decide_True by apply ancestors_self. }
    split; [congruence|]. split; [congruence|]. split; [congruence|].
    split; [by auto|].
    intros d [->|Hd]%elem_of_cons; [|by apply Hdirs].
    destruct Hdir1 as [n Hn]. exists n. rewrite <- Hn.
    assert (Disk.locate st' dir = Disk.locate st1 dir) as Hloc
      by (unfold Disk.locate; by rewrite Hcwd).
    unfold Disk.lookup in *. rewrite Hloc.
    destruct (nodes st1 !! Disk.locate st1 dir) as [m|] eqn:Hm; [|done].
    by rewrite (Hkeep _ _ Hm).
Qed.

Lemma ensure_again dirs st :
  (∀ dir, dir ∈ dirs → is_Some (Disk.lookup st dir)) →
  ensure dirs st = (Ok tt, st).
Proof.
  induction dirs as [|dir dirs IH]; intros Hdirs; simpl; [done|].
  unfold bind at 1. unfold bind at 1. rewrite existsSync_spec.
  rewrite bool_decide_eq_true_2 by apply Hdirs, list_elem_of_here.
  apply IH. intros d Hd. by apply Hdirs, list_elem_of_further.
Qed.

(** When the constructor goes through, the three scope roots exist, what
    was on the disk before is still there, no event has been published,
    and constructing again changes nothing. *)
Theorem constructor_ensures_roots v st st' :
  VFS._ensureDirectories v st = (Ok tt, st') →
  (∀ s root, VFS.scopes v s = VFS.Own root → is_Some (Disk.lookup st' root))
  ∧ (∀ k n, nodes st !! k = Some n → nodes st' !! k = Some n)
  ∧ emitted st' = emitted st
  ∧ VFS._ensureDirectories v st' = (Ok tt, st').
Proof.
  intros H. change (VFS._ensureDirectories v) with (ensure (VFS.scope_roots v)) in *.
  pose proof (ensure_ok _ _ _ H) as (_ & _ & Hemit & Hkeep & Hdirs).
  split; [|split; [done|split; [done|by apply ensure_again]]].
  intros s root Hs. apply Hdirs. rewrite scope_roots_eq.
  unfold VFS.scopes in Hs. rewrite !elem_of_cons.
  repeat case_decide; try discriminate; injection Hs as <-; auto.
Qed.

Lemma constructor_ensures_roots_witness :
  is_Some (Disk.lookup Fixture.fresh "/eco/tasks/t1/fs")
  ∧ VFS._ensureDirectories Fixture.vfs Fixture.fresh = (Ok tt, Fixture.fresh).
Proof.
  destruct (constructor_ensures_roots Fixture.vfs Fixture.blank Fixture.fresh
              eq_refl) as (Hroots & _ & _ & Hagain).
  split; [|exact Hagain]. by apply (Hroots "task").
Defined.

(** ** Where the child of a path leads *)

Lemma step_pop allow top below :
  top ≠ ".." → Path.step allow (top :: below) ".." = below.
Proof.
  intros Htop. unfold Path.step.
  rewrite decide_False by (intros [?|?]; done).
  rewrite decide_True by done. by rewrite decide_False by done.
Qed.

Lemma step_climb below :
  Path.step true (".." :: below) ".." = ".." :: ".." :: below.
Proof. reflexivity. Qed.

Lemma replay_normalized segs B :
  Forall plain segs →
  fold_left (Path.step false) (rev (fold_left (Path.step true) segs [])) B
  = fold_left (Path.step false) segs B.
Proof.
  induction segs as [|s segs IH] using rev_ind; intros Hsegs; [done|].
  apply Forall_app in Hsegs as [Hsegs Hs]. inversion_clear Hs as [|?? Hs' _].
  specialize (IH Hsegs). rewrite !fold_left_app. cbn [fold_left].
  rewrite <- IH.
  set (K := fold_left (Path.step true) segs []) in *.
  assert (settled true K) as HK by (apply settled_fold; [done|apply settled_nil]).
  destruct (decide (s = "" ∨ s = ".")) as [Hskip|Hskip].
  { by rewrite !step_skip by done. }
  destruct (decide (s = "..")) as [->|Hdots].
  - destruct K as [|top below] eqn:EK; [done|].
    destruct (decide (top = "..")) as [->|Htop].
    + rewrite step_climb.
      change (rev (".." :: ".." :: below)) with (rev (".." :: below) ++ [".."]).
      by rewrite fold_left_app.
    + rewrite step_pop by done.
      change (rev (top :: below)) with (rev below ++ [top]).
      rewrite fold_left_app. cbn [fold_left].
      destruct HK as (_ & Hne & _). inversion_clear Hne as [|?? [??] _].
      rewrite (step_push false _ top) by done.
      by rewrite step_pop by done.
  - rewrite (step_push true) by tauto.
    change (rev (s :: K)) with (rev K ++ [s]).
    by rewrite fold_left_app.
Qed.

Lemma append_nonempty_l (a b : string) : a ≠ "" → a +:+ b ≠ "".
Proof. destruct a; [done|]. by rewrite append_cons. Qed.

Lemma append_nonempty_r (a b : string) : b ≠ "" → a +:+ b ≠ "".
Proof. destruct a; [done|]. by rewrite append_cons. Qed.

Lemma normalize_nonempty p : Path.normalize p ≠ "".
Proof.
  unfold Path.normalize. case_decide; [done|]. case_decide.
  - by repeat case_match.
  - first [by apply append_nonempty_l, append_nonempty_r
          |by apply append_nonempty_r, append_nonempty_l].
Qed.

Lemma join_nonempty args : Path.join args ≠ "".
Proof.
  unfold Path.join. destruct (filter _ args); [done|apply normalize_nonempty].
Qed.

Lemma startsWith_slash_append p q :
  p ≠ "" → JS.startsWith (p +:+ q) "/" = JS.startsWith p "/".
Proof.
  destruct p as [|c p]; [done|]. by rewrite append_cons, !startsWith_cons.
Qed.

(** Where the child [leaf] of the path [p] leads *)
Lemma locate_child st p leaf :
  p ≠ "" → proper leaf →
  Disk.locate st (Path.join [p; leaf]) = Disk.locate st p ++ [leaf]
  ∧ JS.endsWithSlash (Path.join [p; leaf]) = false.
Proof.
  intros Hp (Hplain & Hne & Hdot & Hdots).
  unfold Path.join. rewrite !filter_cons, filter_nil.
  rewrite !decide_True by done. cbn [JS.join].
  set (q := p +:+ "/" +:+ leaf).
  assert (q ≠ "") as Hq by (subst q; destruct p; [done|by rewrite append_cons]).
  rewrite normalize_render by done.
  assert (JS.endsWithSlash q = false) as ->.
  { subst q. rewrite <- append_assoc, endsWithSlash_append by done.
    by apply endsWithSlash_plain. }
  assert (JS.startsWith q "/" = JS.startsWith p "/") as ->
    by by apply startsWith_slash_append.
  set (abs := JS.startsWith p "/").
  assert (JS.split q = JS.split p ++ [leaf]) as ->
    by (subst q; by rewrite split_append, Hplain).
  rewrite fold_left_app. cbn [fold_left].
  set (K := fold_left (Path.step (negb abs)) (JS.split p) []).
  assert (settled (negb abs) K) as HK
    by (apply settled_fold; [apply split_segments|apply settled_nil]).
  rewrite step_push by done.
  assert (settled (negb abs) (leaf :: K)) as HK'.
  { rewrite <- (step_push (negb abs) K leaf) by done. by apply settled_step. }
  split;
    [|by destruct (render_shape abs (leaf :: K) HK') as (_ & _ & _ & _ & _ & _ & _ & ?)].
  rewrite locate_render by done.
  change (rev (leaf :: K)) with (rev K ++ [leaf]).
  rewrite fold_left_app. cbn [fold_left]. rewrite step_push by done.
  cbn [rev]. f_equal. unfold Disk.locate, Path.normalizeSegments. f_equal.
  fold abs. rewrite fold_left_app. subst K. destruct abs; cbn [negb].
  - cbn [fold_left]. by destruct HK as (_ & _ & ?).
  - apply replay_normalized, split_segments.
Qed.

(** ** What [listFiles] lists *)

Lemma canonical_root v s root : VFS.scopes v s = VFS.Own root → canonical root.
Proof.
  intros (abs & leaf & below & -> & Hkept & Hleaf & _)%scope_root_shape.
  by exists abs, leaf, below.
Qed.

Lemma canonical_file_name p : canonical p → JS.endsWithSlash p = false.
Proof.
  intros (abs & x & rest & -> & Hkept & _).
  by destruct (render_shape abs (x :: rest) Hkept) as (_ & _ & _ & _ & _ & _ & _ & ?).
Qed.

Lemma child_of_Some k kn d :
  Disk.child_of k kn = Some d
  ↔ kn.1 = k ++ [Disk.name d]
    ∧ Disk.entryIsDirectory d = bool_decide (kn.2 = Dir).
Proof.
  unfold Disk.child_of. destruct kn as [key n]. simpl.
  destruct key as [|x key].
  - split; [done|]. intros [H _]. by destruct k.
  - case_decide as Hk.
    + split.
      * intros [= <-]. cbn [Disk.name Disk.entryIsDirectory].
        split; [|done]. rewrite <- Hk.
        change (x :: key = removelast (x :: key) ++ [List.last (x :: key) ""]).
        by apply app_removelast_last.
      * intros [Hkey Hdir]. destruct d as [nm isd].
        cbn [Disk.name Disk.entryIsDirectory] in *.
        rewrite Hkey, last_last, Hdir. done.
    + split; [done|]. intros [Hkey _]. exfalso. apply Hk.
      rewrite Hkey. apply removelast_last.
Qed.

Lemma elem_of_children st k d :
  d ∈ children st k
  ↔ ∃ n, nodes st !! (k ++ [Disk.name d]) = Some n
         ∧ Disk.entryIsDirectory d = bool_decide (n = Dir).
Proof.
  unfold children. rewrite list_elem_of_omap. split.
  - intros ([key n] & Hin & Hd). apply elem_of_map_to_list in Hin.
    apply child_of_Some in Hd as [Hkey Hdir]. simpl in *. subst key. eauto.
  - intros (n & Hn & Hdir). exists (k ++ [Disk.name d], n).
    split; [by apply elem_of_map_to_list|]. by apply child_of_Some.
Qed.

Lemma children_NoDup st k : NoDup (Disk.name <$> children st k).
Proof.
  unfold children.
  pose proof (NoDup_fst_map_to_list (nodes st)) as Hkeys.
  induction (map_to_list (nodes st)) as [|kn l IH]; simpl; [constructor|].
  rewrite fmap_cons in Hkeys. apply NoDup_cons in Hkeys as [Hkn Hkeys].
  destruct (Disk.child_of k kn) as [d|] eqn:Hd; [|by apply IH].
  rewrite fmap_cons. apply NoDup_cons. split; [|by apply IH].
  intros (d' & Hname & Hin)%list_elem_of_fmap.
  apply list_elem_of_omap in Hin as (kn' & Hin & Hd').
  apply child_of_Some in Hd as [Hkey _]. apply child_of_Some in Hd' as [Hkey' _].
  apply Hkn. apply list_elem_of_fmap. exists kn'. split; [|done]. congruence.
Qed.

Lemma readdir_directory st p :
  Disk.lookup st p = Some Dir →
  Disk.readdir p st = (Ok (children st (Disk.locate st p)), st).
Proof. intros H. unfold Disk.readdir. by rewrite H. Qed.

Lemma children_proper st k d :
  well_formed st → d ∈ children st k →
  proper (Disk.name d) ∧ is_Some (nodes st !! (k ++ [Disk.name d])).
Proof.
  intros Hwf (n & Hn & _)%elem_of_children. split; [|by exists n].
  apply Hwf in Hn. apply Forall_app in Hn as [_ Hn]. by inversion Hn.
Qed.

Lemma listFiles_nothing v dirpath scope st fullPath :
  VFS._resolvePath v (or_default (JStr "/") dirpath) scope = Ok fullPath →
  Disk.lookup st fullPath = None →
  VFS.listFiles v dirpath scope st
  = (Ok {| VFS.l_path := or_default (JStr "/") dirpath;
           VFS.l_scope := or_default (JStr "run") scope;
           VFS.files := []; VFS.directories := []; VFS.total := 0 |}, st).
Proof.
  intros Hres Hnone. unfold VFS.listFiles, try_catch, bind, lift.
  by rewrite resolvePath_default, Hres, existsSync_spec, Hnone.
Qed.

Lemma listFiles_file v dirpath scope st fullPath data :
  VFS._resolvePath v (or_default (JStr "/") dirpath) scope = Ok fullPath →
  Disk.lookup st fullPath = Some (File data) →
  VFS.listFiles v dirpath scope st
  = (Throw ("Failed to list files in " +:+ toString (or_default (JStr "/") dirpath)
              +:+ ": ENOTDIR"), st).
Proof.
  intros Hres Hfile. unfold VFS.listFiles, try_catch, bind, lift.
  rewrite resolvePath_default, Hres, existsSync_spec, Hfile. simpl.
  unfold Disk.readdir. by rewrite Hfile.
Qed.

Lemma well_formed_decide st :
  bool_decide (map_Forall (λ k _, Forall proper k) (nodes st)) = true →
  well_formed st.
Proof. intros H. by apply bool_decide_eq_true_1 in H. Qed.

Lemma resolved_nonempty v filepath scope fullPath :
  VFS._resolvePath v filepath scope = Ok fullPath → fullPath ≠ "".
Proof.
  unfold VFS._resolvePath. intros H.
  repeat case_match; simplify_eq; apply join_nonempty.
Qed.

Lemma lookup_child st p name n :
  p ≠ "" → proper name →
  nodes st !! (Disk.locate st p ++ [name]) = Some n →
  Disk.lookup st (Path.join [p; name]) = Some n.
Proof.
  intros Hp Hname Hn.
  destruct (locate_child st p name Hp Hname) as [Hloc Hslash].
  unfold Disk.lookup. rewrite Hloc, Hn, Hslash. by destruct n.
Qed.

Lemma stat_child st p name n :
  p ≠ "" → proper name →
  nodes st !! (Disk.locate st p ++ [name]) = Some n →
  Disk.stat (Path.join [p; name]) st
  = (Ok {| Disk.isDirectory := bool_decide (n = Dir);
           Disk.size := size_of st n |}, st).
Proof.
  intros Hp Hname Hn. unfold Disk.stat.
  rewrite (lookup_child st p name n) by done. by destruct n.
Qed.

Lemma listFiles_entries_children dirpath fullPath scope st entries files dirs :
  fullPath ≠ "" →
  (∀ d, d ∈ entries →
        proper (Disk.name d)
        ∧ is_Some (nodes st !! (Disk.locate st fullPath ++ [Disk.name d]))) →
  VFS.listFiles_entries dirpath fullPath scope entries files dirs st
  = (Ok (files ++ (listed dirpath fullPath scope st
                     <$> filter (λ d, Disk.entryIsDirectory d = false) entries),
         dirs ++ (listed dirpath fullPath scope st
                    <$> filter (λ d, Disk.entryIsDirectory d = true) entries)),
     st).
Proof.
  intros Hp. revert files dirs.
  induction entries as [|d entries IH]; intros files dirs Hall; simpl.
  - by rewrite !app_nil_r.
  - destruct (Hall d) as [Hname [n Hn]]; [apply list_elem_of_here|].
    erewrite bind_ok; [|by apply (stat_child st fullPath (Disk.name d) n)].
    cbn [Disk.size].
    assert (∀ d', d' ∈ entries →
              proper (Disk.name d')
              ∧ is_Some (nodes st !! (Disk.locate st fullPath ++ [Disk.name d'])))
      as Hrest by (intros d' Hd'; by apply Hall, list_elem_of_further).
    assert ({| VFS.e_name := Disk.name d;
               VFS.e_path := Path.join [dirpath; Disk.name d];
               VFS.e_scope := scope; VFS.e_size := size_of st n;
               VFS.e_fullPath := Path.join [fullPath; Disk.name d] |}
            = listed dirpath fullPath scope st d) as ->
      by (unfold listed; by rewrite Hn).
    rewrite !filter_cons.
    destruct (Disk.entryIsDirectory d) eqn:Hdir; rewrite IH by done.
    + rewrite decide_False by done. rewrite decide_True by done.
      by rewrite fmap_cons, <- app_assoc.
    + rewrite decide_True by done. rewrite decide_False by done.
      by rewrite fmap_cons, <- app_assoc.
Qed.

Lemma listFiles_directory v dirpath scope st fullPath :
  VFS._resolvePath v (or_default (JStr "/") dirpath) scope = Ok fullPath →
  well_formed st →
  Disk.lookup st fullPath = Some Dir →
  VFS.listFiles v dirpath scope st
  = (let item := listed (toString (or_default (JStr "/") dirpath)) fullPath
                   (or_default (JStr "run") scope) st in
     let entries := children st (Disk.locate st fullPath) in
     let files := item <$> filter (λ d, Disk.entryIsDirectory d = false) entries in
     let directories :=
       item <$> filter (λ d, Disk.entryIsDirectory d = true) entries in
     Ok {| VFS.l_path := or_default (JStr "/") dirpath;
           VFS.l_scope := or_default (JStr "run") scope;
           VFS.files := files; VFS.directories := directories;
           VFS.total := length files + length directories |}, st).
Proof.
  intros Hres Hwf Hdir. unfold VFS.listFiles.
  erewrite try_catch_ok; [reflexivity|].
  erewrite bind_ok; [|unfold lift; by rewrite resolvePath_default, Hres].
  erewrite bind_ok; [|apply existsSync_spec].
  rewrite Hdir, bool_decide_eq_true_2 by done. cbn [negb].
  erewrite bind_ok; [|by apply readdir_directory].
  erewrite bind_ok;
    [|apply listFiles_entries_children;
      [by eapply resolved_nonempty|intros d Hd; by apply children_proper]].
  reflexivity.
Qed.



(** ** The disk stays a tree *)

Lemma step_false_proper kept seg :
  plain seg → Forall proper kept → Forall proper (Path.step false kept seg).
Proof.
  intros Hseg Hkept. unfold Path.step.
  case_decide as Hskip; [done|]. case_decide as Hdots.
  - destruct kept as [|top below]; [done|]. case_decide; [done|].
    by inversion Hkept.
  - constructor; [|done]. unfold proper. tauto.
Qed.

Lemma fold_false_proper segs kept :
  Forall plain segs → Forall proper kept →
  Forall proper (fold_left (Path.step false) segs kept).
Proof.
  revert kept. induction segs as [|seg segs IH]; intros kept Hsegs Hkept; [done|].
  inversion_clear Hsegs. simpl. apply IH; [done|]. by apply step_false_proper.
Qed.

Lemma locate_proper st p : Forall plain (cwd st) → Forall proper (Disk.locate st p).
Proof.
  intros Hcwd. unfold Disk.locate, Path.normalizeSegments.
  apply Forall_rev, fold_false_proper; [|done].
  apply Forall_app. split; [by destruct (JS.startsWith p "/")|apply split_segments].
Qed.

Lemma elem_of_ancestors q k : q ∈ Disk.ancestors k ↔ q `prefix_of` k.
Proof.
  revert q. induction k as [|x k IH]; intros q; simpl.
  - rewrite list_elem_of_singleton. split; [by intros ->|].
    intros [tail Htail]. by destruct q.
  - rewrite elem_of_cons, list_elem_of_fmap. split.
    + intros [->|(q' & -> & Hq')]; [apply prefix_nil|].
      apply IH in Hq'. by apply prefix_cons.
    + intros Hq. destruct q as [|y q]; [by left|]. right.
      pose proof (prefix_cons_inv_1 _ _ _ _ Hq) as ->.
      apply prefix_cons_inv_2 in Hq. exists q. split; [done|]. by apply IH.
Qed.

Lemma parent_prefix k : Disk.parent k `prefix_of` k.
Proof.
  unfold Disk.parent. destruct (decide (k = [])) as [->|Hk]; [done|].
  exists [List.last k ""]. by apply app_removelast_last.
Qed.

Lemma parent_snoc k x : Disk.parent (k ++ [x]) = k.
Proof. unfold Disk.parent. apply removelast_last. Qed.

Lemma sound_mkdir_recursive p : maintains sound (Disk.mkdir_recursive p).
Proof.
  intros st Hsound.
  destruct (mkdir_recursive_cases p st) as [(e & -> & _)|[-> Hclear]]; [done|].
  destruct Hsound as (Hcwd & Hwf & Htree). split; [done|]. split.
  - intros k n. simpl. rewrite lookup_make_dirs. case_decide as Hin; [|apply Hwf].
    intros _. apply elem_of_ancestors in Hin as [tail Htail].
    pose proof (locate_proper st p Hcwd) as Hp. rewrite Htail in Hp.
    by apply Forall_app in Hp as [? _].
  - intros k n. simpl. rewrite !lookup_make_dirs. intros Hk Hne.
    destruct (decide (Disk.parent k ∈ _)) as [|Hparent]; [done|].
    destruct (decide (k ∈ _)) as [Hin|Hin].
    + exfalso. apply Hparent. apply elem_of_ancestors.
      etrans; [apply parent_prefix|]. by apply elem_of_ancestors.
    + by eapply Htree.
Qed.

Lemma parent_neq k : k ≠ [] → Disk.parent k ≠ k.
Proof.
  intros Hk Heq. apply (f_equal length) in Heq.
  rewrite (app_removelast_last "" Hk) in Heq at 2.
  rewrite length_app in Heq. unfold Disk.parent in Heq. simpl in Heq. lia.
Qed.

Lemma sound_disk_writeFile p data : maintains sound (Disk.writeFile p data).
Proof.
  intros st Hsound.
  destruct (Disk.writeFile p data st) as [[[]|e] st'] eqn:E.
  - destruct Hsound as (Hcwd & Hwf & Htree). pose proof E as E'. apply disk_writeFile_ok in E' as [_ ->].
    unfold Disk.writeFile in E.
    destruct (JS.endsWithSlash p); [discriminate|].
    set (k := Disk.locate st p) in *.
    assert (k ≠ [] ∧ nodes st !! k ≠ Some Dir
            ∧ nodes st !! Disk.parent k = Some Dir) as (Hk & Htarget & Hparent).
    { destruct k as [|x k]; [discriminate|].
      destruct (nodes st !! (x :: k)) as [[?|]|];
        destruct (nodes st !! Disk.parent (x :: k)) as [[?|]|]; done. }
    split; [done|]. split.
    + intros k' n. simpl. destruct (decide (k' = k)) as [->|Hne].
      * intros _. by apply locate_proper.
      * rewrite lookup_insert_ne by done. apply Hwf.
    + intros k' n. simpl. destruct (decide (k' = k)) as [->|Hne].
      * intros _ _. rewrite lookup_insert_ne by (symmetry; by apply parent_neq).
        done.
      * rewrite lookup_insert_ne by done. intros Hk' Hne'.
        pose proof (Htree k' n Hk' Hne') as Hdir.
        rewrite lookup_insert_ne; [done|]. intros Heq. by rewrite <- Heq in Hdir.
  - unfold Disk.writeFile in E. repeat case_match; simplify_eq; done.
Qed.

Lemma sound_unlink p : maintains sound (Disk.unlink p).
Proof.
  intros st Hsound. unfold Disk.unlink.
  destruct (Disk.lookup st p) as [[data|]|] eqn:Hlook; [|done|done].
  destruct Hsound as (Hcwd & Hwf & Htree).
  apply lookup_file_inv in Hlook as [_ Hfile].
  split; [done|]. split.
  - intros k n. simpl. intros [_ Hk]%lookup_delete_Some. by eapply Hwf.
  - intros k n. simpl. intros [Hne Hk]%lookup_delete_Some Hroot.
    pose proof (Htree k n Hk Hroot) as Hdir.
    rewrite lookup_delete_ne; [done|]. intros Heq. rewrite <- Heq in Hdir.
    congruence.
Qed.

Lemma sound_rm_recursive p : maintains sound (Disk.rm_recursive p).
Proof.
  intros st (Hcwd & Hwf & Htree). split; [done|]. split.
  - intros k n. simpl. intros [Hk _]%map_lookup_filter_Some. by eapply Hwf.
  - intros k n. simpl. intros [Hk Hout]%map_lookup_filter_Some Hroot.
    apply map_lookup_filter_Some. split; [by eapply Htree|].
    simpl in *. intros Hin. apply Hout. etrans; [done|apply parent_prefix].
Qed.

Lemma sound_emit e st : sound st → sound (emit e st).
Proof. done. Qed.

Lemma sound_writeFile v filepath content scope append :
  maintains sound (VFS.writeFile v filepath content scope append).
Proof.
  unfold VFS.writeFile.
  apply maintains_try_catch; [|intros; apply read_only_maintains; by intros ?].
  apply maintains_bind; [apply read_only_maintains, read_only_lift|].
  intros fullPath.
  apply maintains_bind; [apply read_only_maintains, read_only_existsSync|].
  intros dirExists. apply maintains_bind.
  { destruct dirExists; [apply read_only_maintains, read_only_ret|].
    apply sound_mkdir_recursive. }
  intros _. apply maintains_bind; [apply read_only_maintains, read_only_existsSync|].
  intros targetExists. apply maintains_bind.
  { apply read_only_maintains. destruct (append && targetExists); [|done].
    apply read_only_bind; [apply read_only_disk_readFile|]. by intros ??. }
  intros content'. apply maintains_bind; [apply read_only_maintains, read_only_lift|].
  intros data. apply maintains_bind; [apply sound_disk_writeFile|].
  intros _. apply maintains_bind; [apply read_only_maintains, read_only_stat|].
  intros stat. by apply maintains_emit.
Qed.

Lemma sound_mkdir v dirpath scope : maintains sound (VFS.mkdir v dirpath scope).
Proof.
  unfold VFS.mkdir.
  apply maintains_try_catch; [|intros; apply read_only_maintains; by intros ?].
  apply maintains_bind; [apply read_only_maintains, read_only_lift|].
  intros fullPath. apply maintains_bind; [apply sound_mkdir_recursive|].
  intros. apply read_only_maintains, read_only_ret.
Qed.

Lemma sound_deleteFile v filepath scope :
  maintains sound (VFS.deleteFile v filepath scope).
Proof.
  unfold VFS.deleteFile.
  apply maintains_try_catch; [|intros; apply read_only_maintains; by intros ?].
  apply maintains_bind; [apply read_only_maintains, read_only_lift|].
  intros fullPath.
  apply maintains_bind; [apply read_only_maintains, read_only_existsSync|].
  intros found. apply maintains_bind.
  { apply read_only_maintains. by destruct (negb found). }
  intros _. apply maintains_bind; [apply read_only_maintains, read_only_stat|].
  intros stat. apply maintains_bind.
  { destruct (Disk.isDirectory stat);
      [apply sound_rm_recursive|apply sound_unlink]. }
  intros _. by apply maintains_emit.
Qed.

Lemma sound_readFile v filepath scope : maintains sound (VFS.readFile v filepath scope).
Proof.
  intros st Hsound. unfold VFS.readFile.
  pose proof (readFile_loop_state v filepath (or_default (JStr "run") scope)
                (if decide (or_default (JStr "run") scope = JStr "auto")
                 then [JStr "run"; JStr "task"; JStr "global"]
                 else [or_default (JStr "run") scope]) [] st) as H.
  destruct (VFS.readFile_loop _ _ _ _ _ st) as [[r|e] st']; by subst.
Qed.

Lemma sound_ensure dirs : maintains sound (ensure dirs).
Proof.
  induction dirs as [|dir dirs IH]; simpl;
    [apply read_only_maintains, read_only_ret|].
  apply maintains_bind; [|by intros _].
  apply maintains_bind; [apply read_only_maintains, read_only_existsSync|].
  intros found. destruct found; [apply read_only_maintains, read_only_ret|].
  apply sound_mkdir_recursive.
Qed.

Lemma sound_copyFile src dest : maintains sound (Disk.copyFile src dest).
Proof.
  intros st Hsound. unfold Disk.copyFile.
  destruct (Disk.lookup st src) as [[data|]|]; [|done|done].
  by apply sound_disk_writeFile.
Qed.

Lemma sound_copy_entries self src dest entries :
  (∀ s d, maintains sound (self s d)) →
  maintains sound (VFS.copy_entries self src dest entries).
Proof.
  intros Hself. induction entries as [|dirent rest IH]; simpl;
    [apply read_only_maintains, read_only_ret|].
  apply maintains_bind.
  { destruct (Disk.entryIsDirectory dirent); [apply Hself|].
    apply maintains_bind; [apply sound_copyFile|].
    intros. apply read_only_maintains, read_only_ret. }
  intros [[]|]; [apply IH|apply read_only_maintains, read_only_ret].
Qed.

Lemma sound_copyDirectory fuel src dest :
  maintains sound (VFS._copyDirectory fuel src dest).
Proof.
  revert src dest. induction fuel as [|fuel IH]; intros src dest; simpl;
    [apply read_only_maintains, read_only_ret|].
  apply maintains_bind; [apply read_only_maintains, read_only_existsSync|].
  intros found. apply maintains_bind.
  { destruct found; [apply read_only_maintains, read_only_ret|].
    apply sound_mkdir_recursive. }
  intros _. apply maintains_bind; [apply read_only_maintains, read_only_readdir|].
  intros entries. by apply sound_copy_entries.
Qed.

Lemma sound_exportToOSjs fuel v osJsVFSPath :
  maintains sound (VFS.exportToOSjs fuel v osJsVFSPath).
Proof.
  unfold VFS.exportToOSjs.
  apply maintains_try_catch; [|intros; apply read_only_maintains; by intros ?].
  apply maintains_bind; [apply read_only_maintains, read_only_existsSync|].
  intros found. apply maintains_bind.
  { destruct found; [apply read_only_maintains, read_only_ret|].
    apply sound_mkdir_recursive. }
  intros _. apply maintains_bind; [|intros; apply read_only_maintains, read_only_ret].
  induction (VFS.scope_entries v) as [|[scopeName scopePath] rest IH]; simpl;
    [apply read_only_maintains, read_only_ret|].
  apply maintains_bind; [apply read_only_maintains, read_only_existsSync|].
  intros found'. apply maintains_bind.
  { destruct found'; [apply sound_copyDirectory|].
    apply read_only_maintains, read_only_ret. }
  intros [[]|]; [apply IH|apply read_only_maintains, read_only_ret].
Qed.

(** The disk stays a tree.  On a disk where every entry has a proper name
    and sits in a directory, every operation that writes (the constructor,
    [writeFile], [mkdir], [deleteFile], [exportToOSjs]) leaves such a disk
    behind, whether it succeeds or fails and whatever it is called with;
    so does [readFile]. *)
Theorem operations_keep_the_disk_a_tree v filepath content scope append
    osJsVFSPath fuel st :
  sound st →
  sound (VFS._ensureDirectories v st).2
  ∧ sound (VFS.writeFile v filepath content scope append st).2
  ∧ sound (VFS.mkdir v filepath scope st).2
  ∧ sound (VFS.deleteFile v filepath scope st).2
  ∧ sound (VFS.readFile v filepath scope st).2
  ∧ sound (VFS.exportToOSjs fuel v osJsVFSPath st).2.
Proof.
  intros Hsound.
  split; [by apply (sound_ensure (VFS.scope_roots v))|].
  split; [by apply sound_writeFile|]. split; [by apply sound_mkdir|].
  split; [by apply sound_deleteFile|]. split; [by apply sound_readFile|].
  by apply sound_exportToOSjs.
Qed.

Lemma sound_decide st :
  bool_decide (Forall plain (cwd st)) = true →
  bool_decide (map_Forall (λ k _, Forall proper k) (nodes st)) = true →
  bool_decide (map_Forall (λ k (_ : node),
                  k ≠ [] → nodes st !! Disk.parent k = Some Dir) (nodes st)) = true →
  sound st.
Proof.
  intros H1%bool_decide_eq_true_1 H2%bool_decide_eq_true_1
    H3%bool_decide_eq_true_1. done.
Qed.

Lemma operations_keep_the_disk_a_tree_witness :
  sound (VFS.writeFile Fixture.vfs (JStr "a/b.txt") (JStr "x") (JStr "task")
           false Fixture.nested).2
  ∧ sound (VFS.deleteFile Fixture.vfs (JStr "sub") (JStr "run") Fixture.nested).2.
Proof.
  assert (sound Fixture.nested) as Hsound
    by (apply sound_decide; vm_compute; reflexivity).
  destruct (operations_keep_the_disk_a_tree Fixture.vfs (JStr "a/b.txt")
              (JStr "x") (JStr "task") false "/osjs" 0 Fixture.nested Hsound)
    as (_ & Hwrite & _).
  destruct (operations_keep_the_disk_a_tree Fixture.vfs (JStr "sub")
              (JStr "x") (JStr "run") false "/osjs" 0 Fixture.nested Hsound)
    as (_ & _ & _ & Hdelete & _).
  by split.
Defined.

(** ** The size of a scope *)

Lemma sum_with_zero {A} (f : A → nat) l :
  (∀ x, x ∈ l → f x = 0) → sum_list_with f l = 0.
Proof.
  induction l as [|y l IH]; intros H; simpl; [done|].
  rewrite (H y) by apply list_elem_of_here.
  rewrite IH; [done|]. intros x Hx. by apply H, list_elem_of_further.
Qed.

Lemma sum_with_single {A} (f : A → nat) l x :
  NoDup l → x ∈ l → (∀ y, y ∈ l → y ≠ x → f y = 0) → sum_list_with f l = f x.
Proof.
  induction l as [|y l IH]; intros Hdup Hx Hzero; [by apply elem_of_nil in Hx|].
  apply NoDup_cons in Hdup as [Hy Hdup]. simpl.
  apply elem_of_cons in Hx as [->|Hx].
  - rewrite sum_with_zero; [lia|]. intros z Hz.
    apply Hzero; [by apply list_elem_of_further|]. by intros ->.
  - rewrite (Hzero y); [|apply list_elem_of_here|by intros ->].
    apply IH; [done|done|]. intros z Hz. by apply Hzero, list_elem_of_further.
Qed.

Lemma sum_with_ext {A} (f g : A → nat) l :
  (∀ x, x ∈ l → f x = g x) → sum_list_with f l = sum_list_with g l.
Proof.
  induction l as [|y l IH]; intros H; simpl; [done|].
  rewrite (H y) by apply list_elem_of_here.
  rewrite IH; [done|]. intros x Hx. by apply H, list_elem_of_further.
Qed.

Lemma sum_with_plus {A} (f g : A → nat) l :
  sum_list_with (λ x, f x + g x) l = sum_list_with f l + sum_list_with g l.
Proof. induction l as [|y l IH]; simpl; [done|]. rewrite IH. lia. Qed.

Lemma sum_with_exchange {A B} (h : A → B → nat) la lb :
  sum_list_with (λ x, sum_list_with (h x) lb) la
  = sum_list_with (λ y, sum_list_with (λ x, h x y) la) lb.
Proof.
  induction la as [|x la IH]; simpl.
  - symmetry. by apply sum_with_zero.
  - by rewrite IH, sum_with_plus.
Qed.

Lemma max_with_le {A} (f : A → nat) l x : x ∈ l → f x ≤ max_list_with f l.
Proof. induction 1; simpl; lia. Qed.

Lemma length_le_depth st k n : nodes st !! k = Some n → length k ≤ depth st.
Proof.
  intros Hk. unfold depth.
  apply (max_with_le (λ kn : list string * node, length kn.1) _ (k, n)).
  by apply elem_of_map_to_list.
Qed.

Lemma above_is_directory st k tail n :
  tree_shaped st → tail ≠ [] → nodes st !! (k ++ tail) = Some n →
  nodes st !! k = Some Dir.
Proof.
  intros Htree. revert n. induction tail as [|x tail IH] using rev_ind; [done|].
  intros n _ Hn. rewrite app_assoc in Hn.
  apply Htree in Hn. rewrite parent_snoc in Hn.
  specialize (Hn ltac:(by destruct (k ++ tail))). destruct tail as [|y tail'] using rev_ind.
  - by rewrite app_nil_r in Hn.
  - eapply IH; [|done]. by destruct tail'.
Qed.

Lemma bytes_below_file st k data :
  tree_shaped st → nodes st !! k = Some (File data) →
  bytes_below st k = String.length data.
Proof.
  intros Htree Hk. unfold bytes_below.
  rewrite (sum_with_single _ _ (k, File data)).
  - unfold bytes_at. simpl. by rewrite decide_True.
  - apply NoDup_map_to_list.
  - by apply elem_of_map_to_list.
  - intros [k' n'] Hin%elem_of_map_to_list Hne. unfold bytes_at. simpl.
    destruct n' as [data'|]; [|done]. case_decide as Hpre; [|done].
    destruct Hpre as [tail ->]. destruct tail as [|x tail].
    + rewrite app_nil_r in *. congruence.
    + rewrite (above_is_directory st k (x :: tail) (File data') Htree) in Hk;
        done.
Qed.

Lemma bytes_below_nothing st k :
  tree_shaped st → nodes st !! k = None → bytes_below st k = 0.
Proof.
  intros Htree Hk. apply sum_with_zero.
  intros [k' n'] Hin%elem_of_map_to_list. unfold bytes_at. simpl.
  destruct n' as [data'|]; [|done]. case_decide as Hpre; [|done].
  destruct Hpre as [tail ->]. destruct tail as [|x tail].
  - rewrite app_nil_r in *. congruence.
  - rewrite (above_is_directory st k (x :: tail) (File data') Htree) in Hk;
      done.
Qed.

Lemma bytes_below_directory st k :
  tree_shaped st → nodes st !! k = Some Dir →
  bytes_below st k
  = sum_list_with (λ d, bytes_below st (k ++ [Disk.name d])) (children st k).
Proof.
  intros Htree Hk. unfold bytes_below at 2.
  rewrite sum_with_exchange. apply sum_with_ext.
  intros [k' n'] Hin%elem_of_map_to_list.
  destruct n' as [data|]; [|symmetry; by apply sum_with_zero].
  destruct (decide (k `prefix_of` k')) as [[tail ->]|Hout].
  - destruct tail as [|c tail]; [rewrite app_nil_r in Hin; congruence|].
    assert (∃ n, nodes st !! (k ++ [c]) = Some n) as [n Hn].
    { destruct tail as [|y tail]; [by eexists|]. exists Dir.
      apply (above_is_directory st (k ++ [c]) (y :: tail) (File data));
        [done|done|]. by rewrite <- app_assoc. }
    set (d := {| Disk.name := c; Disk.entryIsDirectory := bool_decide (n = Dir) |}).
    rewrite (sum_with_single _ _ d).
    + unfold bytes_at. simpl.
      rewrite (decide_True (P := k `prefix_of` k ++ c :: tail))
        by by exists (c :: tail).
      rewrite decide_True by (exists tail; by rewrite <- app_assoc). done.
    + eapply NoDup_fmap_1, children_NoDup.
    + apply elem_of_children. by exists n.
    + intros d' (n'' & Hn' & Hd')%elem_of_children Hne. unfold bytes_at. simpl.
      destruct (decide (_ `prefix_of` _)) as [Hpre|]; [|done]. exfalso. apply Hne.
      destruct Hpre as [tail' Htail']. rewrite <- app_assoc in Htail'.
      apply app_inv_head in Htail'. injection Htail' as Hc _.
      destruct d' as [nm isd]. simpl in *. subst nm.
      rewrite Hn in Hn'. injection Hn' as <-. by rewrite Hd'.
  - unfold bytes_at at 1. simpl. rewrite decide_False by done.
    symmetry. apply sum_with_zero. intros d _. unfold bytes_at. simpl.
    rewrite decide_False; [done|]. intros Hpre. apply Hout.
    etrans; [|done]. by apply prefix_app_r.
Qed.

Lemma canonical_nonempty p : canonical p → p ≠ "".
Proof.
  intros (abs & x & rest & -> & Hkept & _).
  by destruct (render_shape abs (x :: rest) Hkept) as (c & t & -> & _).
Qed.

Lemma lookup_dir_inv st p :
  Disk.lookup st p = Some Dir → nodes st !! Disk.locate st p = Some Dir.
Proof.
  unfold Disk.lookup. destruct (nodes st !! Disk.locate st p) as [[data|]|];
    [|done|done]. by destruct (JS.endsWithSlash p).
Qed.

Lemma sum_items_spec self st p items size :
  sound st → p ≠ "" →
  (∀ d, d ∈ items → d ∈ children st (Disk.locate st p)) →
  (∀ d, d ∈ items → Disk.entryIsDirectory d = true →
        self (Path.join [p; Disk.name d]) st
        = (Ok (Some (bytes_below st (Disk.locate st p ++ [Disk.name d]))), st)) →
  VFS.sum_items self p items size st
  = (Ok (Some (size + sum_list_with
                        (λ d, bytes_below st (Disk.locate st p ++ [Disk.name d]))
                        items)), st).
Proof.
  intros (Hcwd & Hwf & Htree) Hp. revert size.
  induction items as [|d items IH]; intros size Hin Hself; simpl.
  - by rewrite Nat.add_0_r.
  - assert (∀ d', d' ∈ items → d' ∈ children st (Disk.locate st p)) as Hin'
      by (intros d' Hd'; by apply Hin, list_elem_of_further).
    assert (∀ d', d' ∈ items → Disk.entryIsDirectory d' = true →
              self (Path.join [p; Disk.name d']) st
              = (Ok (Some (bytes_below st (Disk.locate st p ++ [Disk.name d']))), st))
      as Hself' by (intros d' Hd'; by apply Hself, list_elem_of_further).
    destruct (Disk.entryIsDirectory d) eqn:Hdir.
    + erewrite bind_ok; [|by apply Hself; [apply list_elem_of_here|]].
      cbn beta iota. rewrite IH by done. do 3 f_equal. lia.
    + pose proof (Hin d (list_elem_of_here _ _)) as Hd.
      destruct (children_proper st _ d Hwf Hd) as [Hname _].
      apply elem_of_children in Hd as (n & Hn & Hisdir).
      rewrite Hdir in Hisdir. destruct n as [data|]; [|done].
      erewrite bind_ok; [|by apply (stat_child st p (Disk.name d) (File data))].
      cbn beta iota. rewrite IH by done. rewrite (bytes_below_file st _ data) by done.
      simpl. do 3 f_equal. lia.
Qed.

Lemma getDirectorySize_spec st :
  sound st →
  ∀ fuel p,
    p ≠ "" → Disk.lookup st p = Some Dir →
    depth st < fuel + length (Disk.locate st p) →
    VFS._getDirectorySize fuel p st
    = (Ok (Some (bytes_below st (Disk.locate st p))), st).
Proof.
  intros Hsound. pose proof Hsound as (Hcwd & Hwf & Htree).
  induction fuel as [|fuel IH]; intros p Hp Hdir Hfuel.
  - apply lookup_dir_inv, length_le_depth in Hdir. lia.
  - simpl. erewrite bind_ok; [|apply existsSync_spec].
    rewrite Hdir, bool_decide_eq_true_2 by done. cbn [negb].
    erewrite bind_ok; [|by apply readdir_directory].
    rewrite sum_items_spec; [|done|done|done|].
    + rewrite (bytes_below_directory st (Disk.locate st p));
        [done|done|by apply lookup_dir_inv].
    + intros d Hd Hisdir.
      destruct (children_proper st _ d Hwf Hd) as [Hname _].
      apply elem_of_children in Hd as (n & Hn & Hn').
      rewrite Hisdir in Hn'. destruct n as [data|]; [done|].
      destruct (locate_child st p (Disk.name d) Hp Hname) as [Hloc _].
      rewrite <- Hloc. apply IH; [apply join_nonempty|by apply lookup_child|].
      rewrite Hloc, length_app. simpl. lia.
Qed.

Lemma getDirectorySize_missing st fuel p :
  Disk.lookup st p = None →
  VFS._getDirectorySize (S fuel) p st = (Ok (Some 0), st).
Proof.
  intros Hnone. simpl. unfold bind. by rewrite existsSync_spec, Hnone.
Qed.

Lemma getVFSTree_entries_spec st fuel entries tree :
  sound st → depth st < fuel →
  (∀ e, e ∈ entries →
        canonical e.2 ∧ ∀ data, Disk.lookup st e.2 ≠ Some (File data)) →
  VFS.getVFSTree_entries fuel entries tree st
  = (Ok (Some (tree ++ (tree_entry_of st <$> entries))), st).
Proof.
  intros Hsound Hfuel. revert tree.
  induction entries as [|[scopeName scopePath] rest IH]; intros tree Hall; simpl.
  - by rewrite app_nil_r.
  - destruct (Hall (scopeName, scopePath)) as [Hp Hnofile];
      [apply list_elem_of_here|]. simpl in Hp, Hnofile.
    erewrite bind_ok; [|apply existsSync_spec].
    assert (VFS._getDirectorySize fuel scopePath st
            = (Ok (Some (bytes_below st (Disk.locate st scopePath))), st)) as Hsize.
    { destruct (Disk.lookup st scopePath) as [[data|]|] eqn:Hlook.
      - by destruct (Hnofile data).
      - apply getDirectorySize_spec; [done|by apply canonical_nonempty|done|lia].
      - destruct fuel as [|fuel]; [lia|].
        rewrite getDirectorySize_missing by done.
        rewrite bytes_below_nothing; [done|apply Hsound|].
        unfold Disk.lookup in Hlook. rewrite (canonical_file_name _ Hp) in Hlook.
        by destruct (nodes st !! Disk.locate st scopePath) as [[?|]|]. }
    erewrite bind_ok; [|exact Hsize].
    cbn beta iota. rewrite IH by (intros e He; by apply Hall, list_elem_of_further).
    by rewrite <- app_assoc.
Qed.

Lemma scope_entries_roots v e :
  e ∈ VFS.scope_entries v → VFS.scopes v e.1 = VFS.Own e.2.
Proof.
  unfold VFS.scope_entries. intros (key & Hkey & He)%list_elem_of_omap.
  destruct (VFS.scopes v key) as [root| |] eqn:Hroot; [|done|done].
  by injection He as <-.
Qed.

(** What [vfsTree] reports.  On a disk that is a tree of properly named
    entries, where no scope root is a regular file, and given a bound on
    the recursion above the length of the longest path on the disk,
    [vfsTree] succeeds, changes nothing, and returns for each of [run],
    [task] and [global], in this order, the root of the scope, whether it
    exists, and as its size the total number of bytes of the regular files
    below the root; directories add nothing, and a root that does not exist
    has size 0. *)
Theorem vfsTree_reports_bytes v st fuel :
  sound st → depth st < fuel →
  (∀ s root data, VFS.scopes v s = VFS.Own root →
                  Disk.lookup st root ≠ Some (File data)) →
  HostTools.vfsTree fuel v st
  = (Ok (Some (HostTools.TreeSuccess (tree_entry_of st <$> VFS.scope_entries v))),
     st)
  ∧ (VFS.scope_entries v).*1 = ["run"; "task"; "global"]
  ∧ (VFS.scope_entries v).*2 = VFS.scope_roots v
  ∧ ∀ e, e ∈ VFS.scope_entries v → Disk.lookup st e.2 = None →
         VFS.t_exists (tree_entry_of st e) = false
         ∧ VFS.t_size (tree_entry_of st e) = 0.
Proof.
  intros Hsound Hfuel Hroots. split; [|split; [done|split; [done|]]].
  - unfold HostTools.vfsTree, VFS.getVFSTree, try_catch, bind.
    rewrite getVFSTree_entries_spec; [done|done|done|].
    intros e He%scope_entries_roots. split; [by eapply canonical_root|].
    intros data. by eapply Hroots.
  - intros e He%scope_entries_roots Hnone. unfold tree_entry_of. simpl.
    rewrite Hnone. split; [done|].
    apply bytes_below_nothing; [apply Hsound|].
    unfold Disk.lookup in Hnone.
    rewrite (canonical_file_name _ (canonical_root _ _ _ He)) in Hnone.
    by destruct (nodes st !! Disk.locate st e.2) as [[?|]|].
Qed.

Lemma vfsTree_reports_bytes_witness :
  HostTools.vfsTree 10 Fixture.vfs Fixture.two_levels
  = (Ok (Some (HostTools.TreeSuccess
       [{| VFS.t_scope := "run"; VFS.t_path := "/eco/tasks/t1/runs/r1/fs";
           VFS.t_exists := true; VFS.t_size := 4 |};
        {| VFS.t_scope := "task"; VFS.t_path := "/eco/tasks/t1/fs";
           VFS.t_exists := true; VFS.t_size := 0 |};
        {| VFS.t_scope := "global"; VFS.t_path := "/eco/vfs/global";
           VFS.t_exists := true; VFS.t_size := 0 |}])), Fixture.two_levels).
Proof.
  destruct (vfsTree_reports_bytes Fixture.vfs Fixture.two_levels 10) as [H _].
  - apply sound_decide; vm_compute; reflexivity.
  - vm_compute. lia.
  - intros s root data Hs. unfold VFS.scopes in Hs.
    repeat case_decide; try discriminate Hs; injection Hs as <-;
      vm_compute; discriminate.
  - rewrite H. by do 3 f_equal.
Defined.

(** ** What [exportToOSjs] leaves alone *)

Lemma maintains_and {A} (P Q : state → Prop) (m : M A) :
  maintains P m → maintains Q m → maintains (λ st, P st ∧ Q st) m.
Proof. intros HP HQ st [??]. split; [by apply HP|by apply HQ]. Qed.

Lemma maintains_bind_ok {A B} (P : state → Prop) (Q : A → Prop)
    (m : M A) (k : A → M B) :
  (∀ st a st', P st → m st = (Ok a, st') → Q a) →
  maintains P m → (∀ a, Q a → maintains P (k a)) → maintains P (bind m k).
Proof.
  intros HQ Hm Hk st HP. unfold bind. specialize (Hm st HP). specialize (HQ st).
  destruct (m st) as [[a|e] st1]; simpl in Hm; [|done].
  apply Hk; [by eapply HQ|done].
Qed.

Lemma maintains_copyFile st0 k n src dest :
  k ≠ Disk.locate st0 dest →
  maintains (in_place st0 k n) (Disk.copyFile src dest).
Proof.
  intros Hne st HP. unfold Disk.copyFile.
  destruct (Disk.lookup st src) as [[data|]|]; [|done|done].
  by apply maintains_disk_writeFile.
Qed.

Lemma locate_same_cwd st0 st p : cwd st = cwd st0 → Disk.locate st p = Disk.locate st0 p.
Proof. intros H. unfold Disk.locate. by rewrite H. Qed.

Section export.
Context (st0 : state) (k : list string) (n : node) (e : list string).
Hypothesis Hout : ¬ e `prefix_of` k.

Lemma below_child dest name :
  below st0 e dest → proper name → below st0 e (Path.join [dest; name]).
Proof.
  intros [Hne Hpre] Hname. split; [apply join_nonempty|].
  destruct (locate_child st0 dest name Hne Hname) as [-> _].
  by apply prefix_app_r.
Qed.

Lemma kept_mkdir_recursive p : maintains (untouched st0 k n) (Disk.mkdir_recursive p).
Proof.
  apply maintains_and; [apply sound_mkdir_recursive|apply maintains_mkdir_recursive].
Qed.

Lemma kept_read_only {A} (m : M A) : read_only m → maintains (untouched st0 k n) m.
Proof. apply read_only_maintains. Qed.

Lemma kept_copyFile src dest name :
  below st0 e dest → proper name →
  maintains (untouched st0 k n) (Disk.copyFile src (Path.join [dest; name])).
Proof.
  intros Hdest Hname.
  apply maintains_and; [apply sound_copyFile|apply maintains_copyFile].
  destruct (below_child dest name Hdest Hname) as [_ Hpre]. by intros ->.
Qed.

Lemma kept_copy_entries self src dest entries :
  below st0 e dest → Forall (λ d, proper (Disk.name d)) entries →
  (∀ s d, below st0 e d → maintains (untouched st0 k n) (self s d)) →
  maintains (untouched st0 k n) (VFS.copy_entries self src dest entries).
Proof.
  intros Hdest Hnames Hself.
  induction entries as [|dirent rest IH]; simpl;
    [apply kept_read_only, read_only_ret|].
  inversion_clear Hnames as [|?? Hname Hrest].
  apply maintains_bind.
  { destruct (Disk.entryIsDirectory dirent).
    - apply Hself. by apply below_child.
    - apply maintains_bind; [by apply kept_copyFile|].
      intros. apply kept_read_only, read_only_ret. }
  intros [[]|]; [by apply IH|apply kept_read_only, read_only_ret].
Qed.

Lemma readdir_proper p st entries st' :
  untouched st0 k n st → Disk.readdir p st = (Ok entries, st') →
  Forall (λ d, proper (Disk.name d)) entries.
Proof.
  intros [(_ & Hwf & _) _]. unfold Disk.readdir.
  destruct (Disk.lookup st p) as [[data|]|]; [done| |done].
  intros [= <- _]. apply Forall_forall. intros d Hd.
  by destruct (children_proper st _ d Hwf Hd).
Qed.

Lemma kept_copyDirectory fuel src dest :
  below st0 e dest → maintains (untouched st0 k n) (VFS._copyDirectory fuel src dest).
Proof.
  revert src dest. induction fuel as [|fuel IH]; intros src dest Hdest; simpl;
    [apply kept_read_only, read_only_ret|].
  apply maintains_bind; [apply kept_read_only, read_only_existsSync|].
  intros found. apply maintains_bind.
  { destruct found; [apply kept_read_only, read_only_ret|].
    apply kept_mkdir_recursive. }
  intros _.
  apply (maintains_bind_ok (untouched st0 k n) (Forall (λ d, proper (Disk.name d)))).
  - intros st entries st' Hkept. by apply readdir_proper.
  - apply kept_read_only, read_only_readdir.
  - intros entries Hnames. apply kept_copy_entries; [done|done|].
    intros s d Hd. by apply IH.
Qed.

Lemma kept_export_scopes fuel exportPath entries :
  exportPath ≠ "" → Disk.locate st0 exportPath = e →
  Forall (λ scope : string * string, proper scope.1) entries →
  maintains (untouched st0 k n) (VFS.export_scopes fuel exportPath entries).
Proof.
  intros Hne He Hnames.
  induction entries as [|[scopeName scopePath] rest IH]; simpl;
    [apply kept_read_only, read_only_ret|].
  inversion_clear Hnames as [|?? Hname Hrest]. simpl in Hname.
  apply maintains_bind; [apply kept_read_only, read_only_existsSync|].
  intros found. apply maintains_bind.
  { destruct found; [|apply kept_read_only, read_only_ret].
    apply kept_copyDirectory. apply below_child; [|done].
    split; [done|]. by rewrite He. }
  intros [[]|]; [by apply IH|apply kept_read_only, read_only_ret].
Qed.

End export.

Lemma scope_names_proper v :
  Forall (λ scope : string * string, proper scope.1) (VFS.scope_entries v).
Proof.
  apply Forall_forall. intros [s root] Hin. simpl.
  assert (s ∈ (VFS.scope_entries v).*1) as Hs
    by (apply list_elem_of_fmap; by exists (s, root)).
  change ((VFS.scope_entries v).*1) with ["run"; "task"; "global"] in Hs.
  repeat (apply elem_of_cons in Hs as [->|Hs];
          [repeat split; (reflexivity || discriminate)|]).
  by apply elem_of_nil in Hs.
Qed.

(** [exportToOSjs] writes below the export directory only: whether it
    succeeds, fails or is cut short, on a disk that is a tree of properly
    named entries every entry that is not at or below
    [<osJsVFSPath>/tasks/<taskId>] is afterwards what it was before. *)
Theorem export_stays_below_export_path fuel v osJsVFSPath st k n :
  sound st → nodes st !! k = Some n →
  ¬ Disk.locate st (Path.join [osJsVFSPath; "tasks"; VFS.taskId v]) `prefix_of` k →
  nodes (VFS.exportToOSjs fuel v osJsVFSPath st).2 !! k = Some n.
Proof.
  intros Hsound Hk Hout.
  set (exportPath := Path.join [osJsVFSPath; "tasks"; VFS.taskId v]) in *.
  assert (maintains (untouched st k n) (VFS.exportToOSjs fuel v osJsVFSPath))
    as Hkept.
  { unfold VFS.exportToOSjs. fold exportPath.
    apply maintains_try_catch; [|intros; apply read_only_maintains; by intros ?].
    apply maintains_bind; [apply read_only_maintains, read_only_existsSync|].
    intros found. apply maintains_bind.
    { destruct found; [apply read_only_maintains, read_only_ret|].
      by apply kept_mkdir_recursive. }
    intros _. apply maintains_bind;
      [|intros; apply read_only_maintains, read_only_ret].
    apply (kept_export_scopes st k n (Disk.locate st exportPath));
      [done|apply join_nonempty|done|apply scope_names_proper]. }
  by apply Hkept.
Qed.

Lemma export_stays_below_export_path_witness :
  nodes (VFS.exportToOSjs 9 Fixture.vfs "/osjs/vfs" Fixture.two_levels).2
    !! (Fixture.run_root ++ ["sub"; "deep"; "g.txt"]) = Some (File "deep").
Proof.
  apply export_stays_below_export_path.
  - apply sound_decide; vm_compute; reflexivity.
  - vm_compute. reflexivity.
  - vm_compute. intros [tail Htail]. discriminate Htail.
Defined.

(** ** Reading in one scope, and the handle of [watch] *)



Lemma watch_missing {A} v filepath scope (callback : VFS.watch_event → A → A)
    st fullPath :
  VFS._resolvePath v filepath scope = Ok fullPath →
  Disk.lookup st fullPath = None →
  VFS.watch v filepath scope callback st
  = (Throw ("Failed to watch " +:+ toString filepath
              +:+ ": Cannot watch non-existent path: " +:+ toString filepath), st).
Proof.
  intros Hres Hnone. unfold VFS.watch, try_catch, bind, lift.
  by rewrite resolvePath_default, Hres, existsSync_spec, Hnone.
Qed.

(** The handle of [watch].  For a path that resolves, [watch] fails when
    nothing is there; otherwise it arms a watcher on the resolved path and
    returns its handle: until the handle is closed every change reported is
    passed to the callback as an event with the kind of change, the file
    name, the logical path and the scope; once it is closed nothing is
    passed on any more.  [watch] itself changes nothing. *)
Theorem watch_until_closed {A} v filepath scope
    (callback : VFS.watch_event → A → A) st fullPath :
  VFS._resolvePath v filepath scope = Ok fullPath →
  match Disk.lookup st fullPath with
  | None =>
      VFS.watch v filepath scope callback st
      = (Throw ("Failed to watch " +:+ toString filepath
                  +:+ ": Cannot watch non-existent path: "
                  +:+ toString filepath), st)
  | Some _ =>
      ∃ w,
        VFS.watch v filepath scope callback st = (Ok w, st)
        ∧ VFS.target w = fullPath
        ∧ (∀ eventType filename a,
             VFS.notify w (eventType, filename) a
             = callback {| VFS.we_event := eventType;
                           VFS.we_filename := filename;
                           VFS.we_path := filepath;
                           VFS.we_scope := or_default (JStr "run") scope |} a)
        ∧ (∀ change a, VFS.notify (VFS.close w) change a = a)
        ∧ VFS.target (VFS.close w) = fullPath
  end.
Proof.
  intros Hres. destruct (Disk.lookup st fullPath) as [n|] eqn:Hlook.
  - eexists. split; [by apply watch_armed|]. by repeat split.
  - by apply (watch_missing v filepath scope callback st fullPath).
Qed.

Lemma watch_until_closed_witness :
  VFS.watch Fixture.vfs (JStr "gone.txt") (JStr "task") (λ _ (n : nat), S n)
    Fixture.fresh
  = (Throw "Failed to watch gone.txt: Cannot watch non-existent path: gone.txt",
     Fixture.fresh).
Proof.
  exact (watch_until_closed Fixture.vfs (JStr "gone.txt") (JStr "task")
           (λ _ (n : nat), S n) Fixture.fresh "/eco/tasks/t1/fs/gone.txt" eq_refl).
Defined.

(** ** What [exportToOSjs] copies *)

Lemma unrelated_below ks kd rel : unrelated ks kd → ¬ kd `prefix_of` ks ++ rel.
Proof.
  intros [H1 H2] Hpre.
  destruct (prefix_weak_total ks kd (ks ++ rel)) as [?|?];
    [by apply prefix_app_r|done|done|done].
Qed.

Lemma unrelated_children ks kd a b : unrelated ks kd → unrelated (ks ++ [a]) (kd ++ [b]).
Proof.
  intros [H1 H2]. split; intros Hpre.
  - destruct (prefix_weak_total ks kd (kd ++ [b])) as [?|?];
      [|by apply prefix_app_r|done|done].
    etrans; [|exact Hpre]. by apply prefix_app_r.
  - destruct (prefix_weak_total kd ks (ks ++ [a])) as [?|?];
      [|by apply prefix_app_r|done|done].
    etrans; [|exact Hpre]. by apply prefix_app_r.
Qed.

Lemma prefix_snoc_cons (kd : list string) a b rel :
  kd ++ [a] `prefix_of` kd ++ b :: rel ↔ a = b.
Proof.
  split.
  - intros [tail Htail]. rewrite <- app_assoc in Htail.
    apply app_inv_head in Htail. by injection Htail.
  - intros ->. exists rel. by rewrite <- app_assoc.
Qed.

Lemma prefix_strict_inv (kd k : list string) :
  kd `prefix_of` k → k = kd ∨ ∃ name rel, k = kd ++ name :: rel.
Proof. intros [[|name rel] ->]; [left; by rewrite app_nil_r|right; eauto]. Qed.

Lemma lookup_directory st p :
  nodes st !! Disk.locate st p = Some Dir → Disk.lookup st p = Some Dir.
Proof. intros H. unfold Disk.lookup. by rewrite H. Qed.

Lemma if_elem_of_snoc {A} (name name' : string) (names : list string) (x y : A) :
  name' ≠ name →
  (if decide (name' ∈ names ++ [name]) then x else y)
  = (if decide (name' ∈ names) then x else y).
Proof.
  intros Hne. destruct (decide (name' ∈ names)) as [Hin|Hout].
  - rewrite decide_True; [done|]. apply elem_of_app. by left.
  - rewrite decide_False; [done|].
    intros [?|?%list_elem_of_singleton]%elem_of_app; done.
Qed.

Lemma prefix_snoc_inv (q kd : list string) name :
  q `prefix_of` kd ++ [name] → q ≠ kd ++ [name] → q `prefix_of` kd.
Proof.
  intros [tail Htail] Hne. destruct tail as [|x tail] using rev_ind.
  - rewrite app_nil_r in Htail. congruence.
  - rewrite app_assoc in Htail. apply app_inj_tail in Htail as [-> _].
    by exists tail.
Qed.

Section copy.
Context (self : string → string → M (option unit)) (fuel : nat)
  (src dest : string) (st0 : state).
Hypothesis Hsound : sound st0.
Hypothesis Hsrc : src ≠ "".
Hypothesis Hdest : dest ≠ "".
Hypothesis Hdir : nodes st0 !! Disk.locate st0 src = Some Dir.
Hypothesis Hapart : unrelated (Disk.locate st0 src) (Disk.locate st0 dest).
Hypothesis Hway :
  ∀ q, q `prefix_of` Disk.locate st0 dest → q ≠ Disk.locate st0 dest →
       nodes st0 !! q = Some Dir.
Hypothesis Hfuel :
  ∀ k n, nodes st0 !! k = Some n → Disk.locate st0 src `prefix_of` k →
         length k < S fuel + length (Disk.locate st0 src).
Hypothesis Hself :
  ∀ src' dest' st, ready fuel src' dest' st →
    ∃ st', self src' dest' st = (Ok (Some tt), st')
           ∧ copied st st' (Disk.locate st src') (Disk.locate st dest')
           ∧ sound st'.

Lemma copy_entries_spec todo names st :
  (∀ d, d ∈ todo → d ∈ children st0 (Disk.locate st0 src)) →
  NoDup (Disk.name <$> todo) →
  (∀ d, d ∈ todo → Disk.name d ∉ names) →
  sound st →
  copying st0 st (Disk.locate st0 src) (Disk.locate st0 dest) names →
  ∃ st',
    VFS.copy_entries self src dest todo st = (Ok (Some tt), st')
    ∧ copying st0 st' (Disk.locate st0 src) (Disk.locate st0 dest)
        (names ++ (Disk.name <$> todo))
    ∧ sound st'.
Proof.
  set (ks := Disk.locate st0 src) in *. set (kd := Disk.locate st0 dest) in *.
  revert names st.
  induction todo as [|d todo IH]; intros names st Hin Hdup Hfresh Hst Hcopy.
  { exists st. simpl. rewrite app_nil_r. by split. }
  rewrite fmap_cons in Hdup. apply NoDup_cons in Hdup as [Hd_new Hdup].
  pose proof (Hin d (list_elem_of_here _ _)) as Hd.
  pose proof Hsound as (_ & Hwf & Htree).
  destruct (children_proper st0 ks d Hwf Hd) as [Hname _].
  apply elem_of_children in Hd as (n & Hn & Hisdir).
  set (name := Disk.name d) in *.
  pose proof (Hfresh d (list_elem_of_here _ _)) as Hnew. fold name in Hnew.
  destruct Hcopy as (Hcwd & Hkd & Hbelow & Hrest).
  assert (∀ p, Disk.locate st p = Disk.locate st0 p) as Hloc
    by (intros p; by apply locate_same_cwd).
  destruct (locate_child st0 src name Hsrc Hname) as [Hsrc_loc _].
  destruct (locate_child st0 dest name Hdest Hname) as [Hdest_loc Hdest_slash].
  fold ks in Hsrc_loc. fold kd in Hdest_loc.
  assert (∀ rel, nodes st !! (ks ++ rel) = nodes st0 !! (ks ++ rel)) as Hsource
    by (intros rel; by apply Hrest, unrelated_below).
  assert (∃ st1,
            (if Disk.entryIsDirectory d
             then self (Path.join [src; name]) (Path.join [dest; name])
             else Disk.copyFile (Path.join [src; name]) (Path.join [dest; name]) ;;
                  ret (Some tt)) st = (Ok (Some tt), st1)
            ∧ copying st0 st1 ks kd (names ++ [name])
            ∧ sound st1) as (st1 & Hstep & Hcopy1 & Hst1).
  { destruct (Disk.entryIsDirectory d) eqn:Hkind.
    - destruct n as [data|]; [done|].
      destruct (Hself (Path.join [src; name]) (Path.join [dest; name]) st)
        as (st1 & Hrun & (Hcwd1 & Hnew1 & Hold1) & Hst1).
      { split; [done|]. split; [apply join_nonempty|].
        split; [apply join_nonempty|]. rewrite !Hloc, Hsrc_loc, Hdest_loc.
        split; [by rewrite Hsource|]. split; [by apply unrelated_children|].
        split; [|split].
        - intros k [tail ->]. rewrite <- app_assoc. simpl.
          by rewrite Hbelow, decide_False.
        - intros q Hq Hne. apply prefix_snoc_inv in Hq; [|done].
          destruct (decide (q = kd)) as [->|Hqkd]; [done|].
          rewrite Hrest; [by apply Hway|].
          intros Hpre. apply Hqkd. by apply (anti_symm prefix).
        - intros k m Hk Hpre. rewrite length_app. simpl.
          destruct Hpre as [tail ->]. rewrite <- app_assoc in Hk |- *.
          rewrite Hsource in Hk.
          pose proof (Hfuel _ _ Hk (prefix_app_r ks ks _ (reflexivity _))). lia. }
      rewrite !Hloc, Hsrc_loc, Hdest_loc in Hnew1. rewrite Hloc, Hdest_loc in Hold1.
      exists st1. split; [done|]. split; [|done].
      split; [congruence|]. split; [|split].
      + rewrite Hold1; [done|]. apply prefix_snoc_not.
      + intros name' rel. destruct (decide (name' = name)) as [->|Hne].
        * rewrite decide_True by (apply elem_of_app; right; apply list_elem_of_here).
          change (kd ++ name :: rel) with (kd ++ [name] ++ rel).
          rewrite app_assoc, Hnew1, <- app_assoc. apply Hsource.
        * rewrite if_elem_of_snoc by done. rewrite <- Hbelow.
          apply Hold1. by rewrite prefix_snoc_cons.
      + intros k Hk. rewrite Hold1; [by apply Hrest|].
        intros Hpre. apply Hk. etrans; [|exact Hpre]. by apply prefix_app_r.
    - destruct n as [data|]; [|done].
      assert (nodes st !! (kd ++ [name]) = None) as Hfree
        by by rewrite Hbelow, decide_False.
      eexists. split.
      { erewrite bind_ok; [reflexivity|]. unfold Disk.copyFile.
        rewrite (lookup_child st src name (File data)); [|done|done|].
        - apply disk_writeFile_admitted; rewrite ?Hloc, ?Hdest_loc; try done.
          + by destruct kd.
          + by rewrite Hfree.
          + by rewrite parent_snoc.
        - rewrite Hloc. fold ks. change (ks ++ [name]) with (ks ++ [name] ++ []).
          by rewrite Hsource. }
      rewrite Hloc, Hdest_loc. split.
      + split; [done|]. split; [|split].
        * simpl. rewrite lookup_insert_ne; [done|].
          intros Heq. apply (f_equal length) in Heq.
          rewrite length_app in Heq. simpl in Heq. lia.
        * intros name' rel. simpl.
          destruct (decide (name' = name)) as [->|Hne].
          -- rewrite decide_True
               by (apply elem_of_app; right; apply list_elem_of_here).
             destruct rel as [|x rel].
             ++ by rewrite lookup_insert_eq.
             ++ rewrite lookup_insert_ne
                  by (intros Heq; apply app_inv_head in Heq; discriminate Heq).
                rewrite Hbelow, decide_False by done.
                destruct (nodes st0 !! (ks ++ name :: x :: rel)) as [m|] eqn:Hm;
                  [|done].
                change (ks ++ name :: x :: rel) with (ks ++ [name] ++ x :: rel) in Hm.
                rewrite app_assoc in Hm.
                apply above_is_directory in Hm; [|done|done]. congruence.
          -- rewrite if_elem_of_snoc by done. rewrite <- Hbelow.
             apply lookup_insert_ne. intros Heq. apply app_inv_head in Heq.
             congruence.
        * intros k Hk. simpl. rewrite lookup_insert_ne; [by apply Hrest|].
          intros <-. apply Hk. by apply prefix_app_r.
      + assert (sound (Disk.copyFile (Path.join [src; name])
                         (Path.join [dest; name]) st).2) as Hs
          by by apply sound_copyFile.
        unfold Disk.copyFile in Hs.
        rewrite (lookup_child st src name (File data)) in Hs; [|done|done|].
        * rewrite disk_writeFile_admitted in Hs;
            rewrite ?Hloc, ?Hdest_loc in *; try done.
          -- by destruct kd.
          -- by rewrite Hfree.
          -- by rewrite parent_snoc.
        * rewrite Hloc. fold ks. change (ks ++ [name]) with (ks ++ [name] ++ []).
          by rewrite Hsource. }
  destruct (IH (names ++ [name]) st1) as (st' & Hrun & Hcopy' & Hst').
  - intros d' Hd'. by apply Hin, list_elem_of_further.
  - done.
  - intros d' Hd' [Hold|Heq%list_elem_of_singleton]%elem_of_app.
    + by apply (Hfresh d' (list_elem_of_further _ _ _ Hd')).
    + apply Hd_new. rewrite <- Heq. by apply list_elem_of_fmap_2.
  - done.
  - done.
  - exists st'. split; [|split; [|done]].
    + cbn [VFS.copy_entries]. fold name. erewrite bind_ok; [|exact Hstep]. exact Hrun.
    + rewrite fmap_cons. fold name. by rewrite (cons_middle name), app_assoc.
Qed.

End copy.

Lemma copyDirectory_spec fuel src dest st :
  ready fuel src dest st →
  ∃ st',
    VFS._copyDirectory fuel src dest st = (Ok (Some tt), st')
    ∧ copied st st' (Disk.locate st src) (Disk.locate st dest)
    ∧ sound st'.
Proof.
  revert src dest st. induction fuel as [|fuel IH];
    intros src dest st (Hsound & Hsrc & Hdest & Hdir & Hapart & Hfree & Hway & Hfuel).
  { pose proof (Hfuel _ _ Hdir (reflexivity _)). lia. }
  set (ks := Disk.locate st src) in *. set (kd := Disk.locate st dest) in *.
  pose proof Hsound as (_ & Hwf & Htree).
  assert (Disk.lookup st dest = None) as Hnone.
  { unfold Disk.lookup. fold kd. by rewrite (Hfree kd). }
  assert (∀ q, q ∈ Disk.ancestors kd → Disk.is_file (nodes st !! q) = false)
    as Hclear.
  { intros q Hq%elem_of_ancestors. destruct (decide (q = kd)) as [->|Hne].
    - by rewrite Hfree.
    - by rewrite Hway. }
  set (st1 := with_nodes (λ m, foldr (λ q, <[q := Dir]>) m (Disk.ancestors kd)) st).
  assert (Disk.mkdir_recursive dest st = (Ok tt, st1)) as Hmk
    by by apply mkdir_recursive_clear.
  assert (sound st1) as Hsound1.
  { pose proof (sound_mkdir_recursive dest st Hsound) as H. by rewrite Hmk in H. }
  assert (∀ k, ¬ kd `prefix_of` k → nodes st1 !! k = nodes st !! k) as Hrest.
  { intros k Hk. simpl. rewrite lookup_make_dirs. case_decide as Hin; [|done].
    apply elem_of_ancestors in Hin. rewrite Hway; [done|done|]. by intros ->. }
  assert (copying st st1 ks kd []) as Hcopy.
  { split; [done|]. split; [|split; [|done]].
    - simpl. rewrite lookup_make_dirs.
      by rewrite decide_True by apply ancestors_self.
    - intros name rel. simpl. rewrite lookup_make_dirs.
      rewrite decide_False.
      + rewrite Hfree by by apply prefix_app_r. by destruct (decide (name ∈ [])).
      + intros Hin%ancestors_length. rewrite length_app in Hin. simpl in Hin. lia. }
  assert (∀ rel, nodes st1 !! (ks ++ rel) = nodes st !! (ks ++ rel)) as Hsource
    by (intros rel; by apply Hrest, unrelated_below).
  assert (∀ d, d ∈ children st1 ks ↔ d ∈ children st ks) as Hsame.
  { intros d. rewrite !elem_of_children. by rewrite Hsource. }
  assert (Disk.lookup st1 src = Some Dir) as Hdir1.
  { apply lookup_directory. change (Disk.locate st1 src) with ks.
    specialize (Hsource []). rewrite app_nil_r in Hsource. by rewrite Hsource. }
  destruct (copy_entries_spec (VFS._copyDirectory fuel) fuel src dest st
              Hsound Hsrc Hdest Hapart Hway Hfuel IH
              (children st1 ks) [] st1)
    as (st' & Hrun & (Hcwd & Hkd & Hbelow & Hout) & Hsound').
  { intros d. apply Hsame. }
  { apply children_NoDup. }
  { intros d _. apply not_elem_of_nil. }
  { done. }
  { done. }
  exists st'. split; [|split; [|done]].
  - cbn [VFS._copyDirectory].
    erewrite bind_ok; [|apply existsSync_spec].
    rewrite Hnone, bool_decide_eq_false_2 by by intros [? ?].
    erewrite bind_ok; [|exact Hmk].
    erewrite bind_ok; [|by apply readdir_directory]. exact Hrun.
  - split; [done|]. split; [|done].
    intros [|name rel];
      [rewrite !app_nil_r; etrans; [exact Hkd|symmetry; exact Hdir]|].
    rewrite Hbelow. simpl. case_decide as Hin; [done|].
    destruct (nodes st !! (ks ++ name :: rel)) as [m|] eqn:Hm; [|done].
    exfalso. apply Hin.
    assert (∃ n, nodes st !! (ks ++ [name]) = Some n) as [n Hn].
    { destruct rel as [|x rel]; [by exists m|]. exists Dir.
      change (ks ++ name :: x :: rel) with (ks ++ [name] ++ x :: rel) in Hm.
      rewrite app_assoc in Hm. by apply above_is_directory in Hm. }
    apply (list_elem_of_fmap_2 Disk.name _
             {| Disk.name := name; Disk.entryIsDirectory := bool_decide (n = Dir) |}).
    apply Hsame, elem_of_children. by exists n.
Qed.

Lemma nothing_below st k rel :
  tree_shaped st → nodes st !! k = None → nodes st !! (k ++ rel) = None.
Proof.
  intros Htree Hk. destruct rel as [|x rel]; [by rewrite app_nil_r|].
  destruct (nodes st !! (k ++ x :: rel)) as [n|] eqn:Hn; [|done].
  apply above_is_directory in Hn; [congruence|done|done].
Qed.

Section export_loop.
Context (fuel : nat) (exportPath : string) (st1 : state)
  (all : list (string * string)).
Hypothesis Hsound1 : sound st1.
Hypothesis Hne : exportPath ≠ "".
Hypothesis Hnames : ∀ sc, sc ∈ all → proper sc.1.
Hypothesis Hroots :
  ∀ sc, sc ∈ all →
    sc.2 ≠ "" ∧ ∀ data, nodes st1 !! Disk.locate st1 sc.2 ≠ Some (File data).
Hypothesis Hapart :
  ∀ sc sc', sc ∈ all → sc' ∈ all →
    unrelated (Disk.locate st1 sc.2) (Disk.locate st1 exportPath ++ [sc'.1]).
Hypothesis Hfree :
  ∀ sc k, sc ∈ all → Disk.locate st1 exportPath ++ [sc.1] `prefix_of` k →
          nodes st1 !! k = None.
Hypothesis Hway :
  ∀ q, q `prefix_of` Disk.locate st1 exportPath → nodes st1 !! q = Some Dir.
Hypothesis Hfuel :
  ∀ sc k n, sc ∈ all → nodes st1 !! k = Some n →
            Disk.locate st1 sc.2 `prefix_of` k →
            length k < fuel + length (Disk.locate st1 sc.2).

Lemma export_scopes_spec todo done st :
  (∀ sc, sc ∈ todo → sc ∈ all) → (∀ sc, sc ∈ done → sc ∈ all) →
  NoDup (todo.*1) →
  (∀ sc sc', sc ∈ todo → sc' ∈ done → sc.1 ≠ sc'.1) →
  sound st → exporting st1 st (Disk.locate st1 exportPath) done →
  ∃ st',
    VFS.export_scopes fuel exportPath todo st = (Ok (Some tt), st')
    ∧ exporting st1 st' (Disk.locate st1 exportPath) (done ++ todo)
    ∧ sound st'.
Proof.
  set (e := Disk.locate st1 exportPath) in *.
  pose proof Hsound1 as (_ & _ & Htree1).
  revert done st.
  induction todo as [|[s root] todo IH];
    intros done st Htodo Hdone Hdup Hnew Hst Hexp.
  { exists st. rewrite app_nil_r. by split. }
  rewrite fmap_cons in Hdup. apply NoDup_cons in Hdup as [Hs_new Hdup].
  simpl in Hs_new.
  pose proof (Htodo (s, root) (list_elem_of_here _ _)) as Hin.
  pose proof (Hnames _ Hin) as Hname. destruct (Hroots _ Hin) as [Hroot Hnofile].
  simpl in Hname, Hroot, Hnofile.
  destruct Hexp as (Hcwd & Hcopies & Hrest).
  assert (∀ p, Disk.locate st p = Disk.locate st1 p) as Hloc
    by (intros p; by apply locate_same_cwd).
  destruct (locate_child st1 exportPath s Hne Hname) as [Htarget _].
  fold e in Htarget.
  set (kr := Disk.locate st1 root) in *.
  assert (∀ rel, nodes st !! (kr ++ rel) = nodes st1 !! (kr ++ rel)) as Hsource.
  { intros rel. apply Hrest. intros sc Hsc.
    apply unrelated_below. exact (Hapart (s, root) sc Hin (Hdone sc Hsc)). }
  assert (∀ k, e ++ [s] `prefix_of` k → nodes st !! k = None) as Hfree_st.
  { intros k Hk. rewrite Hrest; [by apply (Hfree (s, root))|].
    intros sc Hsc Hpre. destruct Hk as [tail ->].
    rewrite <- app_assoc in Hpre. apply prefix_snoc_cons in Hpre.
    exact (Hnew (s, root) sc (list_elem_of_here _ _) Hsc (eq_sym Hpre)). }
  assert (∃ st2,
            (if bool_decide (is_Some (Disk.lookup st root))
             then VFS._copyDirectory fuel root (Path.join [exportPath; s])
             else ret (Some tt)) st = (Ok (Some tt), st2)
            ∧ exporting st1 st2 e (done ++ [(s, root)])
            ∧ sound st2) as (st2 & Hstep & Hexp2 & Hst2).
  { assert (Disk.lookup st root = nodes st1 !! kr) as Hlook.
    { unfold Disk.lookup. rewrite Hloc. fold kr.
      specialize (Hsource []). rewrite app_nil_r in Hsource. rewrite Hsource.
      destruct (nodes st1 !! kr) as [[data|]|]; [by destruct (Hnofile data)|done|done]. }
    rewrite Hlook. destruct (nodes st1 !! kr) as [[data|]|] eqn:Hkr.
    - by destruct (Hnofile data).
    - rewrite bool_decide_eq_true_2 by done.
      destruct (copyDirectory_spec fuel root (Path.join [exportPath; s]) st)
        as (st2 & Hrun & (Hcwd2 & Hnew2 & Hold2) & Hst2).
      { split; [done|]. split; [done|]. split; [apply join_nonempty|].
        rewrite !Hloc, Htarget. fold kr.
        split; [specialize (Hsource []); rewrite app_nil_r in Hsource; congruence|].
        split; [exact (Hapart (s, root) (s, root) Hin Hin)|].
        split; [done|]. split.
        - intros q Hq Hqne. apply prefix_snoc_inv in Hq; [|done].
          rewrite Hrest; [by apply Hway|].
          intros sc Hsc Hpre. apply prefix_length in Hq, Hpre.
          rewrite length_app in Hpre. simpl in Hpre. lia.
        - intros k n Hk Hpre. destruct Hpre as [tail ->].
          rewrite Hsource in Hk.
          exact (Hfuel (s, root) _ n Hin Hk (prefix_app_r kr kr tail (reflexivity _))). }
      rewrite !Hloc, Htarget in Hnew2. fold kr in Hnew2.
      rewrite Hloc, Htarget in Hold2.
      exists st2. split; [done|]. split; [|done].
      split; [congruence|]. split.
      + intros sc rel [Hsc|Hsc%list_elem_of_singleton]%elem_of_app.
        * rewrite Hold2; [by apply Hcopies|].
          rewrite prefix_snoc_cons. intros Heq.
          exact (Hnew (s, root) sc (list_elem_of_here _ _) Hsc Heq).
        * subst sc. simpl. change (e ++ s :: rel) with (e ++ [s] ++ rel).
          rewrite app_assoc, Hnew2. apply Hsource.
      + intros k Hk. rewrite Hold2.
        * apply Hrest. intros sc Hsc. apply Hk, elem_of_app. by left.
        * apply (Hk (s, root)), elem_of_app. right. apply list_elem_of_here.
    - rewrite bool_decide_eq_false_2 by by intros [? ?].
      exists st. split; [done|]. split; [|done].
      split; [done|]. split.
      + intros sc rel [Hsc|Hsc%list_elem_of_singleton]%elem_of_app;
          [by apply Hcopies|].
        subst sc. simpl. fold kr. rewrite (nothing_below st1 kr rel) by done.
        apply Hfree_st. by exists rel; rewrite <- app_assoc.
      + intros k Hk. apply Hrest. intros sc Hsc. apply Hk, elem_of_app. by left. }
  destruct (IH (done ++ [(s, root)]) st2) as (st' & Hrun & Hexp' & Hst').
  - intros sc Hsc. by apply Htodo, list_elem_of_further.
  - intros sc [Hsc|Hsc%list_elem_of_singleton]%elem_of_app;
      [by apply Hdone|by subst sc].
  - done.
  - intros sc sc' Hsc [Hsc'|Hsc'%list_elem_of_singleton]%elem_of_app.
    + apply Hnew; [by apply list_elem_of_further|done].
    + subst sc'. simpl. intros Heq. apply Hs_new. rewrite <- Heq.
      by apply list_elem_of_fmap_2.
  - done.
  - done.
  - exists st'. split; [|split; [|done]].
    + cbn [VFS.export_scopes]. erewrite bind_ok; [|apply existsSync_spec].
      erewrite bind_ok; [|exact Hstep]. exact Hrun.
    + by rewrite (cons_middle (s, root)), app_assoc.
Qed.

End export_loop.

Lemma scope_entries_complete v s root :
  VFS.scopes v s = VFS.Own root → (s, root) ∈ VFS.scope_entries v.
Proof.
  intros Hs. unfold VFS.scope_entries. apply list_elem_of_omap.
  exists s. split; [|by rewrite Hs].
  unfold VFS.scopes in Hs. rewrite !elem_of_cons.
  repeat case_decide; try discriminate Hs; auto.
Qed.

Lemma scope_entries_concrete v sc :
  sc ∈ VFS.scope_entries v → sc.1 ∈ concrete_scopes.
Proof.
  intros Hsc.
  change concrete_scopes with ((VFS.scope_entries v).*1).
  by apply list_elem_of_fmap_2.
Qed.

(** [exportToOSjs] copies the scopes.  On a disk that is a tree of properly
    named entries, let the export directory be
    [<osJsVFSPath>/tasks/<taskId>].  If no regular file is in the way of
    it, no scope root is a regular file, nothing is yet at or below its
    [run], [task] and [global], none of these three overlaps with a scope
    root, and the recursion may go deeper than the longest path on the
    disk, then the export succeeds and returns the export directory;
    afterwards what is below [<export directory>/<scope>] is exactly what
    is below the root of the scope, entry for entry and byte for byte, and
    everything that was on the disk is still there. *)
Theorem export_copies_the_scopes fuel v osJsVFSPath st :
  sound st →
  (∀ q, q ∈ Disk.ancestors (Disk.locate st (export_path v osJsVFSPath)) →
        Disk.is_file (nodes st !! q) = false) →
  (∀ s root data, VFS.scopes v s = VFS.Own root →
                  Disk.lookup st root ≠ Some (File data)) →
  (∀ s s' root, s ∈ concrete_scopes → VFS.scopes v s' = VFS.Own root →
     unrelated (Disk.locate st root)
       (Disk.locate st (export_path v osJsVFSPath) ++ [s])) →
  (∀ s k, s ∈ concrete_scopes →
          Disk.locate st (export_path v osJsVFSPath) ++ [s] `prefix_of` k →
          nodes st !! k = None) →
  depth st < fuel →
  ∃ st',
    VFS.exportToOSjs fuel v osJsVFSPath st
    = (Ok (Some (export_path v osJsVFSPath)), st')
    ∧ (∀ s root rel, VFS.scopes v s = VFS.Own root →
         nodes st' !! (Disk.locate st (export_path v osJsVFSPath) ++ s :: rel)
         = nodes st !! (Disk.locate st root ++ rel))
    ∧ (∀ k n, nodes st !! k = Some n → nodes st' !! k = Some n).
Proof.
  intros Hsound Hclear Hnofile Hapart Hfree Hfuel.
  set (exportPath := export_path v osJsVFSPath) in *.
  set (e := Disk.locate st exportPath) in *.
  assert (exportPath ≠ "") as Hne by apply join_nonempty.
  destruct (ensure_directory exportPath st Hclear)
    as (st1 & Hensure & Hcwd1 & He1 & Hrest1). fold e in He1, Hrest1.
  assert (sound st1) as Hsound1.
  { assert (maintains sound
              (if bool_decide (is_Some (Disk.lookup st exportPath))
               then ret tt else Disk.mkdir_recursive exportPath)) as Hm.
    { case_bool_decide; [apply read_only_maintains, read_only_ret|].
      apply sound_mkdir_recursive. }
    specialize (Hm st Hsound). by rewrite Hensure in Hm. }
  pose proof Hsound1 as (_ & _ & Htree1).
  assert (∀ p, Disk.locate st1 p = Disk.locate st p) as Hloc
    by (intros p; by apply locate_same_cwd).
  assert (∀ sc, sc ∈ VFS.scope_entries v →
                Disk.locate st sc.2 ∉ Disk.ancestors e) as Hroot_out.
  { intros sc Hsc Hin%elem_of_ancestors.
    destruct (Hapart "run" sc.1 sc.2) as [H1 _];
      [apply concrete_scopes_iff; by left|by apply (scope_entries_roots v)|].
    apply H1. by apply prefix_app_r. }
  assert (∀ sc rel, sc ∈ VFS.scope_entries v →
            nodes st1 !! (Disk.locate st sc.2 ++ rel)
            = nodes st !! (Disk.locate st sc.2 ++ rel)) as Hsource.
  { intros sc rel Hsc. apply Hrest1. intros Hin%elem_of_ancestors.
    apply (Hroot_out sc Hsc), elem_of_ancestors.
    etrans; [|exact Hin]. by apply prefix_app_r. }
  set (all := VFS.scope_entries v) in *.
  assert (∀ sc, sc ∈ all → proper sc.1) as Hnames'.
  { pose proof (scope_names_proper v) as H. rewrite Forall_forall in H.
    exact H. }
  assert (∀ sc, sc ∈ all →
            sc.2 ≠ ""
            ∧ ∀ data, nodes st1 !! Disk.locate st1 sc.2 ≠ Some (File data))
    as Hroots'.
  { intros sc Hsc. pose proof (scope_entries_roots v sc Hsc) as Hown.
    split; [by eapply canonical_nonempty, canonical_root|].
    intros data Hdata. rewrite Hloc in Hdata.
    specialize (Hsource sc [] Hsc). rewrite !app_nil_r in Hsource.
    rewrite Hsource in Hdata.
    apply (Hnofile sc.1 sc.2 data Hown). unfold Disk.lookup.
    by rewrite Hdata, (canonical_file_name _ (canonical_root _ _ _ Hown)). }
  assert (∀ sc sc', sc ∈ all → sc' ∈ all →
            unrelated (Disk.locate st1 sc.2)
              (Disk.locate st1 exportPath ++ [sc'.1])) as Hapart'.
  { intros sc sc' Hsc Hsc'. rewrite !Hloc.
    apply (Hapart sc'.1 sc.1 sc.2);
      [by apply (scope_entries_concrete v)|by apply (scope_entries_roots v)]. }
  assert (∀ sc k, sc ∈ all →
            Disk.locate st1 exportPath ++ [sc.1] `prefix_of` k →
            nodes st1 !! k = None) as Hfree'.
  { intros sc k Hsc Hk. rewrite Hloc in Hk. fold e in Hk. rewrite Hrest1.
    - apply (Hfree sc.1); [by apply (scope_entries_concrete v)|done].
    - intros Hin%elem_of_ancestors. apply prefix_length in Hk, Hin.
      rewrite length_app in Hk. simpl in Hk. lia. }
  assert (∀ q, q `prefix_of` Disk.locate st1 exportPath →
               nodes st1 !! q = Some Dir) as Hway'.
  { intros q Hq. rewrite Hloc in Hq. fold e in Hq. destruct Hq as [tail Htail].
    destruct tail as [|x tail]; [rewrite app_nil_r in Htail; by subst q|].
    apply (above_is_directory st1 q (x :: tail) Dir); [done|done|].
    by rewrite <- Htail. }
  assert (∀ sc k n, sc ∈ all → nodes st1 !! k = Some n →
            Disk.locate st1 sc.2 `prefix_of` k →
            length k < fuel + length (Disk.locate st1 sc.2)) as Hfuel'.
  { intros sc k n Hsc Hk Hpre. rewrite Hloc in Hpre |- *.
    destruct Hpre as [tail ->]. rewrite (Hsource sc tail Hsc) in Hk.
    apply length_le_depth in Hk. lia. }
  assert (NoDup all.*1) as Hnodup.
  { change (all.*1) with ["run"; "task"; "global"].
    apply NoDup_cons. split; [|apply NoDup_cons; split; [|apply NoDup_singleton]];
      rewrite ?elem_of_cons, ?elem_of_nil; intros H;
      repeat (destruct H as [H|H]; try discriminate H); done. }
  assert (exporting st1 st1 (Disk.locate st1 exportPath) []) as Hstart.
  { split; [done|]. split; [|done]. intros sc rel Hsc. by apply elem_of_nil in Hsc. }
  destruct (export_scopes_spec fuel exportPath st1 all Hsound1 Hne Hnames' Hroots'
              Hapart' Hfree' Hway' Hfuel' all [] st1)
    as (st' & Hrun & (Hcwd' & Hcopies & Hrest') & Hsound'); try done.
  { intros sc Hsc. by apply elem_of_nil in Hsc. }
  { intros sc sc' _ Hsc'. by apply elem_of_nil in Hsc'. }
  - rewrite Hloc in Hcopies, Hrest'. fold e in Hcopies, Hrest'.
    exists st'. split; [|split].
    + unfold VFS.exportToOSjs. fold (export_path v osJsVFSPath). fold exportPath.
      erewrite try_catch_ok; [reflexivity|].
      erewrite bind_ok; [|apply existsSync_spec].
      erewrite bind_ok; [|exact Hensure].
      erewrite bind_ok; [|exact Hrun]. reflexivity.
    + intros s root rel Hs. apply scope_entries_complete in Hs.
      etrans; [exact (Hcopies (s, root) rel Hs)|]. simpl. rewrite Hloc.
      apply (Hsource (s, root) rel Hs).
    + intros k n Hk. rewrite Hrest'.
      * destruct (decide (k ∈ Disk.ancestors e)) as [Hin|Hout].
        -- specialize (Hclear k Hin). rewrite Hk in Hclear.
           destruct n; [done|]. apply elem_of_ancestors in Hin.
           destruct Hin as [tail Htail]. destruct tail as [|x tail].
           ++ rewrite app_nil_r in Htail. by subst k.
           ++ apply (above_is_directory st1 k (x :: tail) Dir); [done|done|].
              by rewrite <- Htail.
        -- by rewrite Hrest1.
      * intros sc Hsc Hpre. simpl in Hpre.
        rewrite (Hfree sc.1 k) in Hk; [done|by apply (scope_entries_concrete v)|done].
Qed.

Lemma nothing_at_decide st p :
  bool_decide (map_Forall (λ k (_ : node), ¬ p `prefix_of` k) (nodes st)) = true →
  ∀ k, p `prefix_of` k → nodes st !! k = None.
Proof.
  intros H%bool_decide_eq_true_1 k Hk.
  destruct (nodes st !! k) as [n|] eqn:Hn; [|done]. by destruct (H k n Hn).
Qed.

Lemma export_copies_the_scopes_witness :
  ∃ st',
    VFS.exportToOSjs 10 Fixture.vfs "/osjs/vfs" Fixture.two_levels
    = (Ok (Some "/osjs/vfs/tasks/t1"), st')
    ∧ nodes st' !! ["osjs"; "vfs"; "tasks"; "t1"; "run"; "sub"; "deep"; "g.txt"]
      = Some (File "deep").
Proof.
  destruct (export_copies_the_scopes 10 Fixture.vfs "/osjs/vfs" Fixture.two_levels)
    as (st' & Hrun & Hcopies & _).
  - apply sound_decide; vm_compute; reflexivity.
  - intros q Hq. vm_compute in Hq.
    repeat (apply elem_of_cons in Hq as [->|Hq]; [vm_compute; reflexivity|]).
    by apply elem_of_nil in Hq.
  - intros s root data Hs. unfold VFS.scopes in Hs.
    repeat case_decide; try discriminate Hs; injection Hs as <-;
      vm_compute; discriminate.
  - intros s s' root Hs Hs'. unfold VFS.scopes in Hs'.
    apply concrete_scopes_iff in Hs as [-> | [-> | ->]];
      repeat case_decide; try discriminate Hs'; injection Hs' as <-;
      (split; intros [tail Htail]; vm_compute in Htail; discriminate Htail).
  - intros s k Hs. apply concrete_scopes_iff in Hs as [-> | [-> | ->]];
      apply nothing_at_decide; vm_compute; reflexivity.
  - vm_compute. lia.
  - exists st'. split; [exact Hrun|].
    etrans;
      [exact (Hcopies "run" "/eco/tasks/t1/runs/r1/fs" ["sub"; "deep"; "g.txt"]
                eq_refl)|].
    vm_compute. reflexivity.
Defined.

(** ** Listed paths can be passed back *)

Lemma fold_pushes allow segs kept :
  ".." ∉ segs →
  fold_left (Path.step allow) segs kept
  = rev (filter (λ seg, ¬ (seg = "" ∨ seg = ".")) segs) ++ kept.
Proof.
  revert kept. induction segs as [|seg segs IH]; intros kept Hsegs; [done|].
  apply not_elem_of_cons in Hsegs as [Hseg Hsegs]. cbn [fold_left].
  rewrite IH by done. rewrite filter_cons.
  destruct (decide (seg = "" ∨ seg = ".")) as [Hskip|Hpush].
  - rewrite step_skip by done. by rewrite decide_False by tauto.
  - rewrite step_push by (try tauto; by intros ->).
    rewrite decide_True by done. cbn [rev]. by rewrite <- app_assoc.
Qed.

Lemma steps_proper p : ".." ∉ JS.split p → Forall proper (path_steps p).
Proof.
  intros Hp. unfold path_steps. apply Forall_forall.
  intros seg [Hseg Hin]%list_elem_of_filter.
  pose proof (split_segments p) as Hplain. rewrite Forall_forall in Hplain.
  repeat split; [by apply Hplain|tauto|tauto|]. by intros ->.
Qed.

Lemma steps_slice p :
  JS.startsWith p "/" = true → path_steps (JS.slice1 p) = path_steps p.
Proof.
  destruct p as [|c p]; [done|]. rewrite startsWith_cons.
  intros ->%bool_decide_eq_true_1. unfold path_steps. cbn [JS.slice1].
  rewrite split_slash, filter_cons. by rewrite decide_False by tauto.
Qed.

Lemma split_slice_dotdot p :
  ".." ∉ JS.split p → ".." ∉ JS.split (JS.slice1 p) ∨ JS.startsWith p "/" = false.
Proof.
  destruct p as [|c p]; [by left|]. rewrite startsWith_cons. cbn [JS.slice1].
  case_bool_decide as Hc; [|by right]. subst c. rewrite split_slash.
  intros Hp. left. intros Hin. apply Hp. by apply list_elem_of_further.
Qed.

Lemma rev_proper_steps l :
  Forall proper l →
  filter (λ seg, ¬ (seg = "" ∨ seg = ".")) l = l ∧ (".." ∉ l) ∧ Forall plain l.
Proof.
  induction 1 as [|x l (Hplain & Hne & Hdot & Hdots) _ (IH1 & IH2 & IH3)].
  - repeat split; [apply not_elem_of_nil|done].
  - rewrite filter_cons, decide_True by tauto. rewrite IH1.
    repeat split; [|by constructor].
    apply not_elem_of_cons. split; [congruence|done].
Qed.

Lemma logical_child p name :
  p ≠ "" → ".." ∉ JS.split p → proper name →
  Path.join [p; name] = render (JS.startsWith p "/") false (name :: rev (path_steps p))
  ∧ settled (negb (JS.startsWith p "/")) (name :: rev (path_steps p)).
Proof.
  intros Hp Hdots (Hplain & Hname & Hdot & Hup).
  assert (".." ∉ JS.split p ++ [name]) as Hsegs.
  { rewrite not_elem_of_app, not_elem_of_cons. repeat split; [done|congruence|].
    apply not_elem_of_nil. }
  assert (fold_left (Path.step (negb (JS.startsWith p "/"))) (JS.split p ++ [name]) []
          = name :: rev (path_steps p)) as Hfold.
  { rewrite fold_pushes by done. rewrite app_nil_r, filter_app, rev_app_distr.
    rewrite filter_cons, filter_nil. by rewrite decide_True by tauto. }
  split.
  - unfold Path.join. rewrite !filter_cons, filter_nil.
    rewrite (decide_True (P := ¬ name = "")) by done.
    rewrite decide_True by done. cbn [JS.join].
    rewrite normalize_render by (by apply append_nonempty_l).
    assert (JS.startsWith (p +:+ "/" +:+ name) "/" = JS.startsWith p "/") as ->.
    { destruct p as [|c p]; [done|]. by rewrite append_cons, !startsWith_cons. }
    rewrite <- append_assoc, endsWithSlash_append by done.
    rewrite (endsWithSlash_plain name) by done.
    rewrite append_assoc, split_append, Hplain. by rewrite Hfold.
  - rewrite <- Hfold. apply settled_fold; [|apply settled_nil].
    apply Forall_app. split; [apply split_segments|by constructor].
Qed.

Lemma strip_render abs kept :
  settled (negb abs) kept → kept ≠ [] →
  (if JS.startsWith (render abs false kept) "/"
   then JS.slice1 (render abs false kept) else render abs false kept)
  = JS.join "/" (rev kept).
Proof.
  intros Hkept Hne.
  destruct (render_shape abs kept Hkept Hne) as (c & t & Hct & Habs & Hrender & _).
  rewrite Hct at 1. rewrite startsWith_cons, Habs, Hrender.
  by destruct abs.
Qed.

Section round_trip.
Context (abs : bool) (leaf : string) (below : list string).
Hypothesis Hroot : settled (negb abs) (leaf :: below).

Lemma join_root_pushes q :
  ".." ∉ JS.split q →
  ∃ trailing,
    Path.join [render abs false (leaf :: below); q]
    = render abs trailing (rev (path_steps q) ++ leaf :: below)
    ∧ (JS.endsWithSlash q = false → trailing = false).
Proof.
  intros Hq. rewrite join_under_root by done.
  destruct (decide (q = "")) as [->|Hne]; [by exists false|].
  eexists. split; [by rewrite fold_pushes|].
  intros Hslash. rewrite <- append_assoc, endsWithSlash_append by done. done.
Qed.

Lemma settled_pushes l :
  Forall proper l → settled (negb abs) (rev l ++ leaf :: below).
Proof.
  intros Hl. destruct (rev_proper_steps l Hl) as (Hfilter & Hdots & Hplain).
  rewrite <- Hfilter at 1. rewrite <- (fold_pushes (negb abs)) by done.
  by apply settled_fold.
Qed.

Lemma join_name_render trailing kept name :
  settled (negb abs) kept → kept ≠ [] → proper name →
  Path.join [render abs trailing kept; name] = render abs false (name :: kept).
Proof.
  intros Hkept Hne (Hplain & Hname & Hdot & Hdots).
  destruct (render_shape abs kept Hkept Hne)
    as (c & t & Hct & Habs & Hrender & Hjoin & _).
  assert (∀ q, q ≠ "" → JS.endsWithSlash q = false →
            fold_left (Path.step (negb abs)) (JS.split q) kept = name :: kept →
            Path.normalize (render abs false kept +:+ "/" +:+ q)
            = render abs false (name :: kept)) as Hbelow.
  { intros q Hq Hslash Hfold. rewrite normalize_below by done.
    rewrite Hfold. by rewrite <- append_assoc, endsWithSlash_append, Hslash by done. }
  assert (render abs true kept = render abs false kept +:+ "/") as Htrue.
  { unfold render. rewrite !decide_False by done.
    by rewrite append_nil_r, <- append_assoc. }
  unfold Path.join. rewrite !filter_cons, filter_nil.
  rewrite (decide_True (P := ¬ name = "")) by done.
  destruct trailing.
  - rewrite Htrue.
    rewrite decide_True by (by apply append_nonempty_r). cbn [JS.join].
    rewrite append_assoc. apply (Hbelow ("/" +:+ name)).
    + done.
    + rewrite endsWithSlash_append by done. by apply endsWithSlash_plain.
    + rewrite append_cons, append_nil_l, split_slash, Hplain. cbn [fold_left].
      rewrite (step_skip _ kept "") by (by left). by rewrite step_push.
  - rewrite decide_True by (rewrite Hct; done). cbn [JS.join].
    apply Hbelow; [done|by apply endsWithSlash_plain|].
    rewrite Hplain. cbn [fold_left]. by rewrite step_push.
Qed.

Lemma listed_path_root p name :
  p ≠ "" → ".." ∉ JS.split p → proper name →
  let strip q := if JS.startsWith q "/" then JS.slice1 q else q in
  let root := render abs false (leaf :: below) in
  Path.join [root; strip (Path.join [p; name])]
  = Path.join [Path.join [root; strip p]; name]
  ∧ JS.startsWith (Path.join [root; strip (Path.join [p; name])]) root = true.
Proof.
  intros Hp Hdots Hname strip root. subst root.
  destruct (logical_child p name Hp Hdots Hname) as [-> Hlogical].
  pose proof (steps_proper p Hdots) as Hsteps.
  assert (Forall proper (path_steps p ++ [name])) as Hall.
  { apply Forall_app. split; [done|by constructor]. }
  destruct (rev_proper_steps _ Hall) as (Hfilter & Hnone & Hplain).
  assert (Path.join [render abs false (leaf :: below);
                     strip (render (JS.startsWith p "/") false (name :: rev (path_steps p)))]
          = render abs false (name :: rev (path_steps p) ++ leaf :: below)) as ->.
  { unfold strip. rewrite strip_render by done.
    cbn [rev]. rewrite rev_involutive.
    destruct (join_root_pushes (JS.join "/" (path_steps p ++ [name])))
      as (trailing & -> & Htrailing).
    { rewrite split_join; [done| |done]. by destruct (path_steps p). }
    rewrite Htrailing.
    - unfold path_steps at 1. rewrite split_join; [| |done].
      + by rewrite Hfilter, rev_app_distr.
      + by destruct (path_steps p).
    - apply join_last; [done|]. by destruct Hname as (_ & ? & _). }
  split.
  - assert ((".." ∉ JS.split (strip p)) ∧ path_steps (strip p) = path_steps p) as [Hstrip Heq].
    { unfold strip. destruct (JS.startsWith p "/") eqn:Hslash; [|done].
      split; [|by apply steps_slice].
      destruct (split_slice_dotdot p Hdots) as [?|?]; [done|congruence]. }
    destruct (join_root_pushes (strip p) Hstrip) as (trailing & -> & _).
    rewrite Heq. symmetry. apply join_name_render; [|by destruct (rev (path_steps p))|done].
    by apply settled_pushes.
  - by apply (render_extends abs false (name :: rev (path_steps p)) (leaf :: below)).
Qed.

End round_trip.

Lemma all_space_append a b :
  all_space (a +:+ b) = all_space a && all_space b.
Proof.
  induction a as [|c a IH]; [done|]. rewrite append_cons. cbn [all_space].
  by rewrite IH, andb_assoc.
Qed.

Lemma all_space_rev s : all_space (String.rev s) = all_space s.
Proof.
  induction s as [|c s IH]; [done|]. rewrite rev_cons, all_space_append, IH.
  cbn [all_space]. by rewrite andb_true_r, andb_comm.
Qed.

Lemma all_space_trimStart s : all_space (JS.trimStart s) = all_space s.
Proof.
  induction s as [|c s IH]; [done|]. cbn [JS.trimStart all_space].
  destruct (Ascii.is_space c) eqn:Hc; [done|]. cbn [all_space]. by rewrite Hc.
Qed.

Lemma trim_empty s : JS.trim s = "" → all_space s = true.
Proof.
  unfold JS.trim, JS.trimEnd. intros H.
  rewrite <- all_space_trimStart, <- all_space_rev, <- all_space_trimStart.
  rewrite <- all_space_rev. by rewrite H.
Qed.

Lemma resolvePath_ok_root v filepath scope fullPath :
  VFS._resolvePath v filepath scope = Ok fullPath →
  ∃ p root,
    filepath = JStr p ∧ JS.trim p ≠ ""
    ∧ VFS.scopes v (toString (or_default (JStr "run") scope)) = VFS.Own root
    ∧ fullPath = Path.join [root; if JS.startsWith p "/" then JS.slice1 p else p].
Proof.
  unfold VFS._resolvePath. intros H.
  repeat case_match; simplify_eq; eexists _, _.
  all: repeat (split; [done|]).
  all: by match goal with E : JS.startsWith _ "/" = _ |- _ => rewrite E end.
Qed.

Lemma resolvePath_root v p scope root :
  VFS.scopes v (toString (or_default (JStr "run") scope)) = VFS.Own root →
  JS.trim p ≠ "" →
  JS.startsWith (Path.join [root; if JS.startsWith p "/" then JS.slice1 p else p])
    root = true →
  VFS._resolvePath v (JStr p) scope
  = Ok (Path.join [root; if JS.startsWith p "/" then JS.slice1 p else p]).
Proof.
  intros Hroot Hp Hstarts. unfold VFS._resolvePath. rewrite Hroot.
  destruct p as [|c p]; [done|]. cbn [falsy].
  rewrite decide_False by done. by rewrite Hstarts.
Qed.

Lemma all_space_join_last l name :
  all_space name = false → all_space (JS.join "/" (l ++ [name])) = false.
Proof.
  intros Hname. induction l as [|x l IH]; [done|].
  change (JS.join "/" ((x :: l) ++ [name]))
    with (match l ++ [name] with
          | [] => x
          | _ => x +:+ "/" +:+ JS.join "/" (l ++ [name])
          end).
  destruct (l ++ [name]) eqn:E; [by destruct l|].
  by rewrite !all_space_append, IH, !andb_false_r.
Qed.

Lemma logical_child_all_space p name :
  p ≠ "" → ".." ∉ JS.split p → proper name → all_space name = false →
  JS.trim (Path.join [p; name]) ≠ "".
Proof.
  intros Hp Hdots Hname Hspace Htrim%trim_empty.
  destruct (logical_child p name Hp Hdots Hname) as [Heq Hsettled].
  destruct (render_shape _ _ Hsettled) as (_ & _ & _ & _ & Hrender & _); [done|].
  rewrite Heq, Hrender, all_space_append in Htrim.
  cbn [rev] in Htrim. rewrite rev_involutive, all_space_join_last in Htrim by done.
  by rewrite andb_false_r in Htrim.
Qed.



(** Both conditions are needed.  A file written as ["/ "] is listed from
    ["."] under the path [" "], which does not resolve; and what is listed
    under ["/a/../../fs"], which names the root of the scope, carries a path
    that resolves one level too deep. *)
Lemma listed_blank_name_rejected :
  (VFS.listFiles Fixture.vfs (JStr ".") (JStr "run")
     (VFS.writeFile Fixture.vfs (JStr "/ ") (JStr "x") (JStr "run") false
        Fixture.fresh).2).1
  = Ok {| VFS.l_path := JStr "."; VFS.l_scope := JStr "run";
          VFS.files :=
            [{| VFS.e_name := " "; VFS.e_path := " "; VFS.e_scope := JStr "run";
                VFS.e_size := 1;
                VFS.e_fullPath := "/eco/tasks/t1/runs/r1/fs/ " |}];
          VFS.directories := []; VFS.total := 1 |}
  ∧ VFS._resolvePath Fixture.vfs (JStr " ") (JStr "run") = Throw VFS.empty_path.
Proof. split; vm_compute; reflexivity. Qed.

Lemma listed_above_root_misplaced :
  (VFS.listFiles Fixture.vfs (JStr "/a/../../fs") (JStr "run") Fixture.nested).1
  = Ok {| VFS.l_path := JStr "/a/../../fs"; VFS.l_scope := JStr "run";
          VFS.files := [];
          VFS.directories :=
            [{| VFS.e_name := "sub"; VFS.e_path := "/fs/sub";
                VFS.e_scope := JStr "run"; VFS.e_size := 4096;
                VFS.e_fullPath := "/eco/tasks/t1/runs/r1/fs/sub" |}];
          VFS.total := 1 |}
  ∧ VFS._resolvePath Fixture.vfs (JStr "/fs/sub") (JStr "run")
    = Ok "/eco/tasks/t1/runs/r1/fs/fs/sub".
Proof. split; vm_compute; reflexivity. Qed.

(** ** Scopes are isolated *)

Lemma locate_kept_at st0 k st p :
  kept_at st0 k st → Disk.locate st p = Disk.locate st0 p.
Proof. intros [Hcwd _]. unfold Disk.locate. by rewrite Hcwd. Qed.

Lemma frame_mkdir_recursive st0 k p :
  ¬ k `prefix_of` Disk.locate st0 p →
  maintains (kept_at st0 k) (Disk.mkdir_recursive p).
Proof.
  intros Hk st HP. pose proof (locate_kept_at _ _ _ p HP) as Hloc.
  destruct HP as [Hcwd Hsame].
  destruct (mkdir_recursive_cases p st) as [(e & -> & _)|[-> _]]; [done|].
  split; [done|]. simpl. rewrite lookup_make_dirs, decide_False; [done|].
  rewrite elem_of_ancestors. by rewrite Hloc.
Qed.

Lemma frame_disk_writeFile st0 k p data :
  k ≠ Disk.locate st0 p →
  maintains (kept_at st0 k) (Disk.writeFile p data).
Proof.
  intros Hne st HP. pose proof (locate_kept_at _ _ _ p HP) as Hloc.
  destruct HP as [Hcwd Hk].
  destruct (Disk.writeFile p data st) as [[[]|e] st'] eqn:E.
  - apply disk_writeFile_ok in E as [_ ->]. split; [done|]. simpl.
    rewrite lookup_insert_ne by congruence. done.
  - unfold Disk.writeFile in E. repeat case_match; simplify_eq; by split.
Qed.

Lemma frame_writeFile st0 k v filepath content scope append :
  (∀ fullPath, VFS._resolvePath v filepath scope = Ok fullPath →
               ¬ k `prefix_of` Disk.locate st0 (Path.dirname fullPath)
               ∧ k ≠ Disk.locate st0 fullPath) →
  maintains (kept_at st0 k) (VFS.writeFile v filepath content scope append).
Proof.
  intros Hne. unfold VFS.writeFile.
  apply maintains_try_catch; [|intros; apply read_only_maintains; by intros ?].
  intros st HP. unfold bind at 1, lift. rewrite resolvePath_default.
  destruct (VFS._resolvePath v filepath scope) as [fullPath|e] eqn:Hres; [|done].
  destruct (Hne fullPath eq_refl) as [Hdir Hfile].
  revert st HP.
  apply (maintains_bind (kept_at st0 k));
    [apply read_only_maintains, read_only_existsSync|].
  intros dirExists. apply maintains_bind.
  { destruct dirExists;
      [apply read_only_maintains; by intros ?|by apply frame_mkdir_recursive]. }
  intros _. apply maintains_bind; [apply read_only_maintains, read_only_existsSync|].
  intros targetExists. apply maintains_bind.
  { apply read_only_maintains. destruct (append && targetExists); [|done].
    apply read_only_bind; [apply read_only_disk_readFile|]. by intros ??. }
  intros content'. apply maintains_bind; [apply read_only_maintains; by intros ?|].
  intros data. apply maintains_bind; [by apply frame_disk_writeFile|].
  intros _. apply maintains_bind; [apply read_only_maintains, read_only_stat|].
  intros stat. by apply maintains_emit.
Qed.

Lemma frame_mkdir st0 k v dirpath scope :
  (∀ fullPath, VFS._resolvePath v dirpath scope = Ok fullPath →
               ¬ k `prefix_of` Disk.locate st0 fullPath) →
  maintains (kept_at st0 k) (VFS.mkdir v dirpath scope).
Proof.
  intros Hne. unfold VFS.mkdir.
  apply maintains_try_catch; [|intros; apply read_only_maintains; by intros ?].
  intros st HP. unfold bind at 1, lift. rewrite resolvePath_default.
  destruct (VFS._resolvePath v dirpath scope) as [fullPath|e] eqn:Hres; [|done].
  revert st HP.
  apply (maintains_bind (kept_at st0 k)); [by apply frame_mkdir_recursive, Hne|].
  intros. apply read_only_maintains; by intros ?.
Qed.

Lemma frame_deleteFile st0 k v filepath scope :
  (∀ fullPath, VFS._resolvePath v filepath scope = Ok fullPath →
               ¬ Disk.locate st0 fullPath `prefix_of` k) →
  maintains (kept_at st0 k) (VFS.deleteFile v filepath scope).
Proof.
  intros Hne st HP.
  destruct (VFS._resolvePath v filepath scope) as [fullPath|e] eqn:Hres.
  - specialize (Hne fullPath eq_refl).
    rewrite <- (locate_kept_at _ _ _ fullPath HP) in Hne.
    destruct HP as [Hcwd Hk].
    destruct (Disk.lookup st fullPath) as [[data|]|] eqn:Hlook.
    + erewrite deleteFile_file by done. split; [done|]. simpl.
      rewrite lookup_delete_ne; [done|]. by intros <-.
    + erewrite deleteFile_directory by done. split; [done|]. simpl.
      rewrite <- Hk. destruct (nodes st !! k) as [n|] eqn:Hn.
      * by apply map_lookup_filter_Some.
      * apply map_lookup_filter_None. by left.
    + by erewrite deleteFile_missing.
  - by erewrite deleteFile_unresolved.
Qed.

Lemma startsWith_nil s : JS.startsWith s "" = true.
Proof. by destruct s. Qed.

Lemma startsWith_extend s p z :
  JS.startsWith s p = true → JS.startsWith (s +:+ z) p = true.
Proof.
  revert s. induction p as [|a p IH]; intros s; [by rewrite !startsWith_nil|].
  destruct s as [|b s]; [done|]. rewrite append_cons. simpl.
  case_decide; [apply IH|done].
Qed.

Lemma startsWith_plain_head x leaf stuff :
  plain leaf → stuff = "" ∨ JS.startsWith stuff "/" = true →
  JS.startsWith (x +:+ stuff) leaf = true → JS.startsWith x leaf = true.
Proof.
  revert x. induction leaf as [|a leaf IH]; intros x Hleaf Hstuff;
    [by rewrite !startsWith_nil|].
  apply plain_cons in Hleaf as [Ha Hleaf].
  destruct x as [|b x].
  - rewrite append_nil_l. destruct Hstuff as [->|Hslash]; [done|].
    destruct stuff as [|c stuff]; [done|]. rewrite startsWith_cons in Hslash.
    apply bool_decide_eq_true_1 in Hslash as ->. simpl. by rewrite decide_False.
  - rewrite append_cons. simpl. case_decide; [by apply IH|done].
Qed.

Lemma startsWith_segment x y X Y :
  plain x → plain y →
  JS.startsWith (x +:+ "/" +:+ X) (y +:+ "/" +:+ Y) = true →
  x = y ∧ JS.startsWith X Y = true.
Proof.
  revert x. induction y as [|a y IH]; intros x Hx Hy.
  - destruct x as [|b x].
    + rewrite !append_nil_l, !append_cons, !append_nil_l.
      cbn [JS.startsWith]. by rewrite decide_True.
    + apply plain_cons in Hx as [Hb _].
      rewrite append_nil_l, !append_cons, append_nil_l.
      cbn [JS.startsWith]. by rewrite decide_False by congruence.
  - apply plain_cons in Hy as [Ha Hy]. destruct x as [|b x].
    + rewrite append_nil_l, !append_cons, append_nil_l.
      cbn [JS.startsWith]. by rewrite decide_False by congruence.
    + apply plain_cons in Hx as [Hb Hx]. rewrite !(append_cons _ _ (_ +:+ _)).
      cbn [JS.startsWith].
      case_decide as Hab; [|done]. subst b. intros H.
      destruct (IH x Hx Hy H) as [-> ?]. done.
Qed.

Lemma join_cons x l :
  l ≠ [] → JS.join "/" (x :: l) = x +:+ "/" +:+ JS.join "/" l.
Proof. by destruct l. Qed.

Lemma join_nonempty_segments l :
  l ≠ [] → Forall (λ s, s ≠ "") l → JS.join "/" l ≠ "".
Proof.
  destruct l as [|x l]; [done|]. intros _ Hl. inversion_clear Hl as [|?? Hx _].
  destruct l; [done|]. rewrite join_cons by done. by apply append_nonempty_l.
Qed.

Lemma join_prefix_inv a leaf b tail :
  Forall plain (a ++ [leaf]) → Forall (λ s, s ≠ "") (a ++ [leaf]) →
  Forall plain b → tail = "" ∨ tail = "/" →
  JS.startsWith (JS.join "/" b +:+ tail) (JS.join "/" (a ++ [leaf])) = true →
  ∃ x rest, b = a ++ x :: rest ∧ JS.startsWith x leaf = true.
Proof.
  revert b. induction a as [|y a IH]; intros b Hplain Hne Hb Htail Hstarts.
  - cbn [app JS.join] in Hstarts.
    inversion_clear Hplain as [|?? Hleaf _]. inversion_clear Hne as [|?? Hleafne _].
    destruct b as [|x rest].
    + exfalso. cbn [JS.join] in Hstarts. rewrite append_nil_l in Hstarts.
      destruct leaf as [|c leaf]; [done|]. apply plain_cons in Hleaf as [Hc _].
      destruct Htail as [->| ->]; [done|]. simpl in Hstarts.
      by rewrite decide_False in Hstarts.
    + exists x, rest. split; [done|].
      destruct rest as [|x' rest].
      * cbn [JS.join] in Hstarts. apply (startsWith_plain_head x leaf tail); [done| |done].
        destruct Htail as [->| ->]; [by left|by right].
      * rewrite join_cons in Hstarts by done. rewrite !append_assoc in Hstarts.
        apply (startsWith_plain_head x leaf _ Hleaf) in Hstarts; [done|].
        right. by rewrite append_cons, startsWith_cons.
  - change ((y :: a) ++ [leaf]) with (y :: (a ++ [leaf])) in *.
    inversion_clear Hplain as [|?? Hy Hplain']. inversion_clear Hne as [|?? Hyne Hne'].
    rewrite join_cons in Hstarts by (by destruct a).
    assert (JS.join "/" (a ++ [leaf]) ≠ "") as Hrest
      by (apply join_nonempty_segments; [by destruct a|done]).
    destruct b as [|x rest].
    + exfalso. cbn [JS.join] in Hstarts. rewrite append_nil_l in Hstarts.
      destruct y as [|c y]; [done|]. apply plain_cons in Hy as [Hc _].
      rewrite append_cons in Hstarts.
      destruct Htail as [->| ->]; [done|]. simpl in Hstarts.
      by rewrite decide_False in Hstarts.
    + inversion_clear Hb as [|?? Hx Hb'].
      destruct rest as [|x' rest].
      * exfalso. cbn [JS.join] in Hstarts.
        assert (JS.startsWith (x +:+ "/" +:+ "") (y +:+ "/" +:+ JS.join "/" (a ++ [leaf]))
                = true) as H.
        { destruct Htail as [->| ->]; [|done].
          rewrite append_nil_r in Hstarts. by apply startsWith_extend. }
        apply startsWith_segment in H as [_ H]; [|done..].
        by destruct (JS.join "/" (a ++ [leaf])).
      * rewrite (join_cons x) in Hstarts by done.
        rewrite !append_assoc in Hstarts.
        apply startsWith_segment in Hstarts as [-> Hstarts]; [|done..].
        destruct (IH (x' :: rest) Hplain' Hne' Hb' Htail Hstarts)
          as (x0 & rest0 & -> & Hx0).
        by exists x0, rest0.
Qed.

Lemma render_trailing abs kept :
  settled (negb abs) kept → kept ≠ [] →
  render abs true kept = render abs false kept +:+ "/"
  ∧ render abs false kept ≠ "".
Proof.
  intros Hkept Hne.
  destruct (render_shape abs kept Hkept Hne) as (c & t & Hct & _ & _ & Hjoin & _).
  split; [|by rewrite Hct].
  unfold render. rewrite !decide_False by done.
  by rewrite append_nil_r, append_assoc.
Qed.

Lemma locate_trailing st p : p ≠ "" → Disk.locate st (p +:+ "/") = Disk.locate st p.
Proof.
  intros Hp. unfold Disk.locate, Path.normalizeSegments.
  assert (JS.startsWith (p +:+ "/") "/" = JS.startsWith p "/") as ->.
  { destruct p as [|c p]; [done|]. by rewrite append_cons, !startsWith_cons. }
  assert (JS.split (p +:+ "/") = JS.split p ++ [""]) as ->.
  { rewrite <- (append_nil_r (p +:+ "/")), append_assoc. by rewrite split_append. }
  rewrite app_assoc, fold_left_app. cbn [fold_left].
  by rewrite step_skip by (by left).
Qed.

Lemma dirname_trailing p : p ≠ "" → Path.dirname (p +:+ "/") = Path.dirname p.
Proof.
  destruct p as [|c body]; [done|]. intros _. rewrite append_cons.
  unfold Path.dirname. by rewrite rev_append.
Qed.

Lemma settled_above allow rest x below :
  x ≠ ".." → settled allow (rest ++ x :: below) → ".." ∉ rest.
Proof.
  intros Hx. induction rest as [|y rest IH]; intros Hkept; [apply not_elem_of_nil|].
  destruct (decide (y = "..")) as [->|Hy].
  - apply settled_dots in Hkept. apply Forall_app in Hkept as [_ Hkept].
    by inversion Hkept.
  - apply not_elem_of_cons. split; [congruence|]. apply IH.
    by apply (settled_tail allow y).
Qed.

Lemma render_prefix_inv abs trailing kept leaf below :
  settled (negb abs) kept → settled (negb abs) (leaf :: below) →
  dotty leaf = false →
  JS.startsWith (render abs trailing kept) (render abs false (leaf :: below)) = true →
  ∃ x rest, kept = rest ++ x :: below ∧ JS.startsWith x leaf = true.
Proof.
  intros Hkept Hroot Hleaf Hstarts.
  destruct (decide (kept = [])) as [->|Hne].
  { exfalso. pose proof (dotty_prefix _ _ Hstarts (dotty_render abs trailing []
                                                      (Forall_nil_2 _))) as Hdotty.
    apply dotty_root in Hdotty; [congruence|done]. }
  destruct (render_shape abs _ Hroot) as (_ & _ & _ & _ & Hr & _); [done|].
  destruct (render_shape abs _ Hkept Hne) as (_ & _ & _ & _ & Hk & Hjoin & _).
  assert (render abs trailing kept
          = (if abs then "/" else "") +:+ (JS.join "/" (rev kept)
              +:+ (if trailing then "/" else ""))) as Heq.
  { unfold render. by rewrite decide_False by done. }
  rewrite Heq, Hr in Hstarts.
  assert (JS.startsWith (JS.join "/" (rev kept) +:+ (if trailing then "/" else ""))
            (JS.join "/" (rev (leaf :: below))) = true) as Hjoins.
  { destruct abs; [|by rewrite !append_nil_l in Hstarts].
    rewrite !append_cons, !append_nil_l in Hstarts. cbn [JS.startsWith] in Hstarts.
    by rewrite decide_True in Hstarts. }
  cbn [rev] in Hjoins.
  destruct Hroot as (Hrp & Hrn & _). destruct Hkept as (Hkp & _).
  apply join_prefix_inv in Hjoins as (x & rest & Hrev & Hx).
  - exists x, (rev rest). split; [|done].
    rewrite <- (rev_involutive kept), Hrev, rev_app_distr. cbn [rev].
    by rewrite rev_involutive, <- app_assoc.
  - change (rev below ++ [leaf]) with (rev (leaf :: below)). by apply Forall_rev.
  - change (rev below ++ [leaf]) with (rev (leaf :: below)). apply Forall_rev.
    eapply Forall_impl; [exact Hrn|]. by intros ? [? _].
  - by apply Forall_rev.
  - by destruct trailing; [right|left].
Qed.

(** Where a path that passed the check of [_resolvePath] leads: to an entry
    beside or below the root, whose name at the level of the root starts
    with the name of the root. *)
Lemma resolved_key st abs leaf below q :
  settled (negb abs) (leaf :: below) →
  dotty leaf = false →
  (∀ x, JS.startsWith x leaf = true → x ≠ "" ∧ x ≠ "." ∧ x ≠ "..") →
  JS.startsWith (Path.join [render abs false (leaf :: below); q])
    (render abs false (leaf :: below)) = true →
  ∃ P x R,
    JS.startsWith x leaf = true
    ∧ Disk.locate st (render abs false (leaf :: below)) = P ++ [leaf]
    ∧ Disk.locate st (Path.join [render abs false (leaf :: below); q]) = P ++ x :: R
    ∧ Disk.locate st (Path.dirname (Path.join [render abs false (leaf :: below); q]))
      `prefix_of` P ++ x :: R.
Proof.
  intros Hroot Hdotty Hnames Hstarts.
  assert (∃ t K, Path.join [render abs false (leaf :: below); q] = render abs t K
                 ∧ settled (negb abs) K) as (t & K & HK & HsK).
  { rewrite join_under_root by done. case_decide; [by exists false, (leaf :: below)|].
    eexists _, _. split; [done|]. apply settled_fold; [apply split_segments|done]. }
  rewrite HK in *. clear HK.
  destruct (render_prefix_inv _ _ _ _ _ HsK Hroot Hdotty Hstarts)
    as (x & rest & -> & Hx).
  destruct (Hnames x Hx) as (Hxne & Hxdot & Hxdots).
  assert (leaf ≠ "" ∧ leaf ≠ "." ∧ leaf ≠ "..") as (Hlne & Hldot & Hldots).
  { apply Hnames. rewrite <- (append_nil_r leaf) at 1. apply startsWith_append. }
  pose proof (settled_above _ _ _ _ Hxdots HsK) as Hrest.
  assert (Forall proper rest) as Hproper.
  { destruct HsK as (Hp & Hn & _).
    apply Forall_app in Hp as [Hp _]. apply Forall_app in Hn as [Hn _].
    rewrite Forall_forall in Hp, Hn. apply Forall_forall. intros y Hy.
    destruct (Hn y Hy). repeat split; [by apply Hp|done|done|]. by intros ->. }
  set (base := fold_left (Path.step false) (if abs then [] else cwd st) []).
  set (Pb := fold_left (Path.step false) (rev below) base).
  assert (∀ trailing kept, settled (negb abs) kept → kept ≠ [] →
            Disk.locate st (render abs trailing kept)
            = rev (fold_left (Path.step false) (rev kept) base)) as Hlocate.
  { intros trailing kept Hkept Hne. destruct trailing; [|by apply locate_render].
    destruct (render_trailing abs kept Hkept Hne) as [-> Hnonempty].
    rewrite locate_trailing by done. by apply locate_render. }
  assert (∀ more, Forall proper more →
            rev (fold_left (Path.step false) (rev (more ++ x :: below)) base)
            = rev Pb ++ x :: rev more) as Hkey.
  { intros more Hmore. rewrite rev_app_distr. cbn [rev].
    rewrite !fold_left_app. cbn [fold_left]. fold Pb.
    rewrite step_push by done.
    apply Forall_rev in Hmore. destruct (rev_proper_steps _ Hmore) as (Hf & Hd & _).
    rewrite fold_pushes, Hf by done. rewrite rev_involutive, rev_app_distr.
    cbn [rev]. by rewrite <- app_assoc. }
  exists (rev Pb), x, (rev rest). split; [done|]. split; [|split].
  - rewrite locate_render by done. cbn [rev]. rewrite fold_left_app.
    cbn [fold_left]. fold base Pb. by rewrite step_push.
  - rewrite Hlocate by (done || by destruct rest). by apply Hkey.
  - rewrite <- Hkey by done. rewrite <- (Hlocate false) by (done || by destruct rest).
    assert (∃ y K', rest ++ x :: below = y :: K' ∧ y ≠ "..") as (y & K' & HyK & Hy).
    { destruct rest as [|y rest]; [by exists x, below|].
      exists y, (rest ++ x :: below). split; [done|].
      inversion_clear Hproper as [|?? (_ & _ & _ & ?) _]. done. }
    rewrite HyK in *.
    assert (Path.dirname (render abs t (y :: K'))
            = Path.dirname (render abs false (y :: K'))) as ->.
    { destruct t; [|done].
      destruct (render_trailing abs (y :: K') HsK) as [-> Hnonempty]; [done|].
      by apply dirname_trailing. }
    rewrite (locate_dirname st abs y K') by done. by apply prefix_app_r.
Qed.

Lemma filter_proper names :
  Forall proper names → filter (λ a, a ≠ "") names = names.
Proof.
  induction 1 as [|x l (_ & Hx & _) _ IH]; [done|].
  by rewrite filter_cons, decide_True, IH.
Qed.

Lemma join_proper names :
  Forall proper names → names ≠ [] →
  JS.join "/" names ≠ ""
  ∧ JS.startsWith (JS.join "/" names) "/" = false
  ∧ JS.endsWithSlash (JS.join "/" names) = false
  ∧ JS.split (JS.join "/" names) = names.
Proof.
  intros Hnames Hne. destruct (rev_proper_steps _ Hnames) as (_ & _ & Hplain).
  split; [|split; [|split]].
  - apply join_nonempty_segments; [done|].
    eapply Forall_impl; [exact Hnames|]. by intros ? (_ & ? & _).
  - destruct names as [|x names]; [done|].
    inversion_clear Hnames as [|?? (Hx & Hxne & _) _].
    destruct x as [|c x]; [done|]. apply plain_cons in Hx as [Hc _].
    destruct (join_head c x names) as [t ->]. rewrite startsWith_cons.
    by apply bool_decide_eq_false_2.
  - destruct (exists_last Hne) as (l & x & ->).
    apply join_last; [done|]. apply Forall_app in Hnames as [_ Hx].
    by inversion_clear Hx as [|?? (_ & ? & _) _].
  - by apply split_join.
Qed.

(** Where the path joined from [e] and proper names leads *)
Lemma locate_join st e names :
  Forall proper names → names ≠ [] →
  Disk.locate st (Path.join (e :: names)) = Disk.locate st e ++ names.
Proof.
  intros Hnames Hne.
  destruct (join_proper names Hnames Hne) as (Hjoin & Hrel & Hslash & Hsplit).
  destruct (rev_proper_steps _ Hnames) as (Hfilter & Hdots & Hplain).
  assert (∀ allow kept,
            fold_left (Path.step allow) names kept = rev names ++ kept) as Hpush.
  { intros allow kept. by rewrite fold_pushes, Hfilter. }
  unfold Path.join. rewrite filter_cons, filter_proper by done.
  destruct (decide (e = "")) as [->|He].
  - rewrite decide_False by (intros H; by apply H).
    destruct names as [|x names']; [done|]. set (names := x :: names') in *.
    rewrite normalize_render, Hrel, Hslash, Hsplit, Hpush by done.
    cbn [negb]. rewrite app_nil_r.
    rewrite locate_render.
    2: { rewrite <- (app_nil_r (rev names)), <- (Hpush true []).
         apply settled_fold; [done|apply settled_nil]. }
    rewrite rev_involutive, Hpush, rev_app_distr, rev_involutive.
    unfold Disk.locate, Path.normalizeSegments.
    change (JS.startsWith "" "/") with false. cbn [JS.split].
    rewrite fold_left_app. cbn [fold_left]. by rewrite step_skip by (by left).
  - rewrite decide_True by done.
    rewrite join_cons by done.
    set (q := e +:+ "/" +:+ JS.join "/" names).
    assert (q ≠ "") as Hq by (by apply append_nonempty_l).
    rewrite normalize_render by done.
    assert (JS.endsWithSlash q = false) as ->.
    { subst q. rewrite endsWithSlash_append by (by apply append_nonempty_r).
      rewrite append_cons, append_nil_l.
      change (String "/" (JS.join "/" names)) with ("/" +:+ JS.join "/" names).
      by rewrite endsWithSlash_append. }
    assert (JS.startsWith q "/" = JS.startsWith e "/") as ->
      by by apply startsWith_slash_append.
    set (abs := JS.startsWith e "/").
    assert (JS.split q = JS.split e ++ names) as ->
      by (subst q; by rewrite split_append, Hsplit).
    rewrite fold_left_app.
    set (K := fold_left (Path.step (negb abs)) (JS.split e) []).
    assert (settled (negb abs) K) as HK
      by (apply settled_fold; [apply split_segments|apply settled_nil]).
    rewrite locate_render by (by apply settled_fold).
    rewrite Hpush, rev_app_distr, rev_involutive, fold_left_app, Hpush.
    rewrite rev_app_distr, rev_involutive. f_equal.
    unfold Disk.locate, Path.normalizeSegments. f_equal.
    fold abs. rewrite fold_left_app. subst K. destruct abs; cbn [negb].
    + cbn [fold_left]. by destruct HK as (_ & _ & ?).
    + apply replay_normalized, split_segments.
Qed.

Lemma scope_root_names v s root :
  VFS.scopes v s = VFS.Own root →
  root = Path.join (VFS.ecosystemPath v :: scope_names v s)
  ∧ (s = "run" ∨ s = "task" ∨ s = "global").
Proof.
  unfold VFS.scopes, scope_names. repeat case_decide; intros [= <-]; tauto.
Qed.

Lemma scope_names_shape v s :
  proper (VFS.taskId v) → proper (VFS.runId v) →
  Forall proper (scope_names v s)
  ∧ ∃ init leaf, scope_names v s = init ++ [leaf] ∧ (leaf = "fs" ∨ leaf = "global").
Proof.
  intros Ht Hr. unfold scope_names.
  repeat case_decide;
    (split;
     [repeat (apply Forall_cons_2; [first [assumption|by repeat split]|]);
      apply Forall_nil_2|]).
  - exists ["tasks"; VFS.taskId v; "runs"; VFS.runId v], "fs". by split; [|left].
  - exists ["tasks"; VFS.taskId v], "fs". by split; [|left].
  - exists ["vfs"], "global". by split; [|right].
Qed.

Lemma starts_like_root leaf x :
  leaf = "fs" ∨ leaf = "global" → JS.startsWith x leaf = true →
  x ≠ "" ∧ x ≠ "." ∧ x ≠ ".." ∧ x ≠ "runs".
Proof.
  intros [-> | ->]; (destruct x as [|c x]; [done|]); simpl;
    (case_decide as Hc; [subst c|done]); done.
Qed.

Lemma resolved_scope_key v s root st q :
  proper (VFS.taskId v) → proper (VFS.runId v) →
  VFS.scopes v s = VFS.Own root →
  JS.startsWith (Path.join [root; q]) root = true →
  ∃ init leaf x R,
    scope_names v s = init ++ [leaf]
    ∧ x ≠ "runs"
    ∧ Disk.locate st (Path.join [root; q])
      = Disk.locate st (VFS.ecosystemPath v) ++ init ++ x :: R
    ∧ Disk.locate st (Path.dirname (Path.join [root; q]))
      `prefix_of` Disk.locate st (VFS.ecosystemPath v) ++ init ++ x :: R.
Proof.
  intros Ht Hr Hroot Hstarts.
  destruct (scope_root_names v s root Hroot) as [Hjoin _].
  destruct (scope_names_shape v s Ht Hr) as (Hproper & init & leaf & Hnames & Hleaf).
  pose proof (locate_join st (VFS.ecosystemPath v) (scope_names v s) Hproper) as Hloc.
  rewrite <- Hjoin, Hnames in Hloc. specialize (Hloc ltac:(by destruct init)).
  rewrite Hnames in Hjoin.
  destruct (join_leaf (VFS.ecosystemPath v :: init) leaf)
    as (abs & below & Hrender & Hsettled);
    [by destruct Hleaf as [-> | ->]..|].
  change ((VFS.ecosystemPath v :: init) ++ [leaf])
    with (VFS.ecosystemPath v :: init ++ [leaf]) in Hrender.
  rewrite <- Hjoin in Hrender. clear Hjoin. subst root.
  destruct (resolved_key st abs leaf below q Hsettled) as (P & x & R & Hx & HP & HF & HD).
  - by destruct Hleaf as [-> | ->].
  - intros x Hx. destruct (starts_like_root leaf x Hleaf Hx) as (? & ? & ? & _). done.
  - done.
  - rewrite Hloc, app_assoc in HP. apply app_inj_tail in HP as [<- _].
    exists init, leaf, x, R. rewrite !app_assoc.
    split; [done|]. split; [|by split].
    by destruct (starts_like_root leaf x Hleaf Hx) as (_ & _ & _ & ?).
Qed.

Lemma apart (l : list string) a b u w k F :
  a ≠ b → l ++ b :: w `prefix_of` k → F = l ++ a :: u →
  ¬ k `prefix_of` F ∧ ¬ F `prefix_of` k.
Proof.
  intros Hab [k' ->] ->. split; intros [z Hz].
  - rewrite <- !app_assoc in Hz. apply app_inv_head in Hz. by simplify_eq/=.
  - rewrite <- !app_assoc in Hz. apply app_inv_head in Hz. by simplify_eq/=.
Qed.

Lemma resolvePath_ok_contained v filepath scope fullPath :
  VFS._resolvePath v filepath scope = Ok fullPath →
  ∃ q root,
    VFS.scopes v (toString (or_default (JStr "run") scope)) = VFS.Own root
    ∧ fullPath = Path.join [root; q]
    ∧ JS.startsWith fullPath root = true.
Proof.
  unfold VFS._resolvePath. intros H.
  repeat case_match; simplify_eq; eexists _, _.
  all: repeat (split; [done|]).
  all: by match goal with E : negb _ = false |- _ => apply negb_false_iff in E end.
Qed.

(** A path that resolves in one scope leads away from the root of every
    other scope. *)
Lemma resolved_elsewhere v filepath scope fullPath s' root' st k :
  proper (VFS.taskId v) → proper (VFS.runId v) →
  VFS.scopes v s' = VFS.Own root' →
  toString (or_default (JStr "run") scope) ≠ s' →
  Disk.locate st root' `prefix_of` k →
  VFS._resolvePath v filepath scope = Ok fullPath →
  ¬ k `prefix_of` Disk.locate st fullPath
  ∧ ¬ Disk.locate st fullPath `prefix_of` k
  ∧ ¬ k `prefix_of` Disk.locate st (Path.dirname fullPath).
Proof.
  intros Ht Hr Hroot' Hother Hk Hres.
  destruct (resolvePath_ok_contained _ _ _ _ Hres) as (q & root & Hroot & -> & Hstarts).
  set (s := toString (or_default (JStr "run") scope)) in *.
  destruct (resolved_scope_key v s root st q Ht Hr Hroot Hstarts)
    as (init & leaf & x & R & Hnames & Hx & -> & Hdir).
  destruct (scope_root_names v s root Hroot) as [_ Hs].
  destruct (scope_root_names v s' root' Hroot') as [-> Hs'].
  destruct (scope_names_shape v s' Ht Hr) as (Hproper' & init' & leaf' & Hnames' & _).
  rewrite locate_join in Hk by (done || rewrite Hnames'; by destruct init').
  set (L := Disk.locate st (VFS.ecosystemPath v)) in *.
  assert (¬ k `prefix_of` L ++ init ++ x :: R ∧ ¬ L ++ init ++ x :: R `prefix_of` k)
    as [Hup Hdown].
  { clear Hdir Hnames'.
    destruct Hs as [Hs|[Hs|Hs]], Hs' as [Hs'|[Hs'|Hs']];
      try congruence; rewrite Hs in Hnames; rewrite Hs' in Hk;
      cbn in Hnames, Hk.
    - apply (app_inj_tail ["tasks"; VFS.taskId v; "runs"; VFS.runId v]) in Hnames
        as [<- _].
      apply (apart (L ++ ["tasks"; VFS.taskId v]) "runs" "fs"
               (VFS.runId v :: x :: R) []); [done| |]; by rewrite <- app_assoc.
    - apply (app_inj_tail ["tasks"; VFS.taskId v; "runs"; VFS.runId v]) in Hnames
        as [<- _].
      by apply (apart L "tasks" "vfs"
                  (VFS.taskId v :: "runs" :: VFS.runId v :: x :: R) ["global"]).
    - apply (app_inj_tail ["tasks"; VFS.taskId v]) in Hnames as [<- _].
      apply (apart (L ++ ["tasks"; VFS.taskId v]) x "runs" R [VFS.runId v; "fs"]);
        [done| |]; by rewrite <- app_assoc.
    - apply (app_inj_tail ["tasks"; VFS.taskId v]) in Hnames as [<- _].
      by apply (apart L "tasks" "vfs" (VFS.taskId v :: x :: R) ["global"]).
    - apply (app_inj_tail ["vfs"]) in Hnames as [<- _].
      by apply (apart L "vfs" "tasks" (x :: R)
                  [VFS.taskId v; "runs"; VFS.runId v; "fs"]).
    - apply (app_inj_tail ["vfs"]) in Hnames as [<- _].
      by apply (apart L "vfs" "tasks" (x :: R) [VFS.taskId v; "fs"]). }
  split; [done|]. split; [done|]. intros Hkd. apply Hup. by etrans.
Qed.

(** Scopes are isolated: when [taskId] and [runId] are proper names,
    [writeFile], [mkdir] and [deleteFile] in one scope leave everything at or
    below the root of any other scope as it was, whether they succeed or
    fail and whatever the path is. *)
Theorem scopes_are_isolated v filepath content scope append s' root' st k :
  proper (VFS.taskId v) → proper (VFS.runId v) →
  VFS.scopes v s' = VFS.Own root' →
  toString (or_default (JStr "run") scope) ≠ s' →
  Disk.locate st root' `prefix_of` k →
  nodes (VFS.writeFile v filepath content scope append st).2 !! k = nodes st !! k
  ∧ nodes (VFS.mkdir v filepath scope st).2 !! k = nodes st !! k
  ∧ nodes (VFS.deleteFile v filepath scope st).2 !! k = nodes st !! k.
Proof.
  intros Ht Hr Hroot' Hother Hk.
  pose proof (λ fullPath, resolved_elsewhere v filepath scope fullPath s' root' st k
                            Ht Hr Hroot' Hother Hk) as Hfar.
  assert (kept_at st k st) as Hst by done.
  split; [|split].
  - apply (frame_writeFile st k v filepath content scope append); [|done].
    intros fullPath Hres. destruct (Hfar fullPath Hres) as (Hup & _ & Hdir).
    split; [done|]. intros ->. by apply Hup.
  - apply (frame_mkdir st k v filepath scope); [|done].
    intros fullPath Hres. by destruct (Hfar fullPath Hres) as (Hup & _ & _).
  - apply (frame_deleteFile st k v filepath scope); [|done].
    intros fullPath Hres. by destruct (Hfar fullPath Hres) as (_ & Hdown & _).
Qed.

Lemma scopes_are_isolated_witness :
  nodes (VFS.writeFile Fixture.vfs (JStr "../fs2/a.txt") (JStr "hi") (JStr "run") false
           Fixture.fresh).2 !! (Fixture.task_root ++ ["a.txt"])
  = nodes Fixture.fresh !! (Fixture.task_root ++ ["a.txt"])
  ∧ nodes (VFS.mkdir Fixture.vfs (JStr "../fs2/a.txt") (JStr "run") Fixture.fresh).2
      !! (Fixture.task_root ++ ["a.txt"])
    = nodes Fixture.fresh !! (Fixture.task_root ++ ["a.txt"])
  ∧ nodes (VFS.deleteFile Fixture.vfs (JStr "../fs2/a.txt") (JStr "run")
             Fixture.fresh).2 !! (Fixture.task_root ++ ["a.txt"])
    = nodes Fixture.fresh !! (Fixture.task_root ++ ["a.txt"]).
Proof.
  apply (scopes_are_isolated Fixture.vfs (JStr "../fs2/a.txt") (JStr "hi") (JStr "run")
           false "task" "/eco/tasks/t1/fs").
  - by repeat split.
  - by repeat split.
  - reflexivity.
  - discriminate.
  - by exists ["a.txt"].
Defined.

(** The condition on the names is needed: with the run ["../fs/y"] the
    root of the run scope lies below the root of the task scope, and a write
    in the run scope shows up there. *)
Lemma run_below_task_not_isolated :
  let v := {| VFS.ecosystemPath := "/eco"; VFS.taskId := "t1";
              VFS.runId := "../fs/y" |} in
  VFS.scopes v "task" = VFS.Own "/eco/tasks/t1/fs"
  ∧ VFS.scopes v "run" = VFS.Own "/eco/tasks/t1/fs/y/fs"
  ∧ nodes Fixture.fresh !! (Fixture.task_root ++ ["y"; "fs"; "a.txt"]) = None
  ∧ nodes (VFS.writeFile v (JStr "a.txt") (JStr "hi") (JStr "run") false
             Fixture.fresh).2 !! (Fixture.task_root ++ ["y"; "fs"; "a.txt"])
    = Some (File "hi").
Proof. repeat split; vm_compute; reflexivity. Qed.

(** ** Where a resolved path leads *)

Lemma locate_pushed st abs trailing more x below :
  settled (negb abs) (more ++ x :: below) →
  x ≠ "" → x ≠ "." → x ≠ ".." → Forall proper more →
  Disk.locate st (render abs trailing (more ++ x :: below))
  = rev (fold_left (Path.step false) (rev below)
           (fold_left (Path.step false) (if abs then [] else cwd st) []))
    ++ x :: rev more.
Proof.
  intros Hkept Hxne Hxdot Hxdots Hmore.
  assert (Disk.locate st (render abs trailing (more ++ x :: below))
          = Disk.locate st (render abs false (more ++ x :: below))) as ->.
  { destruct trailing; [|done].
    destruct (render_trailing abs _ Hkept) as [-> Hnonempty]; [by destruct more|].
    by apply locate_trailing. }
  rewrite locate_render by done. rewrite rev_app_distr. cbn [rev].
  rewrite !fold_left_app. cbn [fold_left]. rewrite step_push by done.
  apply Forall_rev in Hmore. destruct (rev_proper_steps _ Hmore) as (Hf & Hd & _).
  rewrite fold_pushes, Hf by done. rewrite rev_involutive, rev_app_distr.
  cbn [rev]. by rewrite <- app_assoc.
Qed.

(** Where a path without [..] leads: to what its segments name, below the
    root. *)
Lemma resolved_inside st abs leaf below q :
  settled (negb abs) (leaf :: below) → leaf ≠ ".." →
  ".." ∉ JS.split q →
  Disk.locate st (Path.join [render abs false (leaf :: below); q])
  = Disk.locate st (render abs false (leaf :: below)) ++ path_steps q.
Proof.
  intros Hroot Hleaf Hq.
  destruct Hroot as (Hp & Hn & Hfold) eqn:E. clear E.
  inversion Hn as [|?? [Hlne Hldot] _]; subst.
  destruct (join_root_pushes abs leaf below Hroot q Hq) as (trailing & -> & _).
  pose proof (steps_proper q Hq) as Hsteps.
  rewrite (locate_pushed st abs trailing (rev (path_steps q)) leaf below);
    [|by apply settled_pushes|done..|by apply Forall_rev].
  pose proof (locate_pushed st abs false [] leaf below) as Hself.
  cbn [app rev] in Hself. rewrite Hself by done.
  rewrite rev_involutive. by rewrite <- app_assoc.
Qed.

Lemma scope_root_leaf v s root :
  VFS.scopes v s = VFS.Own root →
  ∃ abs leaf below,
    root = render abs false (leaf :: below)
    ∧ settled (negb abs) (leaf :: below)
    ∧ (leaf = "fs" ∨ leaf = "global").
Proof.
  unfold VFS.scopes. repeat case_decide; intros [= <-].
  - destruct (join_leaf [VFS.ecosystemPath v; "tasks"; VFS.taskId v; "runs";
                         VFS.runId v] "fs") as (abs & below & Hroot & Hsettled);
      try done.
    exists abs, "fs", below. split; [done|]. split; [done|]. by left.
  - destruct (join_leaf [VFS.ecosystemPath v; "tasks"; VFS.taskId v] "fs")
      as (abs & below & Hroot & Hsettled); try done.
    exists abs, "fs", below. split; [done|]. split; [done|]. by left.
  - destruct (join_leaf [VFS.ecosystemPath v; "vfs"] "global")
      as (abs & below & Hroot & Hsettled); try done.
    exists abs, "global", below. split; [done|]. split; [done|]. by right.
Qed.

(** Where a path that resolves leads.  The check of [_resolvePath] compares
    strings, so the path may leave the root of its scope, but only for a
    sibling of the root whose name starts with the name of the root ([fs],
    [global]), or for what is below such a sibling; a path without a [..]
    segment leads to what its segments name, below the root. *)
Theorem resolved_path_leads v filepath scope fullPath st :
  VFS._resolvePath v filepath scope = Ok fullPath →
  ∃ p root parent leaf x rest,
    filepath = JStr p
    ∧ VFS.scopes v (toString (or_default (JStr "run") scope)) = VFS.Own root
    ∧ Disk.locate st root = parent ++ [leaf]
    ∧ Disk.locate st fullPath = parent ++ x :: rest
    ∧ JS.startsWith x leaf = true
    ∧ (".." ∉ JS.split p → x = leaf ∧ rest = path_steps p).
Proof.
  intros Hres.
  destruct (resolvePath_ok_root _ _ _ _ Hres) as (p & root & -> & Htrim & Hroot & Hjoin).
  destruct (resolvePath_ok_contained _ _ _ _ Hres) as (q & root' & Hroot' & _ & Hstarts).
  rewrite Hroot in Hroot'. injection Hroot' as <-.
  set (q' := if JS.startsWith p "/" then JS.slice1 p else p) in *.
  destruct (scope_root_leaf v _ root Hroot)
    as (abs & leaf & below & -> & Hsettled & Hleaf).
  rewrite Hjoin in Hstarts |- *.
  destruct (resolved_key st abs leaf below q' Hsettled)
    as (P & x & R & Hx & HP & HF & _).
  - by destruct Hleaf as [-> | ->].
  - intros x Hx. destruct (starts_like_root leaf x Hleaf Hx) as (? & ? & ? & _). done.
  - done.
  - exists p, (render abs false (leaf :: below)), P, leaf, x, R.
    repeat (split; [done|]). intros Hdots.
    assert ((".." ∉ JS.split q') ∧ path_steps q' = path_steps p) as [Hq' Hsteps].
    { subst q'. destruct (JS.startsWith p "/") eqn:Hslash; [|done].
      split; [|by apply steps_slice].
      destruct (split_slice_dotdot p Hdots) as [?|?]; [done|congruence]. }
    rewrite resolved_inside, HP, Hsteps, <- app_assoc in HF;
      [|done|by destruct Hleaf as [-> | ->]|done].
    apply app_inv_head in HF. by simplify_eq/=.
Qed.

Lemma resolved_path_leads_witness :
  ∃ p root parent leaf x rest,
    JStr "../fs2/a.txt" = JStr p
    ∧ VFS.scopes Fixture.vfs (toString (or_default (JStr "run") (JStr "run")))
      = VFS.Own root
    ∧ Disk.locate Fixture.fresh root = parent ++ [leaf]
    ∧ Disk.locate Fixture.fresh "/eco/tasks/t1/runs/r1/fs2/a.txt" = parent ++ x :: rest
    ∧ JS.startsWith x leaf = true
    ∧ (".." ∉ JS.split p → x = leaf ∧ rest = path_steps p).
Proof.
  apply (resolved_path_leads Fixture.vfs (JStr "../fs2/a.txt") (JStr "run")).
  vm_compute. reflexivity.
Defined.

(** ** What a recursive listing holds *)

(** The logical path of the child [name] of a directory resolves to the
    child of the resolved path of the directory. *)
Lemma child_path_resolves v p scope fullPath name :
  VFS._resolvePath v (JStr p) scope = Ok fullPath →
  ".." ∉ JS.split p → proper name → all_space name = false →
  VFS._resolvePath v (JStr (Path.join [p; name])) scope
  = Ok (Path.join [fullPath; name])
  ∧ ".." ∉ JS.split (Path.join [p; name]).
Proof.
  intros Hres Hdots Hname Hspace.
  destruct (resolvePath_ok_root _ _ _ _ Hres) as (p' & root & [= <-] & Htrim & Hroot & ->).
  assert (p ≠ "") as Hp by (by intros ->).
  destruct (scope_root_shape v _ root Hroot)
    as (abs & leaf & below & -> & Hsettled & _).
  destruct (listed_path_root abs leaf below Hsettled p name Hp Hdots Hname)
    as [Heq Hstarts].
  split.
  - rewrite <- Heq. apply resolvePath_root; [done| |done].
    by apply logical_child_all_space.
  - destruct (logical_child p name Hp Hdots Hname) as [-> Hlogical].
    destruct (render_shape _ _ Hlogical) as (_ & _ & _ & _ & _ & _ & -> & _); [done|].
    cbn [rev]. rewrite rev_involutive.
    pose proof (steps_proper p Hdots) as Hsteps.
    destruct (rev_proper_steps (path_steps p ++ [name])) as (_ & Hnone & _).
    { apply Forall_app. split; [done|by constructor]. }
    rewrite not_elem_of_app. split; [|done]. by destruct (JS.startsWith p "/");
      [apply not_elem_of_cons; split; [done|apply not_elem_of_nil]
      |apply not_elem_of_nil].
Qed.

Lemma walk_ok self scope steps i result st :
  (∀ ps st, ∃ o, self ps st = (Ok o, st)) →
  ∃ o, HostTools.walk self scope steps i result st = (Ok o, st).
Proof.
  intros Hself. revert i result.
  induction steps as [|steps IH]; intros i result; simpl; [by eexists|].
  destruct (VFS.directories result !! i) as [dir|]; [|by eexists].
  unfold bind. destruct (Hself (HostTools.sub_params dir scope) st) as [o ->].
  destruct o as [[sub|f]|]; [apply IH|apply IH|by eexists].
Qed.

Lemma host_listFiles_ok fuel v ps st :
  ∃ o, HostTools.listFiles fuel v ps st = (Ok o, st).
Proof.
  destruct fuel as [|fuel]; [by eexists|]. simpl.
  apply try_catch_total; [by eexists|].
  apply read_only_bind; [apply read_only_listFiles|]. intros result.
  apply read_only_bind; [|intros; apply read_only_ret].
  case_match; [|apply read_only_ret].
  apply read_only_walk. intros. apply read_only_host_listFiles.
Qed.

(** When the directory can be listed, the tool does not answer with a
    failure. *)
Lemma host_listFiles_success fuel v ps st direct sub :
  VFS.listFiles v (or_default (JStr "/") (param ps "path"))
    (or_default (JStr "run") (param ps "scope")) st = (Ok direct, st) →
  HostTools.listFiles fuel v ps st = (Ok (Some sub), st) →
  ∃ fuel' found, fuel = S fuel' ∧ sub = Success found.
Proof.
  intros Hdirect Hlist. destruct fuel as [|fuel]; [discriminate|].
  exists fuel. simpl in Hlist. unfold try_catch, bind at 1 in Hlist.
  rewrite Hdirect in Hlist. unfold bind in Hlist.
  match type of Hlist with
  | context [(if ?c then ?walk else ?stay) st] =>
      assert (∃ o, (if c then walk else stay) st = (Ok o, st)) as [o Ho]
  end.
  { destruct (_ && _); [|by eexists]. apply walk_ok. intros. apply host_listFiles_ok. }
  rewrite Ho in Hlist. destruct o as [out|]; [|discriminate].
  injection Hlist as <-. by eexists.
Qed.

(** What the listing of a directory holds for one of its children *)
Lemma child_listed v p scope st fullPath name n :
  VFS._resolvePath v (JStr p) scope = Ok fullPath →
  well_formed st →
  nodes st !! Disk.locate st fullPath = Some Dir →
  nodes st !! (Disk.locate st fullPath ++ [name]) = Some n →
  ∃ direct e,
    VFS.listFiles v (JStr p) scope st = (Ok direct, st)
    ∧ e ∈ (match n with Dir => VFS.directories direct | File _ => VFS.files direct end)
    ∧ VFS.e_name e = name
    ∧ VFS.e_size e = size_of st n
    ∧ VFS.e_path e = Path.join [p; name]
    ∧ VFS.e_fullPath e = Path.join [fullPath; name]
    ∧ Disk.locate st (VFS.e_fullPath e) = Disk.locate st fullPath ++ [name].
Proof.
  intros Hres Hwf Hdir Hn.
  assert (Disk.lookup st fullPath = Some Dir) as Hlook
    by (unfold Disk.lookup; by rewrite Hdir).
  pose proof (listFiles_directory v (JStr p) scope st fullPath Hres Hwf Hlook) as Hlist.
  cbn zeta in Hlist. cbn [or_default toString] in Hlist.
  set (d := {| Disk.name := name; Disk.entryIsDirectory := bool_decide (n = Dir) |}).
  assert (d ∈ children st (Disk.locate st fullPath)) as Hd
    by (apply elem_of_children; by exists n).
  assert (proper name) as Hname.
  { apply Hwf in Hn. apply Forall_app in Hn as [_ Hn]. by inversion Hn. }
  pose proof (resolved_nonempty _ _ _ _ Hres) as Hfull.
  eexists _, (listed p fullPath (or_default (JStr "run") scope) st d).
  split; [exact Hlist|]. cbn [VFS.files VFS.directories listed VFS.e_name VFS.e_size
                              VFS.e_path VFS.e_fullPath Disk.name].
  split.
  { destruct n as [data|]; apply list_elem_of_fmap_2, list_elem_of_filter;
      (split; [|done]); cbn [d Disk.entryIsDirectory];
      [by apply bool_decide_eq_false_2|by apply bool_decide_eq_true_2]. }
  subst d. cbn [Disk.name]. rewrite Hn. repeat (split; [done|]).
  by destruct (locate_child st fullPath name Hfull Hname).
Qed.

Lemma prefix_included {A} (l1 l2 : list A) : l1 `prefix_of` l2 → l1 ⊆ l2.
Proof. intros [k ->] x Hx. apply elem_of_app. by left. Qed.


Lemma named_decide st K :
  bool_decide (map_Forall (λ k (_ : node), Forall (λ s, all_space s = false) k)
                 (nodes st)) = true →
  ∀ rel, nodes st !! (K ++ rel) = Some Dir → Forall (λ s, all_space s = false) rel.
Proof.
  intros H%bool_decide_eq_true_1 rel Hrel.
  apply H in Hrel. by apply Forall_app in Hrel as [_ ?].
Qed.


(** ** The recursive listing comes to an end *)

Lemma extended_nil result : extended result [] [] = result.
Proof. destruct result. unfold extended. simpl. by rewrite !app_nil_r. Qed.

Lemma extended_push_all result sub fs ds :
  extended (HostTools.push_all result sub) fs ds
  = extended result (VFS.files sub ++ fs) (VFS.directories sub ++ ds).
Proof. unfold HostTools.push_all, extended. simpl. by rewrite !app_assoc. Qed.

(** More fuel does not change what was computed. *)
Lemma walk_mono self self' scope st steps steps' i result out :
  (∀ ps r, self ps st = (Ok (Some r), st) → self' ps st = (Ok (Some r), st)) →
  (∀ ps, read_only (self ps)) →
  steps ≤ steps' →
  HostTools.walk self scope steps i result st = (Ok (Some out), st) →
  HostTools.walk self' scope steps' i result st = (Ok (Some out), st).
Proof.
  intros Hself Hro. revert steps' i result.
  induction steps as [|steps IH]; intros steps' i result Hle Hwalk; [done|].
  destruct steps' as [|steps']; [lia|]. simpl in *.
  destruct (VFS.directories result !! i) as [dir|]; [|done].
  unfold bind in *.
  destruct (self (HostTools.sub_params dir scope) st) as [[sub|e] st1] eqn:Hsub;
    [|done].
  pose proof (read_only_run _ _ _ _ (Hro _) Hsub) as ->.
  destruct sub as [sub|]; [|done].
  rewrite (Hself _ _ Hsub). destruct sub; apply IH; (lia || done).
Qed.

Lemma host_listFiles_mono fuel fuel' v ps st r :
  fuel ≤ fuel' →
  HostTools.listFiles fuel v ps st = (Ok (Some r), st) →
  HostTools.listFiles fuel' v ps st = (Ok (Some r), st).
Proof.
  revert fuel' ps r. induction fuel as [|fuel IH]; intros fuel' ps r Hle Hlist; [done|].
  destruct fuel' as [|fuel']; [lia|]. simpl in *.
  unfold try_catch, bind at 1 in Hlist. unfold try_catch, bind at 1.
  destruct (VFS.listFiles v _ _ st) as [[direct|e] st1] eqn:Hdirect; [|done].
  pose proof (read_only_run _ _ _ _ (read_only_listFiles _ _ _) Hdirect) as ->.
  unfold bind in *.
  destruct (negb _ && _); [|done].
  destruct (walk_ok (HostTools.listFiles fuel v) (or_default (JStr "run") (param ps "scope"))
              fuel 0 direct st) as [o Ho];
    [intros; apply host_listFiles_ok|].
  rewrite Ho in Hlist. destruct o as [out|]; [|done].
  erewrite walk_mono; [exact Hlist| |intros; apply read_only_host_listFiles| |exact Ho].
  - intros ps' r'. apply IH. lia.
  - lia.
Qed.

Section recursive_listing.
Context (v : TaskVFS) (scope : jsval) (st : state) (K : list string).
Hypothesis Hscope : or_default (JStr "run") scope = scope.
Hypothesis Hwf : well_formed st.
Hypothesis Hblank :
  ∀ rel, nodes st !! (K ++ rel) = Some Dir → Forall (λ s, all_space s = false) rel.

(** The directories in the listing of a directory at or below [K] can be
    listed in turn, and lie one level deeper. *)
Lemma listed_directories_listable p full :
  (".." ∉ JS.split p) →
  VFS._resolvePath v (JStr p) scope = Ok full →
  nodes st !! Disk.locate st full = Some Dir →
  K `prefix_of` Disk.locate st full →
  ∃ direct,
    VFS.listFiles v (JStr p) scope st = (Ok direct, st)
    ∧ ∀ d, d ∈ VFS.directories direct →
           listable v scope st d
           ∧ K `prefix_of` Disk.locate st (VFS.e_fullPath d)
           ∧ length (Disk.locate st (VFS.e_fullPath d))
             = S (length (Disk.locate st full)).
Proof.
  intros Hdots Hres Hdir [rel Hrel].
  assert (Disk.lookup st full = Some Dir) as Hlook
    by (unfold Disk.lookup; by rewrite Hdir).
  pose proof (listFiles_directory v (JStr p) scope st full Hres Hwf Hlook) as Hlist.
  cbn zeta in Hlist. cbn [or_default toString] in Hlist.
  eexists. split; [exact Hlist|]. cbn [VFS.directories].
  intros d (dirent & -> & [Hisdir Hin]%list_elem_of_filter)%list_elem_of_fmap.
  apply elem_of_children in Hin as (n & Hn & Hkind).
  rewrite Hisdir in Hkind. symmetry in Hkind.
  apply bool_decide_eq_true_1 in Hkind as ->.
  assert (proper (Disk.name dirent)) as Hname.
  { apply Hwf in Hn. apply Forall_app in Hn as [_ Hn]. by inversion Hn. }
  assert (all_space (Disk.name dirent) = false) as Hspace.
  { rewrite Hrel, <- app_assoc in Hn. apply Hblank, Forall_app in Hn as [_ Hn].
    by inversion Hn. }
  pose proof (resolved_nonempty _ _ _ _ Hres) as Hfull.
  destruct (locate_child st full (Disk.name dirent) Hfull Hname) as [Hloc _].
  destruct (child_path_resolves v p scope full (Disk.name dirent) Hres Hdots Hname Hspace)
    as [Hchild Hnone].
  unfold listable. cbn [listed VFS.e_path VFS.e_fullPath]. rewrite Hloc.
  split; [done|]. split; [|by rewrite length_app, Nat.add_1_r].
  rewrite Hrel, <- app_assoc. by apply prefix_app_r.
Qed.

Section loop.
Context (j L : nat).
Hypothesis Hrec :
  ∀ y, listable v scope st y →
       K `prefix_of` Disk.locate st (VFS.e_fullPath y) →
       depth st ≤ length (Disk.locate st (VFS.e_fullPath y)) + j →
       ∃ F r,
         (∀ z, z ∈ VFS.directories r →
               below_level v scope st K
                 (length (Disk.locate st (VFS.e_fullPath y))) z)
         ∧ ∀ fuel, F ≤ fuel →
             HostTools.listFiles fuel v (HostTools.sub_params y scope) st
             = (Ok (Some (Success r)), st).

(** Visiting the next [n] directories of the array takes [n] turns of the
    loop and pushes items that lie deeper. *)
Lemma advance m n result i :
  m ≤ j →
  (∀ idx, i ≤ idx < i + n →
          ∃ y, VFS.directories result !! idx = Some y
               ∧ below_level v scope st K L y
               ∧ depth st < length (Disk.locate st (VFS.e_fullPath y)) + S m) →
  ∃ F fs ds,
    (∀ z, z ∈ ds →
          below_level v scope st K L z
          ∧ depth st < length (Disk.locate st (VFS.e_fullPath z)) + m)
    ∧ ∀ fuel steps, F ≤ fuel →
        HostTools.walk (HostTools.listFiles fuel v) scope (n + steps) i result st
        = HostTools.walk (HostTools.listFiles fuel v) scope steps (i + n)
            (extended result fs ds) st.
Proof.
  intros Hm. revert result i. induction n as [|n IH]; intros result i Hpending.
  { exists 0, [], []. split; [by intros ? ?%elem_of_nil|].
    intros fuel steps _. by rewrite extended_nil, Nat.add_0_r. }
  destruct (Hpending i ltac:(lia)) as (y & Hy & (Hlist & HK & HL) & Hdeep).
  destruct (Hrec y Hlist HK ltac:(lia)) as (Fy & r & Hr & Hrun).
  destruct (IH (HostTools.push_all result r) (S i)) as (F & fs & ds & Hds & Hwalk).
  { intros idx Hidx. destruct (Hpending idx ltac:(lia)) as (y' & Hy' & Hgood).
    exists y'. split; [|done]. simpl. by apply lookup_app_l_Some. }
  exists (Fy `max` F), (VFS.files r ++ fs), (VFS.directories r ++ ds).
  split.
  - intros z [Hz|Hz]%elem_of_app; [|by apply Hds].
    destruct (Hr z Hz) as (Hzl & HzK & Hzdeep).
    split; [split; [done|split; [done|lia]]|lia].
  - intros fuel steps Hfuel. cbn [Nat.add HostTools.walk]. rewrite Hy.
    unfold bind. rewrite Hrun by lia.
    rewrite Hwalk by lia. rewrite extended_push_all.
    by replace (S i + n) with (i + S n) by lia.
Qed.

(** The loop comes to an end. *)
Lemma loop_ends m result i :
  m ≤ S j →
  i ≤ length (VFS.directories result) →
  (∀ idx y, VFS.directories result !! idx = Some y →
            below_level v scope st K L y
            ∧ (i ≤ idx →
               depth st < length (Disk.locate st (VFS.e_fullPath y)) + m)) →
  ∃ F out,
    (∀ z, z ∈ VFS.directories out → below_level v scope st K L z)
    ∧ ∀ fuel steps, F ≤ fuel → F ≤ steps →
        HostTools.walk (HostTools.listFiles fuel v) scope steps i result st
        = (Ok (Some out), st).
Proof.
  revert result i. induction m as [|m IH]; intros result i Hm Hi Hitems.
  - exists 1, result. split.
    { intros z (idx & Hz)%list_elem_of_lookup. by destruct (Hitems idx z Hz). }
    intros fuel [|steps] _ Hsteps; [lia|]. simpl.
    destruct (VFS.directories result !! i) as [y|] eqn:Hy; [|done]. exfalso.
    destruct (Hitems i y Hy) as [((_ & _ & Hdir) & _) Hdeep].
    apply length_le_depth in Hdir. specialize (Hdeep ltac:(lia)). lia.
  - set (n := length (VFS.directories result) - i).
    destruct (advance m n result i ltac:(lia)) as (F1 & fs & ds & Hds & Hadvance).
    { intros idx Hidx.
      destruct (lookup_lt_is_Some_2 (VFS.directories result) idx ltac:(lia))
        as [y Hy].
      exists y. split; [done|]. destruct (Hitems idx y Hy) as [Hgood Hdeep].
      split; [done|]. apply Hdeep. lia. }
    destruct (IH (extended result fs ds) (i + n)) as (F2 & out & Hout & Hrest).
    + lia.
    + simpl. rewrite length_app. lia.
    + intros idx y. simpl. intros [Hold|[Hidx Hnew]]%lookup_app_Some.
      * destruct (Hitems idx y Hold) as [Hgood _]. split; [done|].
        apply lookup_lt_Some in Hold. lia.
      * apply list_elem_of_lookup_2 in Hnew. by destruct (Hds y Hnew).
    + exists (n + F1 + F2), out. split; [done|]. intros fuel steps Hfuel Hsteps.
      replace steps with (n + (steps - n)) by lia.
      rewrite Hadvance by lia. apply Hrest; lia.
Qed.

End loop.

Lemma host_listFiles_unfold fuel ps p direct :
  falsy (or_default (JBool false) (param ps "recursive")) = false →
  or_default (JStr "/") (param ps "path") = JStr p →
  or_default (JStr "run") (param ps "scope") = scope →
  VFS.listFiles v (JStr p) scope st = (Ok direct, st) →
  (VFS.directories direct = [] →
   HostTools.listFiles (S fuel) v ps st = (Ok (Some (Success direct)), st))
  ∧ (∀ out,
       VFS.directories direct ≠ [] →
       HostTools.walk (HostTools.listFiles fuel v) scope fuel 0 direct st
       = (Ok (Some out), st) →
       HostTools.listFiles (S fuel) v ps st = (Ok (Some (Success out)), st)).
Proof.
  intros Hflag Hpath Hparam Hdirect.
  split; [intros Hnone|intros out Hne Hwalk]; simpl; unfold try_catch, bind at 1;
    rewrite Hpath, Hparam, Hdirect, Hflag; cbn [negb andb]; unfold bind.
  - rewrite Hnone. by rewrite bool_decide_eq_false_2 by (simpl; lia).
  - assert (0 < length (VFS.directories direct)) as Hlen
      by (destruct (VFS.directories direct); simpl; [done|lia]).
    rewrite bool_decide_eq_true_2 by done.
    by rewrite Hwalk.
Qed.

(** A recursive listing of a directory at or below [K] comes to an end,
    and the directories it holds lie below the listed one. *)
Lemma recursion_ends j ps p full :
  falsy (or_default (JBool false) (param ps "recursive")) = false →
  or_default (JStr "/") (param ps "path") = JStr p →
  or_default (JStr "run") (param ps "scope") = scope →
  (".." ∉ JS.split p) →
  VFS._resolvePath v (JStr p) scope = Ok full →
  nodes st !! Disk.locate st full = Some Dir →
  K `prefix_of` Disk.locate st full →
  depth st ≤ length (Disk.locate st full) + j →
  ∃ F r,
    (∀ z, z ∈ VFS.directories r →
          below_level v scope st K (length (Disk.locate st full)) z)
    ∧ ∀ fuel, F ≤ fuel →
        HostTools.listFiles fuel v ps st = (Ok (Some (Success r)), st).
Proof.
  revert ps p full.
  induction j as [|j IH]; intros ps p full Hflag Hpath Hparam Hdots Hres Hdir HK Hdepth.
  all: destruct (listed_directories_listable p full Hdots Hres Hdir HK)
         as (direct & Hdirect & Hitems).
  all: pose proof (λ fuel, host_listFiles_unfold fuel ps p direct Hflag Hpath Hparam
                             Hdirect) as Hrun.
  all: destruct (VFS.directories direct) as [|d ds] eqn:Hds.
  1,3: exists 1, direct; (split; [rewrite Hds; by intros ? ?%elem_of_nil|]);
       intros [|fuel] Hfuel; [lia|]; by destruct (Hrun fuel) as [-> _].
  - exfalso. destruct (Hitems d ltac:(apply list_elem_of_here))
      as ((_ & _ & Hnode) & _ & Hlen).
    apply length_le_depth in Hnode. lia.
  - destruct (loop_ends j (length (Disk.locate st full))) with
      (m := S j) (result := direct) (i := 0) as (F & out & Hout & Hwalk).
    + intros y (Hydots & Hyres & Hydir) HyK Hylen.
      apply (IH (HostTools.sub_params y scope) (VFS.e_path y) (VFS.e_fullPath y));
        done.
    + done.
    + lia.
    + intros idx y Hy. rewrite Hds in Hy. apply list_elem_of_lookup_2 in Hy.
      destruct (Hitems y Hy) as (Hl & HzK & Hlen).
      split; [split; [done|split; [done|lia]]|lia].
    + exists (S F), out. split; [done|].
      intros [|fuel] Hfuel; [lia|]. destruct (Hrun fuel) as [_ Hgo].
      apply Hgo; [done|]. apply Hwalk; lia.
Qed.

End recursive_listing.


